(** * MoQSession: priority encoding, stream writers and subscribe-ID credit

    A shallow embedding of [moxygen/MoQSession.cpp]:
    - [Priority]: [getStreamPriority] and its two helpers, on fixed-width
      unsigned integers with the wrap-around written out;
    - [Writer]: [StreamPublisherImpl], the writer of one subgroup or fetch
      stream, as a state-and-error monad over the writer's fields and the
      trace of calls it makes on the transport and on its publisher;
    - [Session]: the control-plane handlers of [MoQSession] that touch the
      publisher map and the subscribe-ID counters. *)

From Stdlib Require Import ZArith List Bool Ascii String Lia.
From stdpp Require Import base option sorting gmap.
Import ListNotations.
Open Scope Z_scope.

(** ** Fixed-width unsigned integers *)

Definition uint8 (x : Z) : Z := x mod 2 ^ 8.
Definition uint32 (x : Z) : Z := x mod 2 ^ 32.
Definition uint64 (x : Z) : Z := x mod 2 ^ 64.

(** [std::numeric_limits<uint64_t>::max()] *)
Definition UINT64_MAX : Z := 2 ^ 64 - 1.

(** Modelled from the spec: the [GroupOrder] enumeration, whose declaration
    is in a header outside these sources; the spec gives it the two values
    OldestFirst and NewestFirst. *)
Inductive GroupOrder : Type :=
| OldestFirst
| NewestFirst.

#[global] Instance GroupOrder_eq_dec : EqDecision GroupOrder.
Proof. solve_decision. Defined.

(** ** The priority encoder *)

Module Priority.

Definition IdMask : Z := 0x1FFFFF.

(** [uint32_t groupPriorityBits(GroupOrder, uint64_t group)] *)
Definition groupPriorityBits (groupOrder : GroupOrder) (group : Z) : Z :=
  let truncGroup := Z.land (uint32 group) IdMask in
  if decide (groupOrder = OldestFirst) then truncGroup
  else uint32 (IdMask - truncGroup).

(** [uint32_t subgroupPriorityBits(uint32_t subgroupID)] *)
Definition subgroupPriorityBits (subgroupID : Z) : Z :=
  Z.land (uint32 subgroupID) IdMask.

(** [uint64_t getStreamPriority(groupID, subgroupID, subPri, pubPri,
    pubGroupOrder)].  [groupBits] and [subgroupBits] are [uint32_t]; the
    shift [groupBits << 21] is therefore a 32-bit shift, and only its result
    is widened to 64 bits by the [|] with the 64-bit operands.  The call
    [subgroupPriorityBits(subgroupID)] converts the 64-bit [subgroupID] to
    the 32-bit parameter. *)
Definition getStreamPriority
    (groupID subgroupID subPri pubPri : Z) (pubGroupOrder : GroupOrder) : Z :=
  let groupBits := groupPriorityBits pubGroupOrder (uint64 groupID) in
  let subgroupBits := subgroupPriorityBits (uint32 (uint64 subgroupID)) in
  Z.lor
    (Z.lor
       (Z.lor (uint64 (Z.shiftl (uint8 subPri) 50))
              (uint64 (Z.shiftl (uint8 pubPri) 42)))
       (uint32 (Z.shiftl groupBits 21)))
    subgroupBits.

(** The layout the source comment describes
    ("6 reserved | 8 sub pri | 8 pub pri | 21 group order | 21 obj order"),
    with the group field shifted as a 64-bit value. *)
Definition spec_groupBits (groupOrder : GroupOrder) (groupID : Z) : Z :=
  let low := groupID mod 2 ^ 21 in
  match groupOrder with
  | OldestFirst => low
  | NewestFirst => (2 ^ 21 - 1) - low
  end.

Definition spec_priority
    (groupID subgroupID subPri pubPri : Z) (groupOrder : GroupOrder) : Z :=
  Z.lor
    (Z.lor
       (Z.lor (Z.shiftl subPri 50) (Z.shiftl pubPri 42))
       (Z.shiftl (spec_groupBits groupOrder groupID) 21))
    (subgroupID mod 2 ^ 21).

End Priority.

(** ** Vocabulary shared by the writer and the session *)

Inductive StreamType : Type :=
| STREAM_HEADER_SUBGROUP
| FETCH_HEADER
| OBJECT_DATAGRAM.

Inductive ObjectStatus : Type :=
| NORMAL
| OBJECT_NOT_EXIST
| GROUP_NOT_EXIST
| END_OF_GROUP
| END_OF_TRACK_AND_GROUP
| END_OF_SUBGROUP.

Inductive ObjectPublishStatus : Type :=
| IN_PROGRESS
| DONE.

(** [ObjectHeader::trackIdentifier] is a variant of the two identifiers. *)
Inductive TrackIdentifier : Type :=
| OfSubscribeID (value : Z)
| OfTrackAlias (value : Z).

Module ObjectHeader.
Record t : Type := mk {
  trackIdentifier : TrackIdentifier;
  group : Z;
  subgroup : Z;
  id : Z;
  priority : Z;
  status : ObjectStatus;
  length : option Z
}.
End ObjectHeader.

Module ResetStreamErrorCode.
Inductive t : Type :=
| INTERNAL_ERROR
| CANCELLED
| SESSION_CLOSED.
End ResetStreamErrorCode.

Module MoQPublishError.
Inductive Code : Type :=
| API_ERROR
| WRITE_ERROR
| CANCELLED
| BLOCKED.
Record t : Type := mk { code : Code; msg : string }.
End MoQPublishError.

(** [folly::Expected<A, E>] *)
Inductive Expected (A E : Type) : Type :=
| Value (a : A)
| Unexpected (e : E).
Arguments Value {A E} a.
Arguments Unexpected {A E} e.

(** [bool(optional)], [bool(pointer)] *)
Definition hasValue {A} (o : option A) : bool :=
  match o with
  | Some _ => true
  | None => false
  end.

(** [Payload] is a possibly null buffer; [computeChainDataLength] is the
    number of bytes it holds. *)
Definition Payload : Type := option (list Byte.byte).

Definition computeChainDataLength (payload : Payload) : Z :=
  match payload with
  | Some bytes => Z.of_nat (List.length bytes)
  | None => 0
  end.

(** ** The stream writer, [StreamPublisherImpl] *)

Module Writer.

(** What the codec appends to [writeBuf_]; the codec is outside these
    sources, so a frame is kept as the call that produced it. *)
Inductive Frame : Type :=
| FetchHeaderFrame (subscribeID : Z)
| SubgroupHeaderFrame (header : ObjectHeader.t)
| ObjectFrame (streamType : StreamType) (header : ObjectHeader.t)
              (payload : Payload)
| PayloadFrame (payload : Payload).

(** The calls the writer makes on its transport handle and on its
    publisher, in the order it makes them. *)
Inductive Call : Type :=
| WriteStreamData (handle : Z) (buf : list Frame) (fin : bool)
| ResetStream (handle : Z) (error : ResetStreamErrorCode.t)
| OnStreamComplete (finalHeader : ObjectHeader.t).

(** The fields of [StreamPublisherImpl]; [calls_] is the trace of [Call]s
    made so far.  [writeHandle_] is [None] for the null pointer. *)
Record StreamPublisherImpl : Type := mk {
  writeHandle_ : option Z;
  streamType_ : StreamType;
  header_ : ObjectHeader.t;
  currentLengthRemaining_ : option Z;
  writeBuf_ : list Frame;
  calls_ : list Call
}.

Definition set_writeHandle (h : option Z) (w : StreamPublisherImpl) :=
  mk h (streamType_ w) (header_ w) (currentLengthRemaining_ w)
     (writeBuf_ w) (calls_ w).
Definition set_streamType (ty : StreamType) (w : StreamPublisherImpl) :=
  mk (writeHandle_ w) ty (header_ w) (currentLengthRemaining_ w)
     (writeBuf_ w) (calls_ w).
Definition set_header (h : ObjectHeader.t) (w : StreamPublisherImpl) :=
  mk (writeHandle_ w) (streamType_ w) h (currentLengthRemaining_ w)
     (writeBuf_ w) (calls_ w).
Definition set_currentLengthRemaining (r : option Z) (w : StreamPublisherImpl) :=
  mk (writeHandle_ w) (streamType_ w) (header_ w) r (writeBuf_ w) (calls_ w).
Definition set_writeBuf (b : list Frame) (w : StreamPublisherImpl) :=
  mk (writeHandle_ w) (streamType_ w) (header_ w) (currentLengthRemaining_ w)
     b (calls_ w).
Definition call (c : Call) (w : StreamPublisherImpl) :=
  mk (writeHandle_ w) (streamType_ w) (header_ w) (currentLengthRemaining_ w)
     (writeBuf_ w) (calls_ w ++ [c]).

Definition header_set_id (i : Z) (h : ObjectHeader.t) : ObjectHeader.t :=
  ObjectHeader.mk (ObjectHeader.trackIdentifier h) (ObjectHeader.group h)
    (ObjectHeader.subgroup h) i (ObjectHeader.priority h)
    (ObjectHeader.status h) (ObjectHeader.length h).
Definition header_set_length (l : option Z) (h : ObjectHeader.t) : ObjectHeader.t :=
  ObjectHeader.mk (ObjectHeader.trackIdentifier h) (ObjectHeader.group h)
    (ObjectHeader.subgroup h) (ObjectHeader.id h) (ObjectHeader.priority h)
    (ObjectHeader.status h) l.
Definition header_set_status (s : ObjectStatus) (h : ObjectHeader.t) : ObjectHeader.t :=
  ObjectHeader.mk (ObjectHeader.trackIdentifier h) (ObjectHeader.group h)
    (ObjectHeader.subgroup h) (ObjectHeader.id h) (ObjectHeader.priority h)
    s (ObjectHeader.length h).
Definition header_set_group (g sg : Z) (h : ObjectHeader.t) : ObjectHeader.t :=
  ObjectHeader.mk (ObjectHeader.trackIdentifier h) g sg (ObjectHeader.id h)
    (ObjectHeader.priority h) (ObjectHeader.status h) (ObjectHeader.length h).
Definition header_set_trackIdentifier (ti : TrackIdentifier) (h : ObjectHeader.t)
  : ObjectHeader.t :=
  ObjectHeader.mk ti (ObjectHeader.group h) (ObjectHeader.subgroup h)
    (ObjectHeader.id h) (ObjectHeader.priority h) (ObjectHeader.status h)
    (ObjectHeader.length h).

(** A method of the writer: it updates the writer and returns an
    [Expected]; [None] stands for undefined behaviour, which the source has
    where it calls through a null [writeHandle_]. *)
Definition M (A : Type) : Type :=
  StreamPublisherImpl ->
  option (StreamPublisherImpl * Expected A MoQPublishError.t).

Definition ret {A} (a : A) : M A := fun w => Some (w, Value a).
Definition bind {A B} (m : M A) (f : A -> M B) : M B :=
  fun w =>
    match m w with
    | None => None
    | Some (w', Value a) => f a w'
    | Some (w', Unexpected e) => Some (w', Unexpected e)
    end.
Definition get : M StreamPublisherImpl := fun w => Some (w, Value w).
Definition modify (f : StreamPublisherImpl -> StreamPublisherImpl) : M unit :=
  fun w => Some (f w, Value tt).
Definition makeUnexpected {A} (c : MoQPublishError.Code) (m : string) : M A :=
  fun w => Some (w, Unexpected (MoQPublishError.mk c m)).
Definition undefined {A} : M A := fun _ => None.

Declare Scope writer_scope.
Delimit Scope writer_scope with writer.
Notation "x <- m ;; k" := (bind m (fun x => k))
  (at level 100, m at next level, k at level 200, right associativity)
  : writer_scope.
Notation "m ;; k" := (bind m (fun _ => k))
  (at level 100, k at level 200, right associativity) : writer_scope.
Local Open Scope writer_scope.

Section WithTransport.

(** The transport's answer to [writeStreamData(buf, fin)]: [true] when the
    write has a value, [false] when it has an error.  The transport is an
    external collaborator; its answer may depend on everything the writer
    did before, so it is a function of the trace. *)
Variable writeStreamData : list Call -> list Frame -> bool -> bool.

(** Fetch constructor *)
Definition newFetch (subscribeID writeHandle : Z) : StreamPublisherImpl :=
  mk (Some writeHandle) FETCH_HEADER
     (ObjectHeader.mk (OfSubscribeID subscribeID) 0 0 UINT64_MAX 0 NORMAL None)
     None
     [FetchHeaderFrame subscribeID]
     [].

Definition setGroupAndSubgroup (groupID subgroupID : Z)
    (w : StreamPublisherImpl) : StreamPublisherImpl * bool :=
  if groupID <? ObjectHeader.group (header_ w) then (w, false)
  else
    let w1 :=
      if ObjectHeader.group (header_ w) <? groupID
      then set_header (header_set_id UINT64_MAX (header_ w)) w
      else w in
    (set_header (header_set_group groupID subgroupID (header_ w1)) w1, true).

(** Subscribe constructor *)
Definition newSubgroup (subscribeID writeHandle alias groupID subgroupID : Z)
  : StreamPublisherImpl :=
  let w0 := newFetch subscribeID writeHandle in
  let w1 := set_streamType STREAM_HEADER_SUBGROUP w0 in
  let w2 := set_header (header_set_trackIdentifier (OfTrackAlias alias)
                          (header_ w1)) w1 in
  let w3 := fst (setGroupAndSubgroup groupID subgroupID w2) in
  set_writeBuf [SubgroupHeaderFrame (header_ w3)] w3.

Definition onStreamComplete : M unit :=
  modify (fun w => call (OnStreamComplete (header_ w)) w).

Definition reset (error : ResetStreamErrorCode.t) : M unit :=
  w <- get ;;
  match writeHandle_ w with
  | Some writeHandle =>
      modify (set_writeHandle None) ;;
      modify (call (ResetStream writeHandle error))
  | None => ret tt
  end ;;
  onStreamComplete.

Definition validatePublish (objectID : Z) : M unit :=
  w <- get ;;
  if hasValue (currentLengthRemaining_ w) then
    reset ResetStreamErrorCode.INTERNAL_ERROR ;;
    makeUnexpected MoQPublishError.API_ERROR "Previous object incomplete"
  else if negb (ObjectHeader.id (header_ w) =? UINT64_MAX)
          && (objectID <=? ObjectHeader.id (header_ w)) then
    reset ResetStreamErrorCode.INTERNAL_ERROR ;;
    makeUnexpected MoQPublishError.API_ERROR
      "Object ID not advancing in subgroup"
  else if hasValue (writeHandle_ w) then ret tt
  else makeUnexpected MoQPublishError.API_ERROR "Subgroup reset".

Definition writeToStream (finStream : bool) : M unit :=
  w <- get ;;
  match writeHandle_ w with
  | None => undefined
  | Some writeHandle =>
      (if finStream then modify (set_writeHandle None) else ret tt) ;;
      let hasValue := writeStreamData (calls_ w) (writeBuf_ w) finStream in
      modify (fun w' =>
        call (WriteStreamData writeHandle (writeBuf_ w') finStream)
             (set_writeBuf [] w')) ;;
      if hasValue then
        if finStream then onStreamComplete else ret tt
      else
        reset ResetStreamErrorCode.INTERNAL_ERROR ;;
        makeUnexpected MoQPublishError.WRITE_ERROR "write error"
  end.

Definition writeCurrentObject (objectID length : Z) (payload : Payload)
    (finStream : bool) : M unit :=
  modify (fun w =>
    set_header (header_set_length (Some length)
                  (header_set_id objectID (header_ w))) w) ;;
  modify (fun w =>
    set_writeBuf (writeBuf_ w ++ [ObjectFrame (streamType_ w) (header_ w) payload])
                 w) ;;
  writeToStream finStream.

Definition validateObjectPublishAndUpdateState (payload : Payload)
    (finStream : bool) : M ObjectPublishStatus :=
  let length := computeChainDataLength payload in
  w <- get ;;
  match currentLengthRemaining_ w with
  | None => makeUnexpected MoQPublishError.API_ERROR "Not publishing object"
  | Some remaining =>
      if remaining <? length then
        reset ResetStreamErrorCode.INTERNAL_ERROR ;;
        makeUnexpected MoQPublishError.API_ERROR
          "Length exceeds remaining in object"
      else
        modify (set_currentLengthRemaining (Some (remaining - length))) ;;
        if remaining - length =? 0 then
          modify (set_currentLengthRemaining None) ;;
          ret DONE
        else if finStream then
          reset ResetStreamErrorCode.INTERNAL_ERROR ;;
          makeUnexpected MoQPublishError.API_ERROR "finStream with open object"
        else ret IN_PROGRESS
  end.

(** *** Interface methods (SubgroupConsumer) *)

Definition object (objectID : Z) (payload : Payload) (finStream : bool)
  : M unit :=
  validatePublish objectID ;;
  let length := computeChainDataLength payload in
  writeCurrentObject objectID length payload finStream.

Definition publishStatus (objectID : Z) (status : ObjectStatus)
    (finStream : bool) : M unit :=
  validatePublish objectID ;;
  modify (fun w => set_header (header_set_status status (header_ w)) w) ;;
  writeCurrentObject objectID 0 None finStream.

Definition objectNotExists (objectID : Z) (finStream : bool) : M unit :=
  publishStatus objectID OBJECT_NOT_EXIST finStream.

Definition beginObject (objectID length : Z) (initialPayload : Payload)
  : M unit :=
  validatePublish objectID ;;
  modify (set_currentLengthRemaining (Some length)) ;;
  validateObjectPublishAndUpdateState initialPayload false ;;
  writeCurrentObject objectID length initialPayload false.

Definition objectPayload (payload : Payload) (finStream : bool)
  : M ObjectPublishStatus :=
  validateObjectPublishRes <-
    validateObjectPublishAndUpdateState payload finStream ;;
  modify (fun w => set_writeBuf (writeBuf_ w ++ [PayloadFrame payload]) w) ;;
  writeToStream finStream ;;
  ret validateObjectPublishRes.

Definition endOfGroup (endOfGroupObjectId : Z) : M unit :=
  publishStatus endOfGroupObjectId END_OF_GROUP true.

Definition endOfTrackAndGroup (endOfTrackObjectId : Z) : M unit :=
  publishStatus endOfTrackObjectId END_OF_TRACK_AND_GROUP true.

Definition endOfSubgroup : M unit :=
  w <- get ;;
  if hasValue (currentLengthRemaining_ w) then
    reset ResetStreamErrorCode.INTERNAL_ERROR ;;
    makeUnexpected MoQPublishError.API_ERROR "Previous object incomplete"
  else writeToStream true.

(** The cancellation callback the constructor registers on the transport's
    stop-sending signal. *)
Definition onCancel : M unit :=
  w <- get ;;
  if hasValue (writeHandle_ w) then reset ResetStreamErrorCode.CANCELLED else ret tt.

(** *** FetchConsumer overrides *)

Definition groupMovedBack {A} : M A :=
  makeUnexpected MoQPublishError.API_ERROR "Group moved back".

(** [if (!setGroupAndSubgroup(groupID, subgroupID)) return API_ERROR] *)
Definition checkGroupAndSubgroup (groupID subgroupID : Z) : M unit :=
  fun w =>
    let '(w', ok) := setGroupAndSubgroup groupID subgroupID w in
    if ok then ret tt w' else groupMovedBack w'.

Definition FetchConsumer_object (groupID subgroupID objectID : Z)
    (payload : Payload) (finFetch : bool) : M unit :=
  checkGroupAndSubgroup groupID subgroupID ;;
  modify (fun w => set_header (header_set_status NORMAL (header_ w)) w) ;;
  object objectID payload finFetch.

Definition FetchConsumer_objectNotExists (groupID subgroupID objectID : Z)
    (finFetch : bool) : M unit :=
  checkGroupAndSubgroup groupID subgroupID ;;
  objectNotExists objectID finFetch.

Definition FetchConsumer_groupNotExists (groupID subgroupID : Z)
    (finFetch : bool) : M unit :=
  checkGroupAndSubgroup groupID subgroupID ;;
  publishStatus 0 GROUP_NOT_EXIST finFetch.

Definition FetchConsumer_beginObject (groupID subgroupID objectID length : Z)
    (initialPayload : Payload) : M unit :=
  checkGroupAndSubgroup groupID subgroupID ;;
  modify (fun w => set_header (header_set_status NORMAL (header_ w)) w) ;;
  beginObject objectID length initialPayload.

Definition FetchConsumer_endOfGroup (groupID subgroupID objectID : Z)
    (finFetch : bool) : M unit :=
  checkGroupAndSubgroup groupID subgroupID ;;
  publishStatus objectID END_OF_GROUP finFetch.

Definition FetchConsumer_endOfTrackAndGroup (groupID subgroupID objectID : Z)
  : M unit :=
  checkGroupAndSubgroup groupID subgroupID ;;
  endOfTrackAndGroup objectID.

Definition endOfFetch : M unit :=
  w <- get ;;
  if hasValue (writeHandle_ w) then endOfSubgroup
  else makeUnexpected MoQPublishError.CANCELLED "Fetch cancelled".

(** *** Sequences of calls made by the application

    The application holds the writer as a [SubgroupConsumer] or as a
    [FetchConsumer] and calls its methods one after the other, whatever
    each call returned. *)

Inductive Op : Type :=
| Object (objectID : Z) (payload : Payload) (finStream : bool)
| ObjectNotExists (objectID : Z) (finStream : bool)
| BeginObject (objectID length : Z) (initialPayload : Payload)
| ObjectPayload (payload : Payload) (finStream : bool)
| EndOfGroup (endOfGroupObjectId : Z)
| EndOfTrackAndGroup (endOfTrackObjectId : Z)
| EndOfSubgroup
| PublishStatus (objectID : Z) (status : ObjectStatus) (finStream : bool)
| Reset (error : ResetStreamErrorCode.t)
| OnCancel
| FetchObject (groupID subgroupID objectID : Z) (payload : Payload)
              (finFetch : bool)
| FetchObjectNotExists (groupID subgroupID objectID : Z) (finFetch : bool)
| FetchGroupNotExists (groupID subgroupID : Z) (finFetch : bool)
| FetchBeginObject (groupID subgroupID objectID length : Z)
                   (initialPayload : Payload)
| FetchEndOfGroup (groupID subgroupID objectID : Z) (finFetch : bool)
| FetchEndOfTrackAndGroup (groupID subgroupID objectID : Z)
| EndOfFetch.

(** The methods of the [SubgroupConsumer] side (with [publishStatus], which
    the track publisher calls, [reset] and the cancellation callback). *)
Definition subgroupOp (op : Op) : bool :=
  match op with
  | Object _ _ _ | ObjectNotExists _ _ | BeginObject _ _ _
  | ObjectPayload _ _ | EndOfGroup _ | EndOfTrackAndGroup _
  | EndOfSubgroup | PublishStatus _ _ _ | Reset _ | OnCancel => true
  | _ => false
  end.

(** The methods of the [FetchConsumer] side. *)
Definition fetchOp (op : Op) : bool :=
  match op with
  | FetchObject _ _ _ _ _ | FetchObjectNotExists _ _ _ _
  | FetchGroupNotExists _ _ _ | FetchBeginObject _ _ _ _ _
  | FetchEndOfGroup _ _ _ _ | FetchEndOfTrackAndGroup _ _ _
  | ObjectPayload _ _ | EndOfFetch | Reset _ | OnCancel => true
  | _ => false
  end.

(** The object ID an operation carries, if it carries one. *)
Definition opObjectID (op : Op) : option Z :=
  match op with
  | Object i _ _ | ObjectNotExists i _ | BeginObject i _ _
  | EndOfGroup i | EndOfTrackAndGroup i | PublishStatus i _ _
  | FetchObject _ _ i _ _ | FetchObjectNotExists _ _ i _
  | FetchBeginObject _ _ i _ _ | FetchEndOfGroup _ _ i _
  | FetchEndOfTrackAndGroup _ _ i => Some i
  | FetchGroupNotExists _ _ _ => Some 0
  | _ => None
  end.

Definition discard {A} (m : M A)
  : StreamPublisherImpl -> option StreamPublisherImpl :=
  fun w =>
    match m w with
    | Some (w', _) => Some w'
    | None => None
    end.

Definition step (op : Op) : StreamPublisherImpl -> option StreamPublisherImpl :=
  match op with
  | Object i p f => discard (object i p f)
  | ObjectNotExists i f => discard (objectNotExists i f)
  | BeginObject i l p => discard (beginObject i l p)
  | ObjectPayload p f => discard (objectPayload p f)
  | EndOfGroup i => discard (endOfGroup i)
  | EndOfTrackAndGroup i => discard (endOfTrackAndGroup i)
  | EndOfSubgroup => discard endOfSubgroup
  | PublishStatus i s f => discard (publishStatus i s f)
  | Reset e => discard (reset e)
  | OnCancel => discard onCancel
  | FetchObject g sg i p f => discard (FetchConsumer_object g sg i p f)
  | FetchObjectNotExists g sg i f =>
      discard (FetchConsumer_objectNotExists g sg i f)
  | FetchGroupNotExists g sg f => discard (FetchConsumer_groupNotExists g sg f)
  | FetchBeginObject g sg i l p =>
      discard (FetchConsumer_beginObject g sg i l p)
  | FetchEndOfGroup g sg i f => discard (FetchConsumer_endOfGroup g sg i f)
  | FetchEndOfTrackAndGroup g sg i =>
      discard (FetchConsumer_endOfTrackAndGroup g sg i)
  | EndOfFetch => discard endOfFetch
  end.

Fixpoint run (ops : list Op) (w : StreamPublisherImpl)
  : option StreamPublisherImpl :=
  match ops with
  | [] => Some w
  | op :: rest =>
      match step op w with
      | Some w' => run rest w'
      | None => None
      end
  end.

End WithTransport.

(** The object headers in a buffer, and the object headers the writer has
    handed to the transport so far, in order. *)
Definition frameObjects (f : Frame) : list ObjectHeader.t :=
  match f with
  | ObjectFrame _ h _ => [h]
  | _ => []
  end.

Definition callObjects (c : Call) : list ObjectHeader.t :=
  match c with
  | WriteStreamData _ buf _ => flat_map frameObjects buf
  | _ => []
  end.

Definition written (w : StreamPublisherImpl) : list ObjectHeader.t :=
  flat_map callObjects (calls_ w).

(** Written objects followed by those still in [writeBuf_]. *)
Definition published (w : StreamPublisherImpl) : list ObjectHeader.t :=
  written w ++ flat_map frameObjects (writeBuf_ w).

Definition tuple (h : ObjectHeader.t) : Z * Z * Z :=
  (ObjectHeader.group h, ObjectHeader.subgroup h, ObjectHeader.id h).

End Writer.

(** ** The fetch publisher, [FetchPublisherImpl] *)

Module Publisher.

(** [subscribeID_], [subPriority_] and [groupOrder_] are the fields of the
    base class [PublisherImpl]; [priority_] records the last
    [setPriority(1, priority, false)] made on the stream. *)
Record FetchPublisherImpl : Type := mk {
  subscribeID_ : Z;
  subPriority_ : Z;
  groupOrder_ : GroupOrder;
  streamPublisher_ : option Writer.StreamPublisherImpl;
  priority_ : option Z
}.

(** [FetchPublisherImpl::beginFetch(groupOrder)].  [wt] tells whether
    [getWebTransport()] is non-null, [stream] is the answer of
    [createUniStream()]: the handle of the new stream, or [None] when the
    transport refuses. *)
Definition beginFetch (wt : bool) (stream : option Z) (groupOrder : GroupOrder)
    (fp : FetchPublisherImpl)
  : FetchPublisherImpl * Expected unit MoQPublishError.t :=
  if negb wt then
    (fp, Unexpected (MoQPublishError.mk MoQPublishError.API_ERROR
                       "Publish after fetchCancel"))
  else
    match stream with
    | None =>
        (fp, Unexpected (MoQPublishError.mk MoQPublishError.BLOCKED
                           "Failed to create uni stream."))
    | Some handle =>
        (mk (subscribeID_ fp) (subPriority_ fp) groupOrder
            (Some (Writer.newFetch (subscribeID_ fp) handle))
            (Some (Priority.getStreamPriority 0 0 (subPriority_ fp) 0
                     groupOrder)),
         Value tt)
    end.

End Publisher.

(** ** Control messages *)

Definition FullTrackName : Type := (list string * string)%type.

(** (group, object) *)
Definition AbsoluteLocation : Type := (Z * Z)%type.

Module SetupParameter.
Record t : Type := mk { key : Z; asString : string; asUint64 : Z }.
End SetupParameter.

Module ClientSetup.
Record t : Type := mk {
  supportedVersions : list Z;
  params : list SetupParameter.t
}.
End ClientSetup.

Module ServerSetup.
Record t : Type := mk {
  selectedVersion : Z;
  params : list SetupParameter.t
}.
End ServerSetup.

Module SubscribeRequest.
Record t : Type := mk {
  subscribeID : Z;
  trackAlias : Z;
  fullTrackName : FullTrackName;
  priority : Z;
  groupOrder : GroupOrder
}.
End SubscribeRequest.

Module SubscribeUpdate.
Record t : Type := mk { subscribeID : Z; priority : Z }.
End SubscribeUpdate.

Module Unsubscribe.
Record t : Type := mk { subscribeID : Z }.
End Unsubscribe.

Module SubscribeOk.
Record t : Type := mk { subscribeID : Z; groupOrder : GroupOrder }.
End SubscribeOk.

Module SubscribeError.
Record t : Type := mk {
  subscribeID : Z;
  errorCode : Z;
  reasonPhrase : string;
  retryAlias : option Z
}.
End SubscribeError.

Module SubscribeDone.
Record t : Type := mk {
  subscribeID : Z;
  statusCode : Z;
  reasonPhrase : string;
  finalObject : option AbsoluteLocation
}.
End SubscribeDone.

Module Fetch.
Record t : Type := mk {
  subscribeID : Z;
  fullTrackName : FullTrackName;
  priority : Z;
  groupOrder : GroupOrder;
  start : AbsoluteLocation;
  end_ : AbsoluteLocation
}.
End Fetch.

Module FetchOk.
Record t : Type := mk { subscribeID : Z; groupOrder : GroupOrder }.
End FetchOk.

Module FetchError.
Record t : Type := mk {
  subscribeID : Z;
  errorCode : Z;
  reasonPhrase : string
}.
End FetchError.

Module FetchCancel.
Record t : Type := mk { subscribeID : Z }.
End FetchCancel.

Module MaxSubscribeId.
Record t : Type := mk { subscribeID : Z }.
End MaxSubscribeId.

Module SessionCloseErrorCode.
Inductive t : Type :=
| NO_ERROR
| INTERNAL_ERROR
| PROTOCOL_VIOLATION
| TOO_MANY_SUBSCRIBES.
End SessionCloseErrorCode.

Module TrackPublisherImpl.
Record t : Type := mk {
  subscribeID_ : Z;
  trackAlias_ : Z;
  subPriority_ : Z;
  groupOrder_ : GroupOrder
}.
End TrackPublisherImpl.

Module SubscribeTrackReceiveState.
Record t : Type := mk {
  fullTrackName_ : FullTrackName;
  subscribeID_ : Z;
  callback_ : bool;
  promiseFulfilled_ : bool
}.
End SubscribeTrackReceiveState.

Module FetchTrackReceiveState.
Record t : Type := mk {
  fullTrackName_ : FullTrackName;
  subscribeID_ : Z;
  callback_ : bool;
  promiseFulfilled_ : bool
}.
End FetchTrackReceiveState.

(** ** The session, [MoQSession] *)

Module Session.

Inductive Direction : Type :=
| CLIENT
| SERVER.

Inductive PromiseState : Type :=
| Pending
| HasValue
| HasException.

(** A message framed into [controlWriteBuf_] by one of the codec's write
    functions. *)
Inductive ControlFrame : Type :=
| ClientSetupFrame (m : ClientSetup.t)
| ServerSetupFrame (m : ServerSetup.t)
| SubscribeRequestFrame (m : SubscribeRequest.t)
| SubscribeOkFrame (m : SubscribeOk.t)
| SubscribeErrorFrame (m : SubscribeError.t)
| SubscribeDoneFrame (m : SubscribeDone.t)
| MaxSubscribeIdFrame (m : MaxSubscribeId.t)
| FetchFrame (m : Fetch.t)
| FetchOkFrame (m : FetchOk.t)
| FetchErrorFrame (m : FetchError.t)
| FetchCancelFrame (m : FetchCancel.t)
| UnsubscribeFrame (m : Unsubscribe.t)
| SubscribeUpdateFrame (m : SubscribeUpdate.t).

(** A message queued in [controlMessages_] for the application. *)
Inductive MoQMessage : Type :=
| OfSubscribeRequest (m : SubscribeRequest.t)
| OfSubscribeUpdate (m : SubscribeUpdate.t)
| OfUnsubscribe (m : Unsubscribe.t)
| OfFetch (m : Fetch.t).

(** An entry of [pubTracks_].  The stream writer a fetch publisher holds
    in [streamPublisher_] is shared with the application; the session only
    tests that pointer for null. *)
Inductive PublisherImpl : Type :=
| Track (tp : TrackPublisherImpl.t)
| Fetch (fp : Publisher.FetchPublisherImpl).

Definition setSubPriority (priority : Z) (p : PublisherImpl) : PublisherImpl :=
  match p with
  | Track tp =>
      Track (TrackPublisherImpl.mk (TrackPublisherImpl.subscribeID_ tp)
               (TrackPublisherImpl.trackAlias_ tp) priority
               (TrackPublisherImpl.groupOrder_ tp))
  | Fetch fp =>
      Fetch (Publisher.mk (Publisher.subscribeID_ fp) priority
               (Publisher.groupOrder_ fp) (Publisher.streamPublisher_ fp)
               (Publisher.priority_ fp))
  end.

(** Methods of the receive states.  The values handed to the promise and
    to the consumer callback go to the application and are not kept; what
    stays is whether the promise is fulfilled and whether the callback is
    still held. *)
Definition SubscribeTrackReceiveState_subscribeOK
    (st : SubscribeTrackReceiveState.t) : SubscribeTrackReceiveState.t :=
  SubscribeTrackReceiveState.mk (SubscribeTrackReceiveState.fullTrackName_ st)
    (SubscribeTrackReceiveState.subscribeID_ st)
    (SubscribeTrackReceiveState.callback_ st) true.

Definition SubscribeTrackReceiveState_subscribeError
    (st : SubscribeTrackReceiveState.t) : SubscribeTrackReceiveState.t :=
  if negb (SubscribeTrackReceiveState.promiseFulfilled_ st)
  then SubscribeTrackReceiveState_subscribeOK st
  else st.

Definition SubscribeTrackReceiveState_cancel
    (st : SubscribeTrackReceiveState.t) : SubscribeTrackReceiveState.t :=
  SubscribeTrackReceiveState.mk (SubscribeTrackReceiveState.fullTrackName_ st)
    (SubscribeTrackReceiveState.subscribeID_ st) false
    (SubscribeTrackReceiveState.promiseFulfilled_ st).

Definition FetchTrackReceiveState_fetchOK
    (st : FetchTrackReceiveState.t) : FetchTrackReceiveState.t :=
  FetchTrackReceiveState.mk (FetchTrackReceiveState.fullTrackName_ st)
    (FetchTrackReceiveState.subscribeID_ st)
    (FetchTrackReceiveState.callback_ st) true.

Definition FetchTrackReceiveState_resetCallback
    (st : FetchTrackReceiveState.t) : FetchTrackReceiveState.t :=
  FetchTrackReceiveState.mk (FetchTrackReceiveState.fullTrackName_ st)
    (FetchTrackReceiveState.subscribeID_ st) false
    (FetchTrackReceiveState.promiseFulfilled_ st).

Definition fetchOkAndAllDataReceived (st : FetchTrackReceiveState.t) : bool :=
  FetchTrackReceiveState.promiseFulfilled_ st
  && negb (FetchTrackReceiveState.callback_ st).

(** The fields of [MoQSession] that the handlers below read or write.
    [wt_] is [false] for the null pointer; [closeSessionCalls_] lists the
    codes passed to the transport's [closeSession]; [controlWriteEvent_]
    is [true] once signalled. *)
Record MoQSession : Type := mk {
  dir_ : Direction;
  wt_ : bool;
  setupComplete_ : bool;
  setupPromise_ : PromiseState;
  draining_ : bool;
  cancellationRequested_ : bool;
  nextSubscribeID_ : Z;
  peerMaxSubscribeID_ : Z;
  maxSubscribeID_ : Z;
  maxConcurrentSubscribes_ : Z;
  closedSubscribes_ : Z;
  pubTracks_ : gmap Z PublisherImpl;
  subTracks_ : gmap Z SubscribeTrackReceiveState.t;
  subIdToTrackAlias_ : gmap Z Z;
  fetches_ : gmap Z FetchTrackReceiveState.t;
  controlWriteBuf_ : list ControlFrame;
  controlWriteEvent_ : bool;
  controlMessages_ : list MoQMessage;
  closeSessionCalls_ : list SessionCloseErrorCode.t
}.

Definition set_dir (v : Direction) (s : MoQSession) : MoQSession :=
  mk v (wt_ s) (setupComplete_ s) (setupPromise_ s) (draining_ s)
     (cancellationRequested_ s) (nextSubscribeID_ s) (peerMaxSubscribeID_ s)
     (maxSubscribeID_ s) (maxConcurrentSubscribes_ s) (closedSubscribes_ s)
     (pubTracks_ s) (subTracks_ s) (subIdToTrackAlias_ s) (fetches_ s)
     (controlWriteBuf_ s) (controlWriteEvent_ s) (controlMessages_ s)
     (closeSessionCalls_ s).
Definition set_wt (v : bool) (s : MoQSession) : MoQSession :=
  mk (dir_ s) v (setupComplete_ s) (setupPromise_ s) (draining_ s)
     (cancellationRequested_ s) (nextSubscribeID_ s) (peerMaxSubscribeID_ s)
     (maxSubscribeID_ s) (maxConcurrentSubscribes_ s) (closedSubscribes_ s)
     (pubTracks_ s) (subTracks_ s) (subIdToTrackAlias_ s) (fetches_ s)
     (controlWriteBuf_ s) (controlWriteEvent_ s) (controlMessages_ s)
     (closeSessionCalls_ s).
Definition set_setupComplete (v : bool) (s : MoQSession) : MoQSession :=
  mk (dir_ s) (wt_ s) v (setupPromise_ s) (draining_ s)
     (cancellationRequested_ s) (nextSubscribeID_ s) (peerMaxSubscribeID_ s)
     (maxSubscribeID_ s) (maxConcurrentSubscribes_ s) (closedSubscribes_ s)
     (pubTracks_ s) (subTracks_ s) (subIdToTrackAlias_ s) (fetches_ s)
     (controlWriteBuf_ s) (controlWriteEvent_ s) (controlMessages_ s)
     (closeSessionCalls_ s).
Definition set_setupPromise (v : PromiseState) (s : MoQSession) : MoQSession :=
  mk (dir_ s) (wt_ s) (setupComplete_ s) v (draining_ s)
     (cancellationRequested_ s) (nextSubscribeID_ s) (peerMaxSubscribeID_ s)
     (maxSubscribeID_ s) (maxConcurrentSubscribes_ s) (closedSubscribes_ s)
     (pubTracks_ s) (subTracks_ s) (subIdToTrackAlias_ s) (fetches_ s)
     (controlWriteBuf_ s) (controlWriteEvent_ s) (controlMessages_ s)
     (closeSessionCalls_ s).
Definition set_draining (v : bool) (s : MoQSession) : MoQSession :=
  mk (dir_ s) (wt_ s) (setupComplete_ s) (setupPromise_ s) v
     (cancellationRequested_ s) (nextSubscribeID_ s) (peerMaxSubscribeID_ s)
     (maxSubscribeID_ s) (maxConcurrentSubscribes_ s) (closedSubscribes_ s)
     (pubTracks_ s) (subTracks_ s) (subIdToTrackAlias_ s) (fetches_ s)
     (controlWriteBuf_ s) (controlWriteEvent_ s) (controlMessages_ s)
     (closeSessionCalls_ s).
Definition set_cancellationRequested (v : bool) (s : MoQSession) : MoQSession :=
  mk (dir_ s) (wt_ s) (setupComplete_ s) (setupPromise_ s) (draining_ s) v
     (nextSubscribeID_ s) (peerMaxSubscribeID_ s) (maxSubscribeID_ s)
     (maxConcurrentSubscribes_ s) (closedSubscribes_ s) (pubTracks_ s)
     (subTracks_ s) (subIdToTrackAlias_ s) (fetches_ s) (controlWriteBuf_ s)
     (controlWriteEvent_ s) (controlMessages_ s) (closeSessionCalls_ s).
Definition set_nextSubscribeID (v : Z) (s : MoQSession) : MoQSession :=
  mk (dir_ s) (wt_ s) (setupComplete_ s) (setupPromise_ s) (draining_ s)
     (cancellationRequested_ s) v (peerMaxSubscribeID_ s) (maxSubscribeID_ s)
     (maxConcurrentSubscribes_ s) (closedSubscribes_ s) (pubTracks_ s)
     (subTracks_ s) (subIdToTrackAlias_ s) (fetches_ s) (controlWriteBuf_ s)
     (controlWriteEvent_ s) (controlMessages_ s) (closeSessionCalls_ s).
Definition set_peerMaxSubscribeID (v : Z) (s : MoQSession) : MoQSession :=
  mk (dir_ s) (wt_ s) (setupComplete_ s) (setupPromise_ s) (draining_ s)
     (cancellationRequested_ s) (nextSubscribeID_ s) v (maxSubscribeID_ s)
     (maxConcurrentSubscribes_ s) (closedSubscribes_ s) (pubTracks_ s)
     (subTracks_ s) (subIdToTrackAlias_ s) (fetches_ s) (controlWriteBuf_ s)
     (controlWriteEvent_ s) (controlMessages_ s) (closeSessionCalls_ s).
Definition set_maxSubscribeID (v : Z) (s : MoQSession) : MoQSession :=
  mk (dir_ s) (wt_ s) (setupComplete_ s) (setupPromise_ s) (draining_ s)
     (cancellationRequested_ s) (nextSubscribeID_ s) (peerMaxSubscribeID_ s) v
     (maxConcurrentSubscribes_ s) (closedSubscribes_ s) (pubTracks_ s)
     (subTracks_ s) (subIdToTrackAlias_ s) (fetches_ s) (controlWriteBuf_ s)
     (controlWriteEvent_ s) (controlMessages_ s) (closeSessionCalls_ s).
Definition set_maxConcurrentSubscribes (v : Z) (s : MoQSession) : MoQSession :=
  mk (dir_ s) (wt_ s) (setupComplete_ s) (setupPromise_ s) (draining_ s)
     (cancellationRequested_ s) (nextSubscribeID_ s) (peerMaxSubscribeID_ s)
     (maxSubscribeID_ s) v (closedSubscribes_ s) (pubTracks_ s) (subTracks_ s)
     (subIdToTrackAlias_ s) (fetches_ s) (controlWriteBuf_ s)
     (controlWriteEvent_ s) (controlMessages_ s) (closeSessionCalls_ s).
Definition set_closedSubscribes (v : Z) (s : MoQSession) : MoQSession :=
  mk (dir_ s) (wt_ s) (setupComplete_ s) (setupPromise_ s) (draining_ s)
     (cancellationRequested_ s) (nextSubscribeID_ s) (peerMaxSubscribeID_ s)
     (maxSubscribeID_ s) (maxConcurrentSubscribes_ s) v (pubTracks_ s)
     (subTracks_ s) (subIdToTrackAlias_ s) (fetches_ s) (controlWriteBuf_ s)
     (controlWriteEvent_ s) (controlMessages_ s) (closeSessionCalls_ s).
Definition set_pubTracks (v : gmap Z PublisherImpl) (s : MoQSession) : MoQSession :=
  mk (dir_ s) (wt_ s) (setupComplete_ s) (setupPromise_ s) (draining_ s)
     (cancellationRequested_ s) (nextSubscribeID_ s) (peerMaxSubscribeID_ s)
     (maxSubscribeID_ s) (maxConcurrentSubscribes_ s) (closedSubscribes_ s) v
     (subTracks_ s) (subIdToTrackAlias_ s) (fetches_ s) (controlWriteBuf_ s)
     (controlWriteEvent_ s) (controlMessages_ s) (closeSessionCalls_ s).
Definition set_subTracks (v : gmap Z SubscribeTrackReceiveState.t) (s : MoQSession) : MoQSession :=
  mk (dir_ s) (wt_ s) (setupComplete_ s) (setupPromise_ s) (draining_ s)
     (cancellationRequested_ s) (nextSubscribeID_ s) (peerMaxSubscribeID_ s)
     (maxSubscribeID_ s) (maxConcurrentSubscribes_ s) (closedSubscribes_ s)
     (pubTracks_ s) v (subIdToTrackAlias_ s) (fetches_ s) (controlWriteBuf_ s)
     (controlWriteEvent_ s) (controlMessages_ s) (closeSessionCalls_ s).
Definition set_subIdToTrackAlias (v : gmap Z Z) (s : MoQSession) : MoQSession :=
  mk (dir_ s) (wt_ s) (setupComplete_ s) (setupPromise_ s) (draining_ s)
     (cancellationRequested_ s) (nextSubscribeID_ s) (peerMaxSubscribeID_ s)
     (maxSubscribeID_ s) (maxConcurrentSubscribes_ s) (closedSubscribes_ s)
     (pubTracks_ s) (subTracks_ s) v (fetches_ s) (controlWriteBuf_ s)
     (controlWriteEvent_ s) (controlMessages_ s) (closeSessionCalls_ s).
Definition set_fetches (v : gmap Z FetchTrackReceiveState.t) (s : MoQSession) : MoQSession :=
  mk (dir_ s) (wt_ s) (setupComplete_ s) (setupPromise_ s) (draining_ s)
     (cancellationRequested_ s) (nextSubscribeID_ s) (peerMaxSubscribeID_ s)
     (maxSubscribeID_ s) (maxConcurrentSubscribes_ s) (closedSubscribes_ s)
     (pubTracks_ s) (subTracks_ s) (subIdToTrackAlias_ s) v
     (controlWriteBuf_ s) (controlWriteEvent_ s) (controlMessages_ s)
     (closeSessionCalls_ s).
Definition set_controlWriteBuf (v : list ControlFrame) (s : MoQSession) : MoQSession :=
  mk (dir_ s) (wt_ s) (setupComplete_ s) (setupPromise_ s) (draining_ s)
     (cancellationRequested_ s) (nextSubscribeID_ s) (peerMaxSubscribeID_ s)
     (maxSubscribeID_ s) (maxConcurrentSubscribes_ s) (closedSubscribes_ s)
     (pubTracks_ s) (subTracks_ s) (subIdToTrackAlias_ s) (fetches_ s) v
     (controlWriteEvent_ s) (controlMessages_ s) (closeSessionCalls_ s).
Definition set_controlWriteEvent (v : bool) (s : MoQSession) : MoQSession :=
  mk (dir_ s) (wt_ s) (setupComplete_ s) (setupPromise_ s) (draining_ s)
     (cancellationRequested_ s) (nextSubscribeID_ s) (peerMaxSubscribeID_ s)
     (maxSubscribeID_ s) (maxConcurrentSubscribes_ s) (closedSubscribes_ s)
     (pubTracks_ s) (subTracks_ s) (subIdToTrackAlias_ s) (fetches_ s)
     (controlWriteBuf_ s) v (controlMessages_ s) (closeSessionCalls_ s).
Definition set_controlMessages (v : list MoQMessage) (s : MoQSession) : MoQSession :=
  mk (dir_ s) (wt_ s) (setupComplete_ s) (setupPromise_ s) (draining_ s)
     (cancellationRequested_ s) (nextSubscribeID_ s) (peerMaxSubscribeID_ s)
     (maxSubscribeID_ s) (maxConcurrentSubscribes_ s) (closedSubscribes_ s)
     (pubTracks_ s) (subTracks_ s) (subIdToTrackAlias_ s) (fetches_ s)
     (controlWriteBuf_ s) (controlWriteEvent_ s) v (closeSessionCalls_ s).
Definition set_closeSessionCalls (v : list SessionCloseErrorCode.t) (s : MoQSession) : MoQSession :=
  mk (dir_ s) (wt_ s) (setupComplete_ s) (setupPromise_ s) (draining_ s)
     (cancellationRequested_ s) (nextSubscribeID_ s) (peerMaxSubscribeID_ s)
     (maxSubscribeID_ s) (maxConcurrentSubscribes_ s) (closedSubscribes_ s)
     (pubTracks_ s) (subTracks_ s) (subIdToTrackAlias_ s) (fetches_ s)
     (controlWriteBuf_ s) (controlWriteEvent_ s) (controlMessages_ s) v.

(** [uint64_t getMaxSubscribeIdIfPresent(params)], with the numeric value
    of [SetupKey::MAX_SUBSCRIBE_ID] as a parameter. *)
Fixpoint getMaxSubscribeIdIfPresent (MAX_SUBSCRIBE_ID : Z)
    (params : list SetupParameter.t) : Z :=
  match params with
  | [] => 0
  | param :: rest =>
      if SetupParameter.key param =? MAX_SUBSCRIBE_ID
      then SetupParameter.asUint64 param
      else getMaxSubscribeIdIfPresent MAX_SUBSCRIBE_ID rest
  end.

Section WithCodec.

(** The codec's write functions are outside these sources: [write buf f]
    tells whether framing [f] after the contents [buf] of the control
    buffer has a value; a failed write leaves the buffer as it was. *)
Variable write : list ControlFrame -> ControlFrame -> bool.

(** Constants declared outside these sources: the protocol version, the
    key of the MAX_SUBSCRIBE_ID setup parameter, two fetch error codes, and
    the order on locations used by [fetch.end < fetch.start]. *)
Variable kVersionDraftCurrent : Z.
Variable MAX_SUBSCRIBE_ID : Z.
Variable INVALID_RANGE : Z.
Variable FETCH_INTERNAL_ERROR : Z.
Variable locationLess : AbsoluteLocation -> AbsoluteLocation -> bool.

Definition writeFrame (f : ControlFrame) (s : MoQSession) : MoQSession * bool :=
  if write (controlWriteBuf_ s) f
  then (set_controlWriteBuf (controlWriteBuf_ s ++ [f]) s, true)
  else (s, false).

Definition signal (s : MoQSession) : MoQSession := set_controlWriteEvent true s.

Definition sendMaxSubscribeID (signalWriteLoop : bool) (s : MoQSession)
  : MoQSession :=
  let '(s1, res) :=
    writeFrame (MaxSubscribeIdFrame (MaxSubscribeId.mk (maxSubscribeID_ s))) s in
  if negb res then s1
  else if signalWriteLoop then signal s1 else s1.

Definition retireSubscribeId (signalWriteLoop : bool) (s : MoQSession)
  : MoQSession :=
  let s1 := set_closedSubscribes (uint64 (closedSubscribes_ s + 1)) s in
  if maxConcurrentSubscribes_ s1 / 2 <=? closedSubscribes_ s1 then
    let s2 := set_maxSubscribeID
                (uint64 (maxSubscribeID_ s1 + closedSubscribes_ s1)) s1 in
    let s3 := set_closedSubscribes 0 s2 in
    sendMaxSubscribeID signalWriteLoop s3
  else s1.

Definition fetchComplete (subscribeID : Z) (s : MoQSession) : MoQSession :=
  match pubTracks_ s !! subscribeID with
  | None => s
  | Some _ =>
      retireSubscribeId true
        (set_pubTracks (delete subscribeID (pubTracks_ s)) s)
  end.

(** [publisher->reset(error)] as the session sees it: a track publisher
    does nothing; a fetch publisher with a stream resets its writer, whose
    [onStreamComplete] comes back as [fetchComplete]. *)
Definition resetPublisher (error : ResetStreamErrorCode.t) (p : PublisherImpl)
    (s : MoQSession) : MoQSession :=
  match p with
  | Track _ => s
  | Fetch fp =>
      if hasValue (Publisher.streamPublisher_ fp)
      then fetchComplete (Publisher.subscribeID_ fp) s
      else s
  end.

(** [cleanup()]: every publisher is reset and the publisher map cleared;
    every receive state is failed with "session closed" (which reaches the
    application only) and the receive maps cleared; cancellation is
    requested.  The maps of pending announces are not among the fields kept
    here. *)
Definition cleanup (s : MoQSession) : MoQSession :=
  let s1 :=
    fold_left
      (fun acc entry => resetPublisher ResetStreamErrorCode.SESSION_CLOSED
                          (snd entry) acc)
      (map_to_list (pubTracks_ s)) s in
  let s2 := set_pubTracks ∅ s1 in
  let s3 := set_subTracks ∅ s2 in
  let s4 := set_fetches ∅ s3 in
  set_cancellationRequested true s4.

Definition close (error : SessionCloseErrorCode.t) (s : MoQSession)
  : MoQSession :=
  if wt_ s then
    let s1 := cleanup (set_wt false s) in
    let s2 := set_closeSessionCalls (closeSessionCalls_ s1 ++ [error]) s1 in
    set_cancellationRequested true s2
  else s.

Definition checkForCloseOnDrain (s : MoQSession) : MoQSession :=
  if draining_ s
     && bool_decide (fetches_ s = ∅) && bool_decide (subTracks_ s = ∅)
  then close SessionCloseErrorCode.NO_ERROR s
  else s.

Definition drain (s : MoQSession) : MoQSession :=
  checkForCloseOnDrain (set_draining true s).

Definition closeSessionIfSubscribeIdInvalid (subscribeID : Z) (s : MoQSession)
  : MoQSession * bool :=
  if maxSubscribeID_ s <=? subscribeID
  then (close SessionCloseErrorCode.TOO_MANY_SUBSCRIBES s, true)
  else (s, false).

(** *** Replies of the local application *)

Definition subscribeError (subErr : SubscribeError.t) (s : MoQSession)
  : MoQSession :=
  match pubTracks_ s !! SubscribeError.subscribeID subErr with
  | None => s
  | Some _ =>
      let s1 := set_pubTracks
                  (delete (SubscribeError.subscribeID subErr) (pubTracks_ s)) s in
      let '(s2, res) := writeFrame (SubscribeErrorFrame subErr) s1 in
      let s3 := retireSubscribeId false s2 in
      if negb res then s3 else signal s3
  end.

Definition subscribeDone (subDone : SubscribeDone.t) (s : MoQSession)
  : MoQSession :=
  match pubTracks_ s !! SubscribeDone.subscribeID subDone with
  | None => s
  | Some _ =>
      let s1 := set_pubTracks
                  (delete (SubscribeDone.subscribeID subDone) (pubTracks_ s)) s in
      let '(s2, res) := writeFrame (SubscribeDoneFrame subDone) s1 in
      if negb res then s2
      else signal (retireSubscribeId false s2)
  end.

Definition fetchError (fetchErr : FetchError.t) (s : MoQSession) : MoQSession :=
  let s1 := set_pubTracks
              (delete (FetchError.subscribeID fetchErr) (pubTracks_ s)) s in
  let '(s2, res) := writeFrame (FetchErrorFrame fetchErr) s1 in
  if negb res then s2 else signal s2.

Definition subscribeOk (subOk : SubscribeOk.t) (s : MoQSession) : MoQSession :=
  match pubTracks_ s !! SubscribeOk.subscribeID subOk with
  | None => s
  | Some (Fetch _) =>
      subscribeError
        (SubscribeError.mk (SubscribeOk.subscribeID subOk) FETCH_INTERNAL_ERROR
           "" None) s
  | Some (Track tp) =>
      let tp' := TrackPublisherImpl.mk (TrackPublisherImpl.subscribeID_ tp)
                   (TrackPublisherImpl.trackAlias_ tp)
                   (TrackPublisherImpl.subPriority_ tp)
                   (SubscribeOk.groupOrder subOk) in
      let s1 := set_pubTracks
                  (<[SubscribeOk.subscribeID subOk := Track tp']> (pubTracks_ s))
                  s in
      let '(s2, res) := writeFrame (SubscribeOkFrame subOk) s1 in
      if negb res then s2 else signal s2
  end.

(** [stream] is the transport's answer to [createUniStream()] inside
    [beginFetch]. *)
Definition fetchOk (fetchOk : FetchOk.t) (stream : option Z) (s : MoQSession)
  : MoQSession :=
  match pubTracks_ s !! FetchOk.subscribeID fetchOk with
  | None => s
  | Some (Track _) =>
      fetchError
        (FetchError.mk (FetchOk.subscribeID fetchOk) FETCH_INTERNAL_ERROR "") s
  | Some (Fetch fp) =>
      match Publisher.beginFetch (wt_ s) stream (FetchOk.groupOrder fetchOk) fp
      with
      | (_, Unexpected _) =>
          fetchError
            (FetchError.mk (FetchOk.subscribeID fetchOk) FETCH_INTERNAL_ERROR
               "") s
      | (fp', Value _) =>
          let s1 := set_pubTracks
                      (<[FetchOk.subscribeID fetchOk := Fetch fp']>
                         (pubTracks_ s)) s in
          let '(s2, res) := writeFrame (FetchOkFrame fetchOk) s1 in
          if negb res then s2 else signal s2
      end
  end.

(** *** Handlers of inbound control messages *)

Definition onSubscribe (subscribeRequest : SubscribeRequest.t) (s : MoQSession)
  : MoQSession :=
  let subscribeID := SubscribeRequest.subscribeID subscribeRequest in
  let '(s1, invalid) := closeSessionIfSubscribeIdInvalid subscribeID s in
  if invalid then s1
  else
    match pubTracks_ s1 !! subscribeID with
    | Some _ =>
        subscribeError (SubscribeError.mk subscribeID 400 "dup sub ID" None) s1
    | None =>
        let trackPublisher :=
          TrackPublisherImpl.mk subscribeID
            (SubscribeRequest.trackAlias subscribeRequest)
            (SubscribeRequest.priority subscribeRequest)
            (SubscribeRequest.groupOrder subscribeRequest) in
        let s2 := set_pubTracks
                    (<[subscribeID := Track trackPublisher]> (pubTracks_ s1))
                    s1 in
        set_controlMessages
          (controlMessages_ s2 ++ [OfSubscribeRequest subscribeRequest]) s2
    end.

Definition onSubscribeUpdate (subscribeUpdate : SubscribeUpdate.t)
    (s : MoQSession) : MoQSession :=
  let subscribeID := SubscribeUpdate.subscribeID subscribeUpdate in
  match pubTracks_ s !! subscribeID with
  | None => s
  | Some p =>
      let '(s1, invalid) := closeSessionIfSubscribeIdInvalid subscribeID s in
      if invalid then s1
      else
        let s2 :=
          set_pubTracks
            (<[subscribeID :=
                 setSubPriority (SubscribeUpdate.priority subscribeUpdate) p]>
               (pubTracks_ s1)) s1 in
        set_controlMessages
          (controlMessages_ s2 ++ [OfSubscribeUpdate subscribeUpdate]) s2
  end.

Definition onUnsubscribe (unsubscribe : Unsubscribe.t) (s : MoQSession)
  : MoQSession :=
  set_controlMessages (controlMessages_ s ++ [OfUnsubscribe unsubscribe]) s.

Definition onMaxSubscribeId (maxSubscribeId : MaxSubscribeId.t)
    (s : MoQSession) : MoQSession :=
  if peerMaxSubscribeID_ s <? MaxSubscribeId.subscribeID maxSubscribeId
  then set_peerMaxSubscribeID (MaxSubscribeId.subscribeID maxSubscribeId) s
  else close SessionCloseErrorCode.PROTOCOL_VIOLATION s.

Definition onFetch (fetch : Fetch.t) (s : MoQSession) : MoQSession :=
  let subscribeID := Fetch.subscribeID fetch in
  let '(s1, invalid) := closeSessionIfSubscribeIdInvalid subscribeID s in
  if invalid then s1
  else if locationLess (Fetch.end_ fetch) (Fetch.start fetch) then
    fetchError
      (FetchError.mk subscribeID INVALID_RANGE "End must be after start") s1
  else
    match pubTracks_ s1 !! subscribeID with
    | Some _ => fetchError (FetchError.mk subscribeID 400 "dup sub ID") s1
    | None =>
        let fetchPublisher :=
          Publisher.mk subscribeID (Fetch.priority fetch)
            (Fetch.groupOrder fetch) None None in
        let s2 := set_pubTracks
                    (<[subscribeID := Fetch fetchPublisher]> (pubTracks_ s1))
                    s1 in
        set_controlMessages (controlMessages_ s2 ++ [OfFetch fetch]) s2
    end.

Definition onFetchCancel (fetchCancel : FetchCancel.t) (s : MoQSession)
  : MoQSession :=
  match pubTracks_ s !! FetchCancel.subscribeID fetchCancel with
  | None => s
  | Some p =>
      retireSubscribeId true
        (resetPublisher ResetStreamErrorCode.CANCELLED p s)
  end.

(** *** Handlers of the peer's answers to local requests *)

Definition onSubscribeOk (subOk : SubscribeOk.t) (s : MoQSession) : MoQSession :=
  match subIdToTrackAlias_ s !! SubscribeOk.subscribeID subOk with
  | None => s
  | Some trackAlias =>
      match subTracks_ s !! trackAlias with
      | Some st =>
          set_subTracks
            (<[trackAlias := SubscribeTrackReceiveState_subscribeOK st]>
               (subTracks_ s)) s
      | None => s
      end
  end.

Definition onSubscribeError (subErr : SubscribeError.t) (s : MoQSession)
  : MoQSession :=
  match subIdToTrackAlias_ s !! SubscribeError.subscribeID subErr with
  | None => s
  | Some trackAlias =>
      match subTracks_ s !! trackAlias with
      | Some _ =>
          let s1 := set_subTracks (delete trackAlias (subTracks_ s)) s in
          let s2 := set_subIdToTrackAlias
                      (delete (SubscribeError.subscribeID subErr)
                         (subIdToTrackAlias_ s1)) s1 in
          checkForCloseOnDrain s2
      | None => s
      end
  end.

Definition onSubscribeDone (subscribeDone : SubscribeDone.t) (s : MoQSession)
  : MoQSession :=
  match subIdToTrackAlias_ s !! SubscribeDone.subscribeID subscribeDone with
  | None => s
  | Some trackAlias =>
      let s1 :=
        match subTracks_ s !! trackAlias with
        | Some _ => set_subTracks (delete trackAlias (subTracks_ s)) s
        | None => s
        end in
      let s2 := set_subIdToTrackAlias
                  (delete (SubscribeDone.subscribeID subscribeDone)
                     (subIdToTrackAlias_ s1)) s1 in
      checkForCloseOnDrain s2
  end.

Definition onFetchOk (fetchOk : FetchOk.t) (s : MoQSession) : MoQSession :=
  match fetches_ s !! FetchOk.subscribeID fetchOk with
  | None => s
  | Some st =>
      let st' := FetchTrackReceiveState_fetchOK st in
      if fetchOkAndAllDataReceived st' then
        checkForCloseOnDrain
          (set_fetches (delete (FetchOk.subscribeID fetchOk) (fetches_ s)) s)
      else
        set_fetches (<[FetchOk.subscribeID fetchOk := st']> (fetches_ s)) s
  end.

Definition onFetchError (fetchError : FetchError.t) (s : MoQSession)
  : MoQSession :=
  match fetches_ s !! FetchError.subscribeID fetchError with
  | None => s
  | Some _ =>
      checkForCloseOnDrain
        (set_fetches (delete (FetchError.subscribeID fetchError) (fetches_ s)) s)
  end.

(** *** Cancelling and updating local requests *)

Definition unsubscribe (unsubscribe : Unsubscribe.t) (s : MoQSession)
  : MoQSession :=
  match subIdToTrackAlias_ s !! Unsubscribe.subscribeID unsubscribe with
  | None => s
  | Some trackAlias =>
      match subTracks_ s !! trackAlias with
      | None => s
      | Some st =>
          let s1 := set_subTracks
                      (<[trackAlias := SubscribeTrackReceiveState_cancel st]>
                         (subTracks_ s)) s in
          let '(s2, res) := writeFrame (UnsubscribeFrame unsubscribe) s1 in
          if negb res then s2 else signal s2
      end
  end.

Definition fetchCancel (fetchCan : FetchCancel.t) (s : MoQSession)
  : MoQSession :=
  match fetches_ s !! FetchCancel.subscribeID fetchCan with
  | None => s
  | Some st =>
      let st' := FetchTrackReceiveState_resetCallback st in
      let s1 :=
        if fetchOkAndAllDataReceived st' then
          checkForCloseOnDrain
            (set_fetches
               (delete (FetchTrackReceiveState.subscribeID_ st') (fetches_ s)) s)
        else
          set_fetches (<[FetchCancel.subscribeID fetchCan := st']> (fetches_ s))
            s in
      let '(s2, res) := writeFrame (FetchCancelFrame fetchCan) s1 in
      if negb res then s2 else signal s2
  end.

Definition subscribeUpdate (subUpdate : SubscribeUpdate.t) (s : MoQSession)
  : MoQSession :=
  match subIdToTrackAlias_ s !! SubscribeUpdate.subscribeID subUpdate with
  | None => s
  | Some trackAlias =>
      match subTracks_ s !! trackAlias with
      | None => s
      | Some _ =>
          let '(s1, res) := writeFrame (SubscribeUpdateFrame subUpdate) s in
          if negb res then s1 else signal s1
      end
  end.

(** *** Outbound requests

    [subscribe] and [fetch] up to their first suspension point.  The result
    carries the SubscribeID allocated; [None] stands for a failed XCHECK. *)

Definition subscribe (sub : SubscribeRequest.t)
    (callback : bool) (s : MoQSession)
  : option (MoQSession * Expected Z SubscribeError.t) :=
  let subID := nextSubscribeID_ s in
  let s1 := set_nextSubscribeID (uint64 (nextSubscribeID_ s + 1)) s in
  let sub' := SubscribeRequest.mk subID subID
                (SubscribeRequest.fullTrackName sub)
                (SubscribeRequest.priority sub)
                (SubscribeRequest.groupOrder sub) in
  let trackAlias := subID in
  let '(s2, wres) := writeFrame (SubscribeRequestFrame sub') s1 in
  if negb wres then
    Some (s2, Unexpected (SubscribeError.mk subID 500 "local write failed" None))
  else
    let s3 := signal s2 in
    match subIdToTrackAlias_ s3 !! subID, subTracks_ s3 !! trackAlias with
    | None, None =>
        let s4 := set_subIdToTrackAlias
                    (<[subID := trackAlias]> (subIdToTrackAlias_ s3)) s3 in
        let trackReceiveState :=
          SubscribeTrackReceiveState.mk (SubscribeRequest.fullTrackName sub)
            subID callback false in
        Some (set_subTracks (<[trackAlias := trackReceiveState]> (subTracks_ s4))
                s4,
              Value subID)
    | _, _ => None
    end.

Definition fetch (fetch : Fetch.t) (fetchCallback : bool) (s : MoQSession)
  : option (MoQSession * Expected Z FetchError.t) :=
  let subID := nextSubscribeID_ s in
  let s1 := set_nextSubscribeID (uint64 (nextSubscribeID_ s + 1)) s in
  let fetch' := Fetch.mk subID (Fetch.fullTrackName fetch)
                  (Fetch.priority fetch) (Fetch.groupOrder fetch)
                  (Fetch.start fetch) (Fetch.end_ fetch) in
  let '(s2, wres) := writeFrame (FetchFrame fetch') s1 in
  if negb wres then
    Some (s2, Unexpected (FetchError.mk subID 500 "local write failed"))
  else
    let s3 := signal s2 in
    match fetches_ s3 !! subID with
    | None =>
        let trackReceiveState :=
          FetchTrackReceiveState.mk (Fetch.fullTrackName fetch) subID
            fetchCallback false in
        Some (set_fetches (<[subID := trackReceiveState]> (fetches_ s3)) s3,
              Value subID)
    | Some _ => None
    end.

(** *** Setup

    [setup] is the client's coroutine up to its first suspension point;
    [serverSetup] in [onClientSetup] is the answer of the application's
    [ServerSetupCallback].  [None] stands for a failed XCHECK on [dir_]. *)

Definition setup (setup : ClientSetup.t) (s : MoQSession)
  : option (MoQSession * bool) :=
  match dir_ s with
  | SERVER => None
  | CLIENT =>
      let s0 := set_setupPromise Pending s in
      let maxSubscribeId :=
        getMaxSubscribeIdIfPresent MAX_SUBSCRIBE_ID (ClientSetup.params setup) in
      let '(s1, res) := writeFrame (ClientSetupFrame setup) s0 in
      if negb res then Some (s1, false)
      else
        let s2 := set_maxConcurrentSubscribes maxSubscribeId s1 in
        let s3 := set_maxSubscribeID maxSubscribeId s2 in
        Some (signal s3, true)
  end.

Definition onServerSetup (serverSetup : ServerSetup.t) (s : MoQSession)
  : option MoQSession :=
  match dir_ s with
  | SERVER => None
  | CLIENT =>
      if negb (ServerSetup.selectedVersion serverSetup =? kVersionDraftCurrent)
      then
        Some (set_setupPromise HasException
                (close SessionCloseErrorCode.PROTOCOL_VIOLATION s))
      else
        let s1 := set_peerMaxSubscribeID
                    (getMaxSubscribeIdIfPresent MAX_SUBSCRIBE_ID
                       (ServerSetup.params serverSetup)) s in
        Some (set_setupPromise HasValue s1)
  end.

Definition onClientSetup (clientSetup : ClientSetup.t)
    (serverSetup : option ServerSetup.t) (s : MoQSession)
  : option MoQSession :=
  match dir_ s with
  | CLIENT => None
  | SERVER =>
      if negb (existsb (fun v => v =? kVersionDraftCurrent)
                 (ClientSetup.supportedVersions clientSetup))
      then Some (close SessionCloseErrorCode.PROTOCOL_VIOLATION s)
      else
        let s1 := set_peerMaxSubscribeID
                    (getMaxSubscribeIdIfPresent MAX_SUBSCRIBE_ID
                       (ClientSetup.params clientSetup)) s in
        match serverSetup with
        | None => Some (close SessionCloseErrorCode.INTERNAL_ERROR s1)
        | Some serverSetup =>
            let maxSubscribeId :=
              getMaxSubscribeIdIfPresent MAX_SUBSCRIBE_ID
                (ServerSetup.params serverSetup) in
            let '(s2, res) := writeFrame (ServerSetupFrame serverSetup) s1 in
            if negb res then Some s2
            else
              let s3 := set_maxConcurrentSubscribes maxSubscribeId s2 in
              let s4 := set_maxSubscribeID maxSubscribeId s3 in
              let s5 := set_setupComplete true s4 in
              let s6 := set_setupPromise HasValue s5 in
              Some (signal s6)
        end
  end.

(** *** The subscribe and fetch events of an established session

    Inbound control messages, calls of the application, and the end of a
    fetch stream.  ANNOUNCE and its relatives, which touch none of the
    fields kept here, are left out. *)

Inductive Event : Type :=
| OnSubscribe (m : SubscribeRequest.t)
| OnSubscribeUpdate (m : SubscribeUpdate.t)
| OnUnsubscribe (m : Unsubscribe.t)
| OnMaxSubscribeId (m : MaxSubscribeId.t)
| OnFetch (m : Fetch.t)
| OnFetchCancel (m : FetchCancel.t)
| OnSubscribeOk (m : SubscribeOk.t)
| OnSubscribeError (m : SubscribeError.t)
| OnSubscribeDone (m : SubscribeDone.t)
| OnFetchOk (m : FetchOk.t)
| OnFetchError (m : FetchError.t)
| CallUnsubscribe (m : Unsubscribe.t)
| CallFetchCancel (m : FetchCancel.t)
| CallSubscribeUpdate (m : SubscribeUpdate.t)
| CallSubscribeOk (m : SubscribeOk.t)
| CallSubscribeError (m : SubscribeError.t)
| CallSubscribeDone (m : SubscribeDone.t)
| CallFetchOk (m : FetchOk.t) (stream : option Z)
| CallFetchError (m : FetchError.t)
| FetchStreamComplete (subscribeID : Z)
| CallSubscribe (m : SubscribeRequest.t) (callback : bool)
| CallFetch (m : Fetch.t) (fetchCallback : bool)
| CallDrain
| CallClose (error : SessionCloseErrorCode.t).

Definition handle (e : Event) (s : MoQSession) : option MoQSession :=
  match e with
  | OnSubscribe m => Some (onSubscribe m s)
  | OnSubscribeUpdate m => Some (onSubscribeUpdate m s)
  | OnUnsubscribe m => Some (onUnsubscribe m s)
  | OnMaxSubscribeId m => Some (onMaxSubscribeId m s)
  | OnFetch m => Some (onFetch m s)
  | OnFetchCancel m => Some (onFetchCancel m s)
  | OnSubscribeOk m => Some (onSubscribeOk m s)
  | OnSubscribeError m => Some (onSubscribeError m s)
  | OnSubscribeDone m => Some (onSubscribeDone m s)
  | OnFetchOk m => Some (onFetchOk m s)
  | OnFetchError m => Some (onFetchError m s)
  | CallUnsubscribe m => Some (unsubscribe m s)
  | CallFetchCancel m => Some (fetchCancel m s)
  | CallSubscribeUpdate m => Some (subscribeUpdate m s)
  | CallSubscribeOk m => Some (subscribeOk m s)
  | CallSubscribeError m => Some (subscribeError m s)
  | CallSubscribeDone m => Some (subscribeDone m s)
  | CallFetchOk m stream => Some (fetchOk m stream s)
  | CallFetchError m => Some (fetchError m s)
  | FetchStreamComplete i => Some (fetchComplete i s)
  | CallSubscribe m cb =>
      match subscribe m cb s with
      | Some (s', _) => Some s'
      | None => None
      end
  | CallFetch m cb =>
      match fetch m cb s with
      | Some (s', _) => Some s'
      | None => None
      end
  | CallDrain => Some (drain s)
  | CallClose error => Some (close error s)
  end.

Fixpoint handleAll (es : list Event) (s : MoQSession) : option MoQSession :=
  match es with
  | [] => Some s
  | e :: rest =>
      match handle e s with
      | Some s' => handleAll rest s'
      | None => None
      end
  end.

End WithCodec.

End Session.

(** ** The order the specification puts on fetch tuples

    These definitions follow the words of the specification, not the
    code: (group, subgroup, id) tuples compared first by group in the
    agreed group order, then by subgroup, then by object ID. *)

Module FetchOrderSpec.

Definition spec_group_before (o : GroupOrder) (g1 g2 : Z) : bool :=
  match o with
  | OldestFirst => g1 <? g2
  | NewestFirst => g2 <? g1
  end.

Definition spec_tuple_le (o : GroupOrder) (a b : Z * Z * Z) : bool :=
  let '(g1, s1, i1) := a in
  let '(g2, s2, i2) := b in
  spec_group_before o g1 g2
  || ((g1 =? g2) && ((s1 <? s2) || ((s1 =? s2) && (i1 <=? i2)))).

Fixpoint spec_non_decreasing (o : GroupOrder) (l : list (Z * Z * Z)) : bool :=
  match l with
  | a :: (b :: _) as rest => spec_tuple_le o a b && spec_non_decreasing o rest
  | _ => true
  end.

(** The same with the group alone. *)
Fixpoint spec_groups_in_order (o : GroupOrder) (l : list Z) : bool :=
  match l with
  | a :: (b :: _) as rest =>
      (spec_group_before o a b || (a =? b)) && spec_groups_in_order o rest
  | _ => true
  end.

End FetchOrderSpec.

(** ** Predicates and example values for the stream writer *)

Module WriterProps.
Import Writer.
Local Open Scope writer_scope.

(** [keeps w w']: the step from [w] to [w'] published nothing and left the
    group and object ID of [header_] alone. *)
Definition keeps (w w' : StreamPublisherImpl) : Prop :=
  published w' = published w /\
  ObjectHeader.id (header_ w') = ObjectHeader.id (header_ w) /\
  ObjectHeader.group (header_ w') = ObjectHeader.group (header_ w).

(** [wrote i w w']: the step published one object, with ID [i] and the
    group of [header_], after [validatePublish i] had let it through. *)
Definition wrote (i : Z) (w w' : StreamPublisherImpl) : Prop :=
  (ObjectHeader.id (header_ w) = UINT64_MAX \/ ObjectHeader.id (header_ w) < i) /\
  (exists h, published w' = published w ++ [h] /\
             ObjectHeader.id h = i /\
             ObjectHeader.group h = ObjectHeader.group (header_ w)) /\
  ObjectHeader.id (header_ w') = i /\
  ObjectHeader.group (header_ w') = ObjectHeader.group (header_ w).

(** The writer after [reset(error)]. *)
Definition afterReset (error : ResetStreamErrorCode.t)
    (w : StreamPublisherImpl) : StreamPublisherImpl :=
  let w1 :=
    match writeHandle_ w with
    | Some h => call (ResetStream h error) (set_writeHandle None w)
    | None => w
    end in
  call (OnStreamComplete (header_ w1)) w1.

(** The writer after it handed [writeBuf_] to the transport. *)
Definition afterWrite (h : Z) (fin : bool) (w : StreamPublisherImpl)
  : StreamPublisherImpl :=
  call (WriteStreamData h (writeBuf_ w) fin)
       (set_writeBuf [] (if fin then set_writeHandle None w else w)).

(** The header [writeCurrentObject] puts on the wire. *)
Definition objectHeader (i len : Z) (w : StreamPublisherImpl) : ObjectHeader.t :=
  header_set_length (Some len) (header_set_id i (header_ w)).

(** The IDs published so far increase strictly, and [header_.id] is the
    last of them unless nothing was published. *)
Definition idsIncrease (w : StreamPublisherImpl) : Prop :=
  StronglySorted Z.lt (map ObjectHeader.id (published w)) /\
  Forall (fun h => ObjectHeader.id h <= ObjectHeader.id (header_ w) /\
                   ObjectHeader.id (header_ w) <> UINT64_MAX)
         (published w).

(** Every object ID the operations carry is a proper ID, not the value the
    writer keeps in [header_.id] to say that nothing was written yet. *)
Definition belowSentinel (op : Op) : Prop :=
  forall i, opObjectID op = Some i -> i <> UINT64_MAX.

(** The call is made on a writer whose last object ID is not the initial
    sentinel and is not below the ID passed, or on a writer with an object
    in progress. *)
Definition stale (i : Z) (w : StreamPublisherImpl) : Prop :=
  (ObjectHeader.id (header_ w) <> UINT64_MAX /\
   i <= ObjectHeader.id (header_ w)) \/
  hasValue (currentLengthRemaining_ w) = true.

(** The method runs [reset(INTERNAL_ERROR)] and returns API_ERROR. *)
Definition refused {A} (m : M A) (w : StreamPublisherImpl) : Prop :=
  exists w' text,
    reset ResetStreamErrorCode.INTERNAL_ERROR w = Some (w', Value tt) /\
    m w = Some (w', Unexpected (MoQPublishError.mk MoQPublishError.API_ERROR text)).


Section WithTransport.
Variable T : list Call -> list Frame -> bool -> bool.


End WithTransport.


(** The groups published so far ascend, up to the group of [header_]. *)
Definition groupsAscend (w : StreamPublisherImpl) : Prop :=
  StronglySorted Z.le (map ObjectHeader.group (published w)) /\
  Forall (fun h => ObjectHeader.group h <= ObjectHeader.group (header_ w))
         (published w).

(** (group, id) pairs compared by group, then by object ID. *)
Definition pair_lt (a b : Z * Z) : Prop :=
  fst a < fst b \/ (fst a = fst b /\ snd a < snd b).

Definition groupAndId (h : ObjectHeader.t) : Z * Z :=
  (ObjectHeader.group h, ObjectHeader.id h).

(** The (group, id) pairs published so far increase strictly, and
    [header_] bounds them. *)
Definition pairsIncrease (w : StreamPublisherImpl) : Prop :=
  StronglySorted pair_lt (map groupAndId (published w)) /\
  Forall (fun h =>
            ObjectHeader.group h < ObjectHeader.group (header_ w) \/
            (ObjectHeader.group h = ObjectHeader.group (header_ w) /\
             ObjectHeader.id h <= ObjectHeader.id (header_ w) /\
             ObjectHeader.id (header_ w) <> UINT64_MAX))
         (published w).

(** The method leaves the writer as it is and returns API_ERROR,
    "Group moved back". *)
Definition movedBack {A} (m : M A) (w : StreamPublisherImpl) : Prop :=
  m w = Some (w, Unexpected (MoQPublishError.mk MoQPublishError.API_ERROR
                               "Group moved back")).

(** A transport that takes every write. *)
Definition alwaysAccepts : list Call -> list Frame -> bool -> bool :=
  fun _ _ _ => true.

Definition abc : Payload := Some [Byte.x61; Byte.x62; Byte.x63].

Definition runOn (ops : list Op) (w : StreamPublisherImpl)
  : StreamPublisherImpl :=
  match run alwaysAccepts ops w with
  | Some w' => w'
  | None => w
  end.

(** The subgroup writer of group 7, subgroup 0 on stream 4. *)
Definition subgroup7 : StreamPublisherImpl := newSubgroup 0 4 0 7 0.




(** A fetch publisher before [beginFetch]. *)
Definition fetchPublisher0 : Publisher.FetchPublisherImpl :=
  Publisher.mk 0 0 OldestFirst None None.

(** The writer [beginFetch(groupOrder)] creates on stream 4. *)
Definition fetchWriter (o : GroupOrder) : StreamPublisherImpl :=
  match Publisher.streamPublisher_
          (fst (Publisher.beginFetch true (Some 4) o fetchPublisher0)) with
  | Some w => w
  | None => newFetch 0 4
  end.

End WriterProps.

(** ** Predicates and example values for the session *)

Module SessionProps.
Import Session.

(** The three counters of the credit protocol. *)
Definition counters (s : MoQSession) : Z * Z * Z :=
  (maxSubscribeID_ s, maxConcurrentSubscribes_ s, closedSubscribes_ s).

(** [retireSubscribeId] on the counters alone. *)
Definition retireCounters (c : Z * Z * Z) : Z * Z * Z :=
  let '(maxSubscribeID, maxConcurrentSubscribes, closedSubscribes) := c in
  let closed := uint64 (closedSubscribes + 1) in
  if maxConcurrentSubscribes / 2 <=? closed
  then (uint64 (maxSubscribeID + closed), maxConcurrentSubscribes, 0)
  else (maxSubscribeID, maxConcurrentSubscribes, closed).

(** [quiet s s']: the step from [s] to [s'] closed nothing, queued nothing
    for the application and left the transport, the direction and the
    outbound allocation alone. *)
Definition quiet (s s' : MoQSession) : Prop :=
  wt_ s' = wt_ s /\
  closeSessionCalls_ s' = closeSessionCalls_ s /\
  controlMessages_ s' = controlMessages_ s /\
  nextSubscribeID_ s' = nextSubscribeID_ s /\
  peerMaxSubscribeID_ s' = peerMaxSubscribeID_ s.

(** Nothing authorised and no publisher state. *)
Definition noCredit (s : MoQSession) : Prop :=
  maxSubscribeID_ s = 0 /\ pubTracks_ s = ∅.

(** SubscribeIDs on the wire are unsigned. *)
Definition unsignedIDs (e : Event) : Prop :=
  match e with
  | OnSubscribe m => 0 <= SubscribeRequest.subscribeID m
  | OnFetch m => 0 <= Fetch.subscribeID m
  | _ => True
  end.

(** A codec that frames every message. *)
Definition alwaysWrites : list ControlFrame -> ControlFrame -> bool :=
  fun _ _ => true.

(** Values for the constants the sources leave to other files, used in the
    examples only. *)
Definition exampleVersion : Z := 7.

Definition exampleKey : Z := 2.

Definition exampleInvalidRange : Z := 1.

Definition exampleInternalError : Z := 0.

Definition exampleLess (a b : AbsoluteLocation) : bool :=
  (fst a <? fst b) || ((fst a =? fst b) && (snd a <? snd b)).

(** An established server session that authorised [maxSubscribeID]
    subscribe IDs and holds the publishers [pubTracks]. *)
Definition established (maxSubscribeID : Z) (pubTracks : gmap Z PublisherImpl)
  : MoQSession :=
  mk SERVER true true HasValue false false 0 0 maxSubscribeID maxSubscribeID 0
     pubTracks ∅ ∅ ∅ [] false [] [].

Definition trackName : FullTrackName := (["a"%string], "t"%string).

Definition subscribeRequest (i : Z) : SubscribeRequest.t :=
  SubscribeRequest.mk i i trackName 0 OldestFirst.

Definition fetchRequest (i : Z) (start end_ : AbsoluteLocation) : Fetch.t :=
  Fetch.mk i trackName 0 OldestFirst start end_.

Definition trackPublisher (i : Z) : PublisherImpl :=
  Track (TrackPublisherImpl.mk i i 0 OldestFirst).

(** Scenario S4: five terminations, by SUBSCRIBE_DONE and SUBSCRIBE_ERROR
    in turn, of the subscriptions 0 to 4. *)
Definition fivePublishers : gmap Z PublisherImpl :=
  list_to_map [(0, trackPublisher 0); (1, trackPublisher 1);
               (2, trackPublisher 2); (3, trackPublisher 3);
               (4, trackPublisher 4)].

Definition fiveTerminations : list Event :=
  [CallSubscribeDone (SubscribeDone.mk 0 0 "" None);
   CallSubscribeError (SubscribeError.mk 1 500 "" None);
   CallSubscribeDone (SubscribeDone.mk 2 0 "" None);
   CallSubscribeError (SubscribeError.mk 3 500 "" None);
   CallSubscribeDone (SubscribeDone.mk 4 0 "" None)].

(** A client that has not yet sent CLIENT_SETUP. *)
Definition newClient : MoQSession :=
  mk CLIENT true false Pending false false 0 0 0 0 0 ∅ ∅ ∅ ∅ [] false [] [].

Definition newServer : MoQSession :=
  mk SERVER true false Pending false false 0 0 0 0 0 ∅ ∅ ∅ ∅ [] false [] [].

(** A client whose CLIENT_SETUP advertised MAX_SUBSCRIBE_ID 7, and a
    server whose SERVER_SETUP did. *)
Definition clientAdvertising7 : MoQSession :=
  match setup alwaysWrites exampleKey
          (ClientSetup.mk [exampleVersion] [SetupParameter.mk exampleKey "" 7])
          newClient with
  | Some (s, _) => s
  | None => newClient
  end.

Definition serverAdvertising7 : MoQSession :=
  match onClientSetup alwaysWrites exampleVersion exampleKey
          (ClientSetup.mk [exampleVersion] [])
          (Some (ServerSetup.mk exampleVersion
                   [SetupParameter.mk exampleKey "" 7]))
          newServer with
  | Some s => s
  | None => newServer
  end.

(** A client sends CLIENT_SETUP without parameters, the peer raises its
    own MAX_SUBSCRIBE_ID and the application subscribes; an inbound
    SUBSCRIBE with ID 0 then closes the session. *)
Definition afterSetup : MoQSession :=
  match setup alwaysWrites exampleKey
          (ClientSetup.mk [exampleVersion] []) newClient with
  | Some (s, _) => s
  | None => newClient
  end.

Definition laterOn : MoQSession :=
  match handleAll alwaysWrites exampleInvalidRange exampleInternalError
          exampleLess
          [OnMaxSubscribeId (MaxSubscribeId.mk 5);
           CallSubscribe (subscribeRequest 0) true;
           CallFetchError (FetchError.mk 3 404 "")] afterSetup with
  | Some s => s
  | None => afterSetup
  end.

End SessionProps.

(** ** The reader of an object stream, [ObjectStreamCallback] *)

Module ObjectStreamCallback.

(** What the reader does to the outside: calls on the track consumer, on
    the subgroup or fetch consumer (named as the operations of the
    consumer interfaces), and on the session. *)
Inductive Call : Type :=
| TrackBeginSubgroup (group subgroup priority : Z)
| TrackGroupNotExists (group subgroup priority : Z)
| Consume (op : Writer.Op)
| EraseFetch
| CloseSession (error : SessionCloseErrorCode.t).

(** The fields of the reader.  [subscribeState_] and [fetchState_] tell
    whether the pointer is set; the receive state they point to is shared
    with the session, and what the reader reads of it is kept here:
    [trackCallback_] and [fetchCallback_] tell whether its [callback_] is
    set, [promiseFulfilled_] whether its promise is.  [calls_] is the
    trace of [Call]s. *)
Record t : Type := mk {
  subscribeState_ : bool;
  trackCallback_ : bool;
  subgroupCallback_ : bool;
  fetchState_ : bool;
  fetchCallback_ : bool;
  promiseFulfilled_ : bool;
  error_ : option MoQPublishError.t;
  calls_ : list Call
}.

Definition new : t := mk false false false false false false None [].

Definition call (c : Call) (r : t) : t :=
  mk (subscribeState_ r) (trackCallback_ r) (subgroupCallback_ r)
     (fetchState_ r) (fetchCallback_ r) (promiseFulfilled_ r) (error_ r)
     (calls_ r ++ [c]).
Definition set_error (e : MoQPublishError.t) (r : t) : t :=
  mk (subscribeState_ r) (trackCallback_ r) (subgroupCallback_ r)
     (fetchState_ r) (fetchCallback_ r) (promiseFulfilled_ r) (Some e)
     (calls_ r).
Definition set_subgroupCallback (v : bool) (r : t) : t :=
  mk (subscribeState_ r) (trackCallback_ r) v (fetchState_ r)
     (fetchCallback_ r) (promiseFulfilled_ r) (error_ r) (calls_ r).
Definition set_trackCallback (v : bool) (r : t) : t :=
  mk (subscribeState_ r) v (subgroupCallback_ r) (fetchState_ r)
     (fetchCallback_ r) (promiseFulfilled_ r) (error_ r) (calls_ r).
Definition set_fetchCallback (v : bool) (r : t) : t :=
  mk (subscribeState_ r) (trackCallback_ r) (subgroupCallback_ r)
     (fetchState_ r) v (promiseFulfilled_ r) (error_ r) (calls_ r).
Definition set_promiseFulfilled (v : bool) (r : t) : t :=
  mk (subscribeState_ r) (trackCallback_ r) (subgroupCallback_ r)
     (fetchState_ r) (fetchCallback_ r) v (error_ r) (calls_ r).

(** [if (!res) error_ = res.error()] *)
Definition noteError {A} (res : Expected A MoQPublishError.t) (r : t) : t :=
  match res with
  | Value _ => r
  | Unexpected e => set_error e r
  end.

Definition isCancelled (r : t) : bool :=
  if fetchState_ r then negb (fetchCallback_ r)
  else if subscribeState_ r
       then negb (subgroupCallback_ r) || negb (trackCallback_ r)
       else true.

(** [FetchTrackReceiveState::resetFetchCallback(session)] *)
Definition resetFetchCallback (r : t) : t :=
  let r1 := set_fetchCallback false r in
  if promiseFulfilled_ r1 && negb (fetchCallback_ r1)
  then call EraseFetch r1
  else r1.

Definition endOfSubgroup (deliverCallback : bool) (r : t) : t :=
  let r1 :=
    if deliverCallback && negb (isCancelled r) then
      if fetchState_ r then call (Consume Writer.EndOfFetch) r
      else call (Consume Writer.EndOfSubgroup) r
    else r in
  if fetchState_ r1 then resetFetchCallback r1
  else set_subgroupCallback false r1.

(** [state] is the answer of [getSubscribeTrackReceiveState(alias)]:
    [None] for an unknown alias, else whether the state has a callback;
    [res] is the answer of the track consumer's [beginSubgroup]. *)
Definition onSubgroup (state : option bool) (group subgroup priority : Z)
    (res : Expected unit MoQPublishError.t) (r : t) : t :=
  match state with
  | None =>
      set_error (MoQPublishError.mk MoQPublishError.CANCELLED
                   "Subgroup for unknown track")
        (mk false (trackCallback_ r) (subgroupCallback_ r) (fetchState_ r)
            (fetchCallback_ r) (promiseFulfilled_ r) (error_ r) (calls_ r))
  | Some callback =>
      let r1 := mk true callback (subgroupCallback_ r) (fetchState_ r)
                   (fetchCallback_ r) (promiseFulfilled_ r) (error_ r)
                   (calls_ r) in
      if negb callback then r1
      else
        let r2 := call (TrackBeginSubgroup group subgroup priority) r1 in
        match res with
        | Value _ => set_subgroupCallback true r2
        | Unexpected e => set_error e r2
        end
  end.


(** In the handlers below [res] is the answer of the consumer to the call
    the handler makes, if it makes one. *)
Definition onObjectBegin (group subgroup objectID length : Z)
    (initialPayload : Payload) (objectComplete streamComplete : bool)
    (res : Expected unit MoQPublishError.t) (r : t) : t :=
  if isCancelled r then r
  else
    let r1 :=
      if objectComplete then
        let r0 :=
          if fetchState_ r
          then call (Consume (Writer.FetchObject group subgroup objectID
                                initialPayload streamComplete)) r
          else call (Consume (Writer.Object objectID initialPayload
                                streamComplete)) r in
        if streamComplete then endOfSubgroup false r0 else r0
      else
        if fetchState_ r
        then call (Consume (Writer.FetchBeginObject group subgroup objectID
                              length initialPayload)) r
        else call (Consume (Writer.BeginObject objectID length
                              initialPayload)) r in
    noteError res r1.

(** [None] where [XCHECK_EQ(objectComplete, res.value() == DONE)] fails. *)
Definition onObjectPayload (payload : Payload) (objectComplete : bool)
    (res : Expected ObjectPublishStatus MoQPublishError.t) (r : t)
  : option t :=
  if isCancelled r then Some r
  else
    let r1 := call (Consume (Writer.ObjectPayload payload false)) r in
    match res with
    | Unexpected e => Some (set_error e r1)
    | Value st =>
        let done := match st with DONE => true | IN_PROGRESS => false end in
        if Bool.eqb objectComplete done then Some r1 else None
    end.

Definition onObjectStatus (group subgroup objectID : Z) (status : ObjectStatus)
    (res : Expected unit MoQPublishError.t) (r : t) : t :=
  if isCancelled r then r
  else
    match status with
    | NORMAL => r
    | OBJECT_NOT_EXIST =>
        noteError res
          (if fetchState_ r
           then call (Consume (Writer.FetchObjectNotExists group subgroup
                                 objectID false)) r
           else call (Consume (Writer.ObjectNotExists objectID false)) r)
    | GROUP_NOT_EXIST =>
        noteError res
          (if fetchState_ r
           then call (Consume (Writer.FetchGroupNotExists group subgroup
                                 false)) r
           else endOfSubgroup false
                  (call (TrackGroupNotExists group subgroup 1) r))
    | END_OF_GROUP =>
        noteError res
          (if fetchState_ r
           then call (Consume (Writer.FetchEndOfGroup group subgroup objectID
                                 false)) r
           else endOfSubgroup false
                  (call (Consume (Writer.EndOfGroup objectID)) r))
    | END_OF_TRACK_AND_GROUP =>
        noteError res
          (endOfSubgroup false
             (if fetchState_ r
              then call (Consume (Writer.FetchEndOfTrackAndGroup group
                                    subgroup objectID)) r
              else call (Consume (Writer.EndOfTrackAndGroup objectID)) r))
    | END_OF_SUBGROUP => endOfSubgroup true r
    end.

Definition onEndOfStream (r : t) : t :=
  if negb (isCancelled r) then endOfSubgroup true r else r.

Definition onConnectionError (r : t) : t :=
  call (CloseSession SessionCloseErrorCode.PROTOCOL_VIOLATION) r.

(** [reset(error)], called by the read loop on a read error. *)
Definition reset (error : ResetStreamErrorCode.t) (r : t) : t * bool :=
  if negb (subscribeState_ r) && negb (fetchState_ r) then (r, false)
  else
    let r1 :=
      if negb (isCancelled r) then call (Consume (Writer.Reset error)) r
      else r in
    (endOfSubgroup false r1, true).

(** What happens to a reader after the stream header was read: callbacks
    of the codec, a read error, and what the session does meanwhile to the
    receive state the reader shares with it ([cancel] on unsubscribe or
    fetch cancel, the fulfilment of the fetch promise). *)
Inductive Event : Type :=
| OnObjectBegin (group subgroup objectID length : Z) (initialPayload : Payload)
                (objectComplete streamComplete : bool)
                (res : Expected unit MoQPublishError.t)
| OnObjectPayload (payload : Payload) (objectComplete : bool)
                  (res : Expected ObjectPublishStatus MoQPublishError.t)
| OnObjectStatus (group subgroup objectID : Z) (status : ObjectStatus)
                 (res : Expected unit MoQPublishError.t)
| OnEndOfStream
| OnConnectionError
| ReadError (error : ResetStreamErrorCode.t)
| SubscribeCancelled
| FetchCancelled
| FetchAnswered.

Definition step (e : Event) (r : t) : option t :=
  match e with
  | OnObjectBegin g sg i len p oc sc res =>
      Some (onObjectBegin g sg i len p oc sc res r)
  | OnObjectPayload p oc res => onObjectPayload p oc res r
  | OnObjectStatus g sg i st res => Some (onObjectStatus g sg i st res r)
  | OnEndOfStream => Some (onEndOfStream r)
  | OnConnectionError => Some (onConnectionError r)
  | ReadError error => Some (fst (reset error r))
  | SubscribeCancelled => Some (set_trackCallback false r)
  | FetchCancelled => Some (resetFetchCallback r)
  | FetchAnswered => Some (set_promiseFulfilled true r)
  end.

Fixpoint run (es : list Event) (r : t) : option t :=
  match es with
  | [] => Some r
  | e :: rest =>
      match step e r with
      | Some r' => run rest r'
      | None => None
      end
  end.

(** The calls that reach a consumer. *)
Definition isConsumerCall (c : Call) : bool :=
  match c with
  | TrackBeginSubgroup _ _ _ | TrackGroupNotExists _ _ _ | Consume _ => true
  | EraseFetch | CloseSession _ => false
  end.

Definition consumerCalls (r : t) : list Call :=
  List.filter isConsumerCall (calls_ r).

(** The calls that tell a consumer that its stream is over. *)
Definition isEnd (c : Call) : bool :=
  match c with
  | Consume Writer.EndOfSubgroup | Consume Writer.EndOfFetch
  | Consume (Writer.Reset _) => true
  | _ => false
  end.

(** No end was delivered, or one was, it is the last call to a consumer
    and the reader is cancelled. *)
Definition endsOnce (r : t) : Prop :=
  forallb (fun c => negb (isEnd c)) (consumerCalls r) = true \/
  (isCancelled r = true /\
   exists before c,
     consumerCalls r = before ++ [c] /\ isEnd c = true /\
     forallb (fun c => negb (isEnd c)) before = true).

(** A reader in subscribe mode after [onSubgroup] found the track and the
    consumer accepted the subgroup. *)
Definition subgroupReader : t :=
  onSubgroup (Some true) 7 0 0 (Value tt) new.

End ObjectStreamCallback.

(** ** The test utility [getContainingDirectory] *)

Module FlvTestUtils.

(** [folly::rfind(input, c)]: the index of the last [c] in [input], [None]
    for [npos]. *)
Fixpoint rfind (input : list Ascii.ascii) (c : Ascii.ascii) : option nat :=
  match input with
  | [] => None
  | x :: rest =>
      match rfind rest c with
      | Some pos => Some (S pos)
      | None => if Ascii.eqb x c then Some 0%nat else None
      end
  end.

(** [input.subpiece(0, pos)] with [pos] within the input. *)
Definition getContainingDirectory (input : list Ascii.ascii)
  : list Ascii.ascii :=
  let pos :=
    match rfind input "/"%char with
    | None => 0%nat
    | Some pos => (pos + 1)%nat
    end in
  take pos input.

End FlvTestUtils.

(** ** The session's handlers as sequences of updates *)

Module SessionTrace.
Import Session.

(** The SubscribeID a request frame carries. *)
Definition requestID (f : ControlFrame) : option Z :=
  match f with
  | SubscribeRequestFrame m => Some (SubscribeRequest.subscribeID m)
  | FetchFrame m => Some (Fetch.subscribeID m)
  | _ => None
  end.

Section WithCodec.
Variable write : list ControlFrame -> ControlFrame -> bool.

(** The updates the handlers are made of.  Each is one assignment of the
    source, or one of its short blocks: [close], [drain], the allocation
    of a SubscribeID together with the write of its request, and the
    removal of a receive state together with the [checkForCloseOnDrain]
    that follows it.  [alloc] tells whether the updates of an outbound
    request, which allocate a SubscribeID, are among them. *)
Inductive update (alloc : bool) : MoQSession -> MoQSession -> Prop :=
| reply_written f s :
    requestID f = None ->
    update alloc s (set_controlWriteBuf (controlWriteBuf_ s ++ [f]) s)
| signalled s : update alloc s (signal s)
| closed_counted v s : update alloc s (set_closedSubscribes v s)
| max_raised v s : update alloc s (set_maxSubscribeID v s)
| publishers_changed m s : update alloc s (set_pubTracks m s)
| message_queued m s :
    update alloc s (set_controlMessages (controlMessages_ s ++ [m]) s)
| peer_max_raised v s :
    peerMaxSubscribeID_ s < v -> update alloc s (set_peerMaxSubscribeID v s)
| session_closed error s : update alloc s (close write error s)
| draining_started s : update alloc s (drain write s)
| subscription_touched k st st' s :
    subTracks_ s !! k = Some st ->
    update alloc s (set_subTracks (<[k := st']> (subTracks_ s)) s)
| subscription_removed k i s :
    update alloc s
      (checkForCloseOnDrain write
         (set_subIdToTrackAlias (delete i (subIdToTrackAlias_ s))
            (set_subTracks (delete k (subTracks_ s)) s)))
| fetch_touched k st st' s :
    fetches_ s !! k = Some st ->
    update alloc s (set_fetches (<[k := st']> (fetches_ s)) s)
| fetch_removed k s :
    update alloc s
      (checkForCloseOnDrain write (set_fetches (delete k (fetches_ s)) s))
| request_allocated f s :
    alloc = true ->
    requestID f = Some (nextSubscribeID_ s) ->
    update alloc s
      (fst (writeFrame write f
              (set_nextSubscribeID (uint64 (nextSubscribeID_ s + 1)) s)))
| subscription_added i st s :
    alloc = true ->
    uint64 (i + 1) = nextSubscribeID_ s ->
    subIdToTrackAlias_ s !! i = None -> subTracks_ s !! i = None ->
    update alloc s
      (set_subTracks (<[i := st]> (subTracks_ s))
         (set_subIdToTrackAlias (<[i := i]> (subIdToTrackAlias_ s)) s))
| fetch_added i st s :
    alloc = true ->
    uint64 (i + 1) = nextSubscribeID_ s ->
    fetches_ s !! i = None ->
    update alloc s (set_fetches (<[i := st]> (fetches_ s)) s).

Inductive updates (alloc : bool) : MoQSession -> MoQSession -> Prop :=
| updates_none s : updates alloc s s
| updates_more s1 s2 s3 :
    updates alloc s1 s2 -> update alloc s2 s3 -> updates alloc s1 s3.

(** The events that allocate a SubscribeID. *)
Definition allocates (e : Event) : bool :=
  match e with
  | CallSubscribe _ _ | CallFetch _ _ => true
  | _ => false
  end.

(** The request IDs in the control buffer, in order. *)
Definition requests (s : MoQSession) : list Z :=
  omap requestID (controlWriteBuf_ s).

End WithCodec.

(** [start()], as far as the transport and the fields kept here go.
    [cs] tells whether [createBidiStream()] has a value.  A client that
    gets no control stream calls [closeSession()] on the transport, without
    an error code, and returns: [wt_] stays set and no field changes.
    Otherwise the control stream gets its priority and the write and read
    loops are scheduled, whose steps are the events of [handle].  A server
    does nothing.  The result tells whether [closeSession()] was called;
    [None] stands for the call through a null [wt_]. *)
Definition start (cs : bool) (s : MoQSession) : option (MoQSession * bool) :=
  match dir_ s with
  | SERVER => Some (s, false)
  | CLIENT => if wt_ s then Some (s, negb cs) else None
  end.

(** What the helpers that only touch the credit counters, the publisher
    map and the control buffer leave alone. *)
Definition untouched (s s' : MoQSession) : Prop :=
  dir_ s' = dir_ s /\ wt_ s' = wt_ s /\ draining_ s' = draining_ s /\
  cancellationRequested_ s' = cancellationRequested_ s /\
  nextSubscribeID_ s' = nextSubscribeID_ s /\
  peerMaxSubscribeID_ s' = peerMaxSubscribeID_ s /\
  subTracks_ s' = subTracks_ s /\
  subIdToTrackAlias_ s' = subIdToTrackAlias_ s /\
  fetches_ s' = fetches_ s /\
  closeSessionCalls_ s' = closeSessionCalls_ s /\
  requests s' = requests s.

(** [k] is a SubscribeID or a track alias the session keeps a receive
    state under. *)
Definition receiving (s : MoQSession) (k : Z) : Prop :=
  is_Some (subIdToTrackAlias_ s !! k) \/ is_Some (subTracks_ s !! k) \/
  is_Some (fetches_ s !! k).

(** Everything the session allocated is below [nextSubscribeID_]: the keys
    of its receive states and the request IDs it wrote, which increase. *)
Definition fresh (s : MoQSession) : Prop :=
  0 <= nextSubscribeID_ s /\
  (forall k, receiving s k -> k < nextSubscribeID_ s) /\
  Forall (fun i => i < nextSubscribeID_ s) (requests s) /\
  StronglySorted Z.lt (requests s).

(** [s'] allocated nothing since [s]. *)
Definition within (s s' : MoQSession) : Prop :=
  nextSubscribeID_ s' = nextSubscribeID_ s /\
  requests s' = requests s /\
  (forall k, receiving s' k -> receiving s k).

(** The transport is attached and was never closed, or it is detached,
    [closeSession] was called exactly once and cancellation is requested. *)
Definition closedOnce (s : MoQSession) : Prop :=
  (wt_ s = true /\ closeSessionCalls_ s = []) \/
  (wt_ s = false /\ cancellationRequested_ s = true /\
   exists code, closeSessionCalls_ s = [code]).

(** A draining session that is still open waits for a subscription or a
    fetch. *)
Definition drainsOut (s : MoQSession) : Prop :=
  draining_ s = true /\
  (wt_ s = true -> subTracks_ s <> ∅ \/ fetches_ s <> ∅).

(** The publisher is a fetch publisher that holds a stream writer. *)
Definition openStream (p : PublisherImpl) : bool :=
  match p with
  | Track _ => false
  | Fetch fp => hasValue (Publisher.streamPublisher_ fp)
  end.

(** The SubscribeID a publisher was created for. *)
Definition publisherID (p : PublisherImpl) : Z :=
  match p with
  | Track tp => TrackPublisherImpl.subscribeID_ tp
  | Fetch fp => Publisher.subscribeID_ fp
  end.

(** A codec that frames nothing. *)
Definition neverWrites : list ControlFrame -> ControlFrame -> bool :=
  fun _ _ => false.

(** A fetch publisher for SubscribeID 0 after [fetchOk], on stream 4. *)
Definition openFetch : PublisherImpl :=
  Fetch (Publisher.mk 0 0 OldestFirst (Some (Writer.newFetch 0 4)) (Some 0)).

(** The session after the events [es], with the example codec and
    constants. *)
Definition after (es : list Event) (s : MoQSession) : MoQSession :=
  match handleAll SessionProps.alwaysWrites SessionProps.exampleInvalidRange
          SessionProps.exampleInternalError SessionProps.exampleLess es s with
  | Some s' => s'
  | None => s
  end.

(** An established session with one subscription outstanding. *)
Definition subscribed : MoQSession :=
  after [CallSubscribe (SessionProps.subscribeRequest 0) true]
    (SessionProps.established 5 ∅).

End SessionTrace.

(** ** The track publisher's streams, [TrackPublisherImpl] *)

Module TrackPublisher.
Import Writer.

(** What the track publisher and its subgroup writers do on the
    transport: [setPriority] on a new stream, and the calls of the writers
    on their stream handles. *)
Inductive TransportCall : Type :=
| SetPriority (handle urgency order : Z) (incremental : bool)
| OnStream (c : Call).

(** [base] holds [subscribeID_], [trackAlias_], [subPriority_] and
    [groupOrder_]; [subgroups_] maps (group, subgroup) to the writer;
    [transport_] is the trace of [TransportCall]s. *)
Record t : Type := mk {
  base : TrackPublisherImpl.t;
  subgroups_ : gmap (Z * Z) StreamPublisherImpl;
  transport_ : list TransportCall
}.

(** [wt] tells whether [getWebTransport()] is non-null, [stream] is the
    answer of [createUniStream()]. *)
Definition beginSubgroup (wt : bool) (stream : option Z)
    (groupID subgroupID pubPriority : Z) (tp : t)
  : t * Expected StreamPublisherImpl MoQPublishError.t :=
  if negb wt then
    (tp, Unexpected (MoQPublishError.mk MoQPublishError.API_ERROR
                       "Publish after subscribeDone"))
  else
    match stream with
    | None =>
        (tp, Unexpected (MoQPublishError.mk MoQPublishError.BLOCKED
                           "Failed to create uni stream."))
    | Some handle =>
        let order :=
          Priority.getStreamPriority groupID subgroupID
            (TrackPublisherImpl.subPriority_ (base tp)) pubPriority
            (TrackPublisherImpl.groupOrder_ (base tp)) in
        let subgroupPublisher :=
          newSubgroup (TrackPublisherImpl.subscribeID_ (base tp)) handle
            (TrackPublisherImpl.trackAlias_ (base tp)) groupID subgroupID in
        (mk (base tp)
            (<[(groupID, subgroupID) := subgroupPublisher]> (subgroups_ tp))
            (transport_ tp ++ [SetPriority handle 1 order false]),
         Value subgroupPublisher)
    end.

Definition onStreamComplete (finalHeader : ObjectHeader.t) (tp : t) : t :=
  mk (base tp)
     (delete (ObjectHeader.group finalHeader, ObjectHeader.subgroup finalHeader)
             (subgroups_ tp))
     (transport_ tp).

(** The calls a writer made while it went from [w0] to [w1], as the
    publisher and the transport see them: [onStreamComplete] reaches the
    publisher, the others the transport. *)
Definition deliver (tp : t) (c : Call) : t :=
  match c with
  | OnStreamComplete finalHeader => onStreamComplete finalHeader tp
  | _ => mk (base tp) (subgroups_ tp) (transport_ tp ++ [OnStream c])
  end.

Definition settle (w0 w1 : StreamPublisherImpl) (tp : t) : t :=
  fold_left deliver (drop (List.length (calls_ w0)) (calls_ w1)) tp.

Section WithTransport.
Variable writeStreamData : list Call -> list Frame -> bool -> bool.

(** The call [objectStream] makes on the new subgroup writer. *)
Definition publishOnce (objHeader : ObjectHeader.t) (payload : Payload)
  : M unit :=
  match ObjectHeader.status objHeader with
  | NORMAL =>
      object writeStreamData (ObjectHeader.id objHeader) payload true
  | OBJECT_NOT_EXIST =>
      objectNotExists writeStreamData (ObjectHeader.id objHeader) true
  | GROUP_NOT_EXIST =>
      publishStatus writeStreamData (ObjectHeader.id objHeader)
        (ObjectHeader.status objHeader) true
  | END_OF_GROUP => endOfGroup writeStreamData (ObjectHeader.id objHeader)
  | END_OF_TRACK_AND_GROUP =>
      endOfTrackAndGroup writeStreamData (ObjectHeader.id objHeader)
  | END_OF_SUBGROUP => endOfSubgroup writeStreamData
  end.

(** [None] where [XCHECK(status == NORMAL || !payload)] fails.  The
    subgroup writer is the object [subgroups_] points to, so the map sees
    what the call did to it before the completion callback runs. *)
Definition objectStream (wt : bool) (stream : option Z)
    (objHeader : ObjectHeader.t) (payload : Payload) (tp : t)
  : option (t * Expected unit MoQPublishError.t) :=
  let isNormal :=
    match ObjectHeader.status objHeader with
    | NORMAL => true
    | _ => false
    end in
  if negb (isNormal || negb (hasValue payload)) then None
  else
    match beginSubgroup wt stream (ObjectHeader.group objHeader)
            (ObjectHeader.subgroup objHeader)
            (ObjectHeader.priority objHeader) tp with
    | (tp1, Unexpected e) => Some (tp1, Unexpected e)
    | (tp1, Value subgroup) =>
        match publishOnce objHeader payload subgroup with
        | None => None
        | Some (subgroup', r) =>
            let key := (ObjectHeader.group objHeader,
                        ObjectHeader.subgroup objHeader) in
            let tp2 := mk (base tp1) (<[key := subgroup']> (subgroups_ tp1))
                          (transport_ tp1) in
            Some (settle subgroup subgroup' tp2, r)
        end
    end.

Definition groupNotExists (wt : bool) (stream : option Z)
    (groupID subgroupID priority : Z) (tp : t)
  : option (t * Expected unit MoQPublishError.t) :=
  objectStream wt stream
    (ObjectHeader.mk
       (OfTrackAlias (TrackPublisherImpl.trackAlias_ (base tp)))
       groupID subgroupID 0 priority GROUP_NOT_EXIST (Some 0))
    None tp.

End WithTransport.

(** The frames [objectStream] writes for [objHeader]: the subgroup header,
    and the object unless the status is END_OF_SUBGROUP. *)
Definition oneShotFrames (alias : Z) (objHeader : ObjectHeader.t)
    (payload : Payload) : list Frame :=
  let g := ObjectHeader.group objHeader in
  let sg := ObjectHeader.subgroup objHeader in
  SubgroupHeaderFrame
    (ObjectHeader.mk (OfTrackAlias alias) g sg UINT64_MAX 0 NORMAL None) ::
  match ObjectHeader.status objHeader with
  | END_OF_SUBGROUP => []
  | st =>
      [ObjectFrame STREAM_HEADER_SUBGROUP
         (ObjectHeader.mk (OfTrackAlias alias) g sg (ObjectHeader.id objHeader)
            0 st (Some (computeChainDataLength payload)))
         payload]
  end.

(** A track publisher with one open subgroup, (7, 0) on stream 4. *)
Definition publisher7 : t :=
  mk (TrackPublisherImpl.mk 0 0 128 OldestFirst)
     (<[(7, 0) := newSubgroup 0 4 0 7 0]> ∅) [].

End TrackPublisher.

(** ** The writer's trace: transport calls, wire frames, framing *)

Module WriterTrace.
Import Writer.

(** Calls on the transport handle, as opposed to calls on the publisher. *)
Definition isTransportCall (c : Call) : bool :=
  match c with
  | WriteStreamData _ _ _ | ResetStream _ _ => true
  | OnStreamComplete _ => false
  end.

Definition transportCalls (w : StreamPublisherImpl) : list Call :=
  List.filter isTransportCall (calls_ w).





(** The frames handed to the transport, in order. *)
Definition callFrames (c : Call) : list Frame :=
  match c with
  | WriteStreamData _ buf _ => buf
  | _ => []
  end.

Definition wire (w : StreamPublisherImpl) : list Frame :=
  flat_map callFrames (calls_ w).

(** Every frame the writer produced: handed over, or still buffered. *)
Definition frames (w : StreamPublisherImpl) : list Frame :=
  wire w ++ writeBuf_ w.

Definition isHeaderFrame (f : Frame) : bool :=
  match f with
  | FetchHeaderFrame _ | SubgroupHeaderFrame _ => true
  | _ => false
  end.

(** Reading a sequence of frames as a receiver would, counting the bytes
    the current object still owes: an object frame may only come when
    nothing is owed, declares its length and brings its first bytes; a
    payload frame may only come while bytes are owed and may not bring more
    than that.  The result is what the last object still owes. *)
Fixpoint owed (r : Z) (fs : list Frame) : option Z :=
  match fs with
  | [] => Some r
  | FetchHeaderFrame _ :: rest | SubgroupHeaderFrame _ :: rest => owed r rest
  | ObjectFrame _ header payload :: rest =>
      match ObjectHeader.length header with
      | Some len =>
          if (r =? 0) && (computeChainDataLength payload <=? len)
          then owed (len - computeChainDataLength payload) rest
          else None
      | None => None
      end
  | PayloadFrame payload :: rest =>
      if (0 <? r) && (computeChainDataLength payload <=? r)
      then owed (r - computeChainDataLength payload) rest
      else None
  end.

(** The stream ended with a write that carried fin. *)
Definition finished (w : StreamPublisherImpl) : Prop :=
  exists h buf, In (WriteStreamData h buf true) (calls_ w).

(** Hoare triples for the methods of the writer: from a writer satisfying
    [P], a method that returns a value [a] leaves a writer satisfying
    [Q a], one that returns an error leaves a writer satisfying [E]. *)
Definition triple {A} (P : StreamPublisherImpl -> Prop) (m : M A)
    (Q : A -> StreamPublisherImpl -> Prop) (E : StreamPublisherImpl -> Prop)
  : Prop :=
  forall w w' r,
    P w -> m w = Some (w', r) ->
    match r with
    | Value a => Q a w'
    | Unexpected _ => E w'
    end.

(** [inert w0 w]: [w] holds no handle and has made the transport calls
    of [w0] and no other, with the buffer of [w0]. *)
Definition inert (w0 w : StreamPublisherImpl) : Prop :=
  writeHandle_ w = None /\
  transportCalls w = transportCalls w0 /\
  writeBuf_ w = writeBuf_ w0.

(** The frames start with [first] and hold no other stream header. *)
Definition headed (first : Frame) (w : StreamPublisherImpl) : Prop :=
  exists rest,
    frames w = first :: rest /\
    Forall (fun f => isHeaderFrame f = false) rest.

Definition remaining (w : StreamPublisherImpl) : Z :=
  match currentLengthRemaining_ w with
  | Some r => r
  | None => 0
  end.

(** The frames read well and the writer's count agrees with them: while
    the handle is held, the last object owes what
    [currentLengthRemaining_] says, which is never an empty remainder, and
    no write carried fin; once the stream has been finished by a write,
    nothing is owed and nothing is left in the buffer. *)
Definition balanced (w : StreamPublisherImpl) : Prop :=
  match writeHandle_ w with
  | Some _ =>
      owed 0 (frames w) = Some (remaining w) /\
      (forall r, currentLengthRemaining_ w = Some r -> 0 < r) /\
      ~ finished w
  | None =>
      exists r, owed 0 (frames w) = Some r /\
                (finished w -> r = 0 /\ writeBuf_ w = [])
  end.

(** The ways the methods change [header_]: the object ID, the length and
    the status; the fetch overrides also set group and subgroup. *)
Inductive edit (fetch : bool) : ObjectHeader.t -> ObjectHeader.t -> Prop :=
| edit_id i h : edit fetch h (header_set_id i h)
| edit_length l h : edit fetch h (header_set_length l h)
| edit_status s h : edit fetch h (header_set_status s h)
| edit_group g sg h : fetch = true -> edit fetch h (header_set_group g sg h).

(** The frames the methods append to the buffer of [w]: a payload frame,
    or an object frame with the stream type and the header of [w]. *)
Definition produced (w : StreamPublisherImpl) (f : Frame) : Prop :=
  (exists p, f = PayloadFrame p) \/
  (exists p, f = ObjectFrame (streamType_ w) (header_ w) p).

(** The operations of a holder of the consumer interface: all of them for a
    [FetchConsumer], those of [subgroupOp] for a [SubgroupConsumer]. *)
Definition allowed (fetch : bool) (op : Op) : Prop :=
  fetch = true \/ subgroupOp op = true.

(** The object headers a frame carries. *)
Definition frameHeaders (f : Frame) : list ObjectHeader.t :=
  match f with
  | SubgroupHeaderFrame h => [h]
  | ObjectFrame _ h _ => [h]
  | _ => []
  end.

(** [h] names the stream of [h0]: the same track identifier and priority
    and, on a subgroup stream, the same group and subgroup. *)
Definition sameStream (fetch : bool) (h0 h : ObjectHeader.t) : Prop :=
  ObjectHeader.trackIdentifier h = ObjectHeader.trackIdentifier h0 /\
  ObjectHeader.priority h = ObjectHeader.priority h0 /\
  (fetch = false ->
   ObjectHeader.group h = ObjectHeader.group h0 /\
   ObjectHeader.subgroup h = ObjectHeader.subgroup h0).

Definition namesStream (fetch : bool) (h0 : ObjectHeader.t)
    (w : StreamPublisherImpl) : Prop :=
  sameStream fetch h0 (header_ w) /\
  Forall (sameStream fetch h0) (flat_map frameHeaders (frames w)).

(** What a call leaves and whether it returned an error. *)
Definition outcome {A} (m : M A)
  : StreamPublisherImpl ->
    option (StreamPublisherImpl * option MoQPublishError.t) :=
  fun w =>
    match m w with
    | Some (w', Value _) => Some (w', None)
    | Some (w', Unexpected e) => Some (w', Some e)
    | None => None
    end.

Definition perform (T : list Call -> list Frame -> bool -> bool) (op : Op)
  : StreamPublisherImpl ->
    option (StreamPublisherImpl * option MoQPublishError.t) :=
  match op with
  | Object i p f => outcome (object T i p f)
  | ObjectNotExists i f => outcome (objectNotExists T i f)
  | BeginObject i l p => outcome (beginObject T i l p)
  | ObjectPayload p f => outcome (objectPayload T p f)
  | EndOfGroup i => outcome (endOfGroup T i)
  | EndOfTrackAndGroup i => outcome (endOfTrackAndGroup T i)
  | EndOfSubgroup => outcome (endOfSubgroup T)
  | PublishStatus i s f => outcome (publishStatus T i s f)
  | Reset e => outcome (reset e)
  | OnCancel => outcome onCancel
  | FetchObject g sg i p f => outcome (FetchConsumer_object T g sg i p f)
  | FetchObjectNotExists g sg i f =>
      outcome (FetchConsumer_objectNotExists T g sg i f)
  | FetchGroupNotExists g sg f => outcome (FetchConsumer_groupNotExists T g sg f)
  | FetchBeginObject g sg i l p =>
      outcome (FetchConsumer_beginObject T g sg i l p)
  | FetchEndOfGroup g sg i f => outcome (FetchConsumer_endOfGroup T g sg i f)
  | FetchEndOfTrackAndGroup g sg i =>
      outcome (FetchConsumer_endOfTrackAndGroup T g sg i)
  | EndOfFetch => outcome (endOfFetch T)
  end.



(** A method whose error returns all leave the writer without handle. *)
Definition fatal {A} (P : StreamPublisherImpl -> Prop) (m : M A) : Prop :=
  triple P m (fun _ _ => True) (fun w => writeHandle_ w = None).

(** A method preserves [P] when it keeps it whatever it returns. *)
Definition inv {A} (P : StreamPublisherImpl -> Prop) (m : M A) : Prop :=
  triple P m (fun _ => P) P.

End WriterTrace.

(** ** Facts about the priority encoder *)

Module PriorityFacts.
Import Priority.

Lemma IdMask_ones : IdMask = Z.ones 21.
Proof. reflexivity. Qed.

Lemma low21_of_uint32_uint64 (x : Z) :
  Z.land (uint32 (uint64 x)) IdMask = x mod 2 ^ 21.
Proof.
  rewrite IdMask_ones, Z.land_ones by lia.
  unfold uint32, uint64.
  rewrite (Z.mod_mod_divide _ (2 ^ 32) (2 ^ 21)) by (exists (2 ^ 11); lia).
  apply Z.mod_mod_divide. exists (2 ^ 43); lia.
Qed.

Lemma uint32_idem (x : Z) : uint32 (uint32 x) = uint32 x.
Proof. unfold uint32. apply Z.mod_mod. lia. Qed.

(** The two helpers compute the 21-bit fields of the layout. *)
Lemma groupPriorityBits_low21 (o : GroupOrder) (g : Z) :
  groupPriorityBits o (uint64 g) = spec_groupBits o g.
Proof.
  unfold groupPriorityBits, spec_groupBits.
  rewrite low21_of_uint32_uint64.
  pose proof (Z.mod_pos_bound g (2 ^ 21) ltac:(lia)) as Hb.
  destruct o; simpl; [reflexivity |].
  unfold uint32, IdMask. rewrite Z.mod_small; lia.
Qed.

Lemma subgroupPriorityBits_low21 (sg : Z) :
  subgroupPriorityBits (uint32 (uint64 sg)) = sg mod 2 ^ 21.
Proof.
  unfold subgroupPriorityBits. rewrite uint32_idem.
  apply low21_of_uint32_uint64.
Qed.

Lemma spec_groupBits_bound (o : GroupOrder) (g : Z) :
  0 <= spec_groupBits o g < 2 ^ 21.
Proof.
  unfold spec_groupBits.
  pose proof (Z.mod_pos_bound g (2 ^ 21) ltac:(lia)).
  destruct o; lia.
Qed.

(** A 32-bit left shift by 21 keeps the low 11 bits of its operand. *)
Lemma uint32_shiftl_21 (x : Z) :
  uint32 (Z.shiftl x 21) = Z.shiftl (x mod 2 ^ 11) 21.
Proof.
  unfold uint32. rewrite !Z.shiftl_mul_pow2 by lia.
  replace (2 ^ 32) with (2 ^ 11 * 2 ^ 21) by lia.
  rewrite Zmult_mod_distr_r. reflexivity.
Qed.

Lemma uint64_shiftl_uint8 (x k : Z) :
  0 <= k <= 56 -> uint64 (Z.shiftl (uint8 x) k) = Z.shiftl (uint8 x) k.
Proof.
  intros Hk. unfold uint64, uint8.
  pose proof (Z.mod_pos_bound x (2 ^ 8) ltac:(lia)) as Hx.
  rewrite Z.shiftl_mul_pow2 by lia.
  apply Z.mod_small. split; [apply Z.mul_nonneg_nonneg; lia |].
  apply Z.lt_le_trans with (2 ^ 8 * 2 ^ k).
  - apply Z.mul_lt_mono_pos_r; lia.
  - rewrite <- Z.pow_add_r by lia. apply Z.pow_le_mono_r; lia.
Qed.

(** What the code computes, for every input: the group field that reaches
    the result is the low 11 bits of the 21 group bits. *)
Lemma getStreamPriority_computes (g sg subPri pubPri : Z) (o : GroupOrder) :
  getStreamPriority g sg subPri pubPri o =
  Z.lor
    (Z.lor
       (Z.lor (Z.shiftl (uint8 subPri) 50) (Z.shiftl (uint8 pubPri) 42))
       (Z.shiftl (spec_groupBits o g mod 2 ^ 11) 21))
    (sg mod 2 ^ 21).
Proof.
  unfold getStreamPriority.
  rewrite groupPriorityBits_low21, subgroupPriorityBits_low21.
  rewrite uint32_shiftl_21, !uint64_shiftl_uint8 by lia.
  reflexivity.
Qed.

(** The code agrees with the documented layout exactly when the group bits
    fit in 11 bits. *)
Lemma getStreamPriority_small_group (g sg subPri pubPri : Z) (o : GroupOrder) :
  0 <= subPri < 256 -> 0 <= pubPri < 256 ->
  spec_groupBits o g < 2 ^ 11 ->
  getStreamPriority g sg subPri pubPri o = spec_priority g sg subPri pubPri o.
Proof.
  intros Hs Hp Hg. rewrite getStreamPriority_computes. unfold spec_priority.
  pose proof (spec_groupBits_bound o g).
  unfold uint8. rewrite !Z.mod_small by lia. reflexivity.
Qed.

(** C1 (code defect).  The claim gives the result the full 21-bit group
    field, [(groupBits << 21)].  The code shifts the 32-bit [groupBits] in 32
    bits, so the field loses its high 10 bits: the instance of the claim for
    group 7 holds for every subscriber priority, but for group 2048 under
    OldestFirst the code returns 0 where the layout gives [2048 << 21], and
    for group 0 under NewestFirst it returns [0xFFE00000] where the layout
    gives [0x1FFFFF << 21]. *)
Theorem getStreamPriority_group_field_truncated :
  (forall subPri : Z,
      getStreamPriority 7 0 subPri 128 OldestFirst =
      Z.lor (Z.lor (Z.lor (Z.shiftl (uint8 subPri) 50) (Z.shiftl 128 42))
                   (Z.shiftl 7 21)) 0) /\
  getStreamPriority 2048 0 0 0 OldestFirst = 0 /\
  spec_priority 2048 0 0 0 OldestFirst = Z.shiftl 2048 21 /\
  getStreamPriority 0 0 0 0 NewestFirst = 0xFFE00000 /\
  spec_priority 0 0 0 0 NewestFirst = Z.shiftl 0x1FFFFF 21.
Proof.
  split; [| repeat split; vm_compute; reflexivity].
  intros subPri. rewrite getStreamPriority_computes. reflexivity.
Qed.

End PriorityFacts.

(** ** Facts about the stream writer *)

Module WriterFacts.
Import Writer WriterProps.
Local Open Scope writer_scope.

Lemma keeps_refl w : keeps w w.
Proof. repeat split. Qed.

Lemma keeps_trans w1 w2 w3 : keeps w1 w2 -> keeps w2 w3 -> keeps w1 w3.
Proof. unfold keeps. intros (? & ? & ?) (? & ? & ?). repeat split; congruence. Qed.

Lemma published_call c w :
  published (call c w) = written w ++ callObjects c ++ flat_map frameObjects (writeBuf_ w).
Proof.
  unfold published, written, call. simpl.
  rewrite flat_map_app. simpl. rewrite app_nil_r, app_assoc. reflexivity.
Qed.

Lemma keeps_call c w : callObjects c = [] -> keeps w (call c w).
Proof.
  intros Hc. split; [| split; reflexivity].
  rewrite published_call, Hc. reflexivity.
Qed.

Lemma keeps_afterReset e w : keeps w (afterReset e w).
Proof.
  unfold afterReset. destruct (writeHandle_ w) as [h |].
  - eapply keeps_trans; [| apply keeps_call; reflexivity].
    apply (keeps_call (ResetStream h e) (set_writeHandle None w)). reflexivity.
  - apply keeps_call. reflexivity.
Qed.

Lemma writeHandle_afterReset e w : writeHandle_ (afterReset e w) = None.
Proof. unfold afterReset. destruct (writeHandle_ w) eqn:E; simpl; auto. Qed.

Lemma currentLengthRemaining_afterReset e w :
  currentLengthRemaining_ (afterReset e w) = currentLengthRemaining_ w.
Proof. unfold afterReset. destruct (writeHandle_ w); reflexivity. Qed.

(** On a live handle, [reset] calls the transport's [resetStream] with the
    given code and then tells the publisher the stream is complete. *)
Lemma calls_afterReset_live e w h :
  writeHandle_ w = Some h ->
  calls_ (afterReset e w) =
  calls_ w ++ [ResetStream h e; OnStreamComplete (header_ w)].
Proof.
  intros H. unfold afterReset. rewrite H. simpl.
  rewrite <- app_assoc. reflexivity.
Qed.


Section WithTransport.
Variable T : list Call -> list Frame -> bool -> bool.

Lemma reset_eq e w : reset e w = Some (afterReset e w, Value tt).
Proof. unfold reset, afterReset, bind, get, modify, ret, onStreamComplete.
  destruct (writeHandle_ w); reflexivity. Qed.

Lemma bind_get {A} (f : StreamPublisherImpl -> M A) w : bind get f w = f w w.
Proof. reflexivity. Qed.

Lemma bind_modify {A} g (f : unit -> M A) w :
  bind (modify g) f w = f tt (g w).
Proof. reflexivity. Qed.

Lemma bind_ret {A B} (a : A) (f : A -> M B) w : bind (ret a) f w = f a w.
Proof. reflexivity. Qed.

Lemma bind_reset {A} e (f : unit -> M A) w :
  bind (reset e) f w = f tt (afterReset e w).
Proof. unfold bind at 1. rewrite reset_eq. reflexivity. Qed.

Lemma bind_inv {A B} (m : M A) (f : A -> M B) w w' r :
  bind m f w = Some (w', r) ->
  (exists e, m w = Some (w', Unexpected e) /\ r = Unexpected e) \/
  (exists w1 a, m w = Some (w1, Value a) /\ f a w1 = Some (w', r)).
Proof.
  unfold bind. destruct (m w) as [[w1 [a | e]] |]; intros H.
  - right. eauto.
  - left. inversion H; subst. eauto.
  - discriminate.
Qed.

(** [validatePublish] either lets the call through, changing nothing, or
    refuses it with API_ERROR; it refuses after [reset(INTERNAL_ERROR)]
    when an object is in progress or the object ID does not advance. *)
Lemma validatePublish_cases i w :
  (validatePublish i w = Some (w, Value tt) /\
   currentLengthRemaining_ w = None /\
   (ObjectHeader.id (header_ w) = UINT64_MAX \/ ObjectHeader.id (header_ w) < i) /\
   hasValue (writeHandle_ w) = true) \/
  (exists m,
     validatePublish i w =
     Some (afterReset ResetStreamErrorCode.INTERNAL_ERROR w,
           Unexpected (MoQPublishError.mk MoQPublishError.API_ERROR m)) /\
     (hasValue (currentLengthRemaining_ w) = true \/
      (ObjectHeader.id (header_ w) <> UINT64_MAX /\
       i <= ObjectHeader.id (header_ w)))) \/
  (validatePublish i w =
     Some (w, Unexpected (MoQPublishError.mk MoQPublishError.API_ERROR
                            "Subgroup reset")) /\
   currentLengthRemaining_ w = None /\
   (ObjectHeader.id (header_ w) = UINT64_MAX \/ ObjectHeader.id (header_ w) < i) /\
   writeHandle_ w = None).
Proof.
  unfold validatePublish. rewrite bind_get.
  destruct (currentLengthRemaining_ w) as [r |] eqn:Hr; cbn [hasValue].
  - right; left. eexists. rewrite bind_reset. unfold makeUnexpected.
    split; [reflexivity | left; reflexivity].
  - destruct (ObjectHeader.id (header_ w) =? UINT64_MAX) eqn:Hmax;
      cbn [negb andb].
    + apply Z.eqb_eq in Hmax.
      destruct (writeHandle_ w) eqn:Hh; cbn [hasValue].
      * left. repeat split; auto.
      * right; right. repeat split; auto.
    + apply Z.eqb_neq in Hmax.
      destruct (i <=? ObjectHeader.id (header_ w)) eqn:Hle.
      * apply Z.leb_le in Hle. right; left. eexists. rewrite bind_reset.
        unfold makeUnexpected. split; [reflexivity | right; auto].
      * apply Z.leb_gt in Hle.
        destruct (writeHandle_ w) eqn:Hh; cbn [hasValue].
        -- left. repeat split; auto.
        -- right; right. repeat split; auto.
Qed.

Lemma keeps_afterWrite h fin w : keeps w (afterWrite h fin w).
Proof.
  unfold afterWrite. split.
  - rewrite published_call. unfold published.
    destruct fin; simpl; rewrite !app_nil_r; reflexivity.
  - destruct fin; split; reflexivity.
Qed.

Lemma writeToStream_live fin w h :
  writeHandle_ w = Some h ->
  writeToStream T fin w =
  if T (calls_ w) (writeBuf_ w) fin then
    Some (if fin then call (OnStreamComplete (header_ w)) (afterWrite h fin w)
          else afterWrite h fin w, Value tt)
  else
    Some (afterReset ResetStreamErrorCode.INTERNAL_ERROR (afterWrite h fin w),
          Unexpected (MoQPublishError.mk MoQPublishError.WRITE_ERROR
                        "write error")).
Proof.
  intros Hh. unfold writeToStream. rewrite bind_get, Hh.
  destruct fin; cbv beta iota zeta;
    rewrite ?bind_modify, ?bind_ret; cbv beta iota zeta; rewrite ?bind_modify;
    destruct (T (calls_ w) (writeBuf_ w) _); try reflexivity;
    rewrite bind_reset; reflexivity.
Qed.

Lemma writeToStream_null fin w :
  writeHandle_ w = None -> writeToStream T fin w = None.
Proof. intros Hh. unfold writeToStream. rewrite bind_get, Hh. reflexivity. Qed.

Lemma writeToStream_keeps fin w w' r :
  writeToStream T fin w = Some (w', r) -> keeps w w'.
Proof.
  destruct (writeHandle_ w) as [h |] eqn:Hh.
  - rewrite (writeToStream_live _ _ _ Hh).
    destruct (T _ _ _); intros H; inversion H; subst; clear H.
    + destruct fin; [| apply keeps_afterWrite].
      eapply keeps_trans; [apply keeps_afterWrite |].
      apply keeps_call. reflexivity.
    + eapply keeps_trans; [apply keeps_afterWrite | apply keeps_afterReset].
  - rewrite writeToStream_null by assumption. discriminate.
Qed.

Lemma writeCurrentObject_publishes i len p fin w w' r :
  writeCurrentObject T i len p fin w = Some (w', r) ->
  published w' = published w ++ [objectHeader i len w] /\
  ObjectHeader.id (header_ w') = i /\
  ObjectHeader.group (header_ w') = ObjectHeader.group (header_ w) /\
  currentLengthRemaining_ w' = currentLengthRemaining_ w.
Proof.
  unfold writeCurrentObject. rewrite !bind_modify. intros H.
  pose proof H as Hk. apply writeToStream_keeps in Hk.
  destruct Hk as (Hp & Hi & Hg). rewrite Hp, Hi, Hg.
  repeat split.
  - unfold published. simpl. rewrite flat_map_app. simpl.
    rewrite app_assoc. reflexivity.
  - revert H. simpl.
    match goal with |- writeToStream T fin ?x = _ -> _ => set (w1 := x) end.
    destruct (writeHandle_ w1) as [h |] eqn:Hh.
    + rewrite (writeToStream_live _ _ _ Hh).
      destruct (T _ _ _); intros H; inversion H; subst; clear H.
      * destruct fin; reflexivity.
      * rewrite currentLengthRemaining_afterReset. destruct fin; reflexivity.
    + rewrite writeToStream_null by assumption. discriminate.
Qed.

(** [validateObjectPublishAndUpdateState] by cases on the remaining length
    [r] and the payload length [n]. *)
Lemma validateObjectPublish_none p fin w :
  currentLengthRemaining_ w = None ->
  validateObjectPublishAndUpdateState p fin w =
  Some (w, Unexpected (MoQPublishError.mk MoQPublishError.API_ERROR
                         "Not publishing object")).
Proof.
  intros Hr. unfold validateObjectPublishAndUpdateState.
  rewrite bind_get, Hr. reflexivity.
Qed.

Lemma validateObjectPublish_exceeds p fin w r :
  currentLengthRemaining_ w = Some r ->
  r < computeChainDataLength p ->
  validateObjectPublishAndUpdateState p fin w =
  Some (afterReset ResetStreamErrorCode.INTERNAL_ERROR w,
        Unexpected (MoQPublishError.mk MoQPublishError.API_ERROR
                      "Length exceeds remaining in object")).
Proof.
  intros Hr Hlt. unfold validateObjectPublishAndUpdateState.
  rewrite bind_get, Hr. apply Z.ltb_lt in Hlt. rewrite Hlt.
  rewrite bind_reset. reflexivity.
Qed.

Lemma validateObjectPublish_done p fin w r :
  currentLengthRemaining_ w = Some r ->
  computeChainDataLength p = r ->
  validateObjectPublishAndUpdateState p fin w =
  Some (set_currentLengthRemaining None w, Value DONE).
Proof.
  intros Hr Hlen. unfold validateObjectPublishAndUpdateState.
  rewrite bind_get, Hr, Hlen, Z.ltb_irrefl, bind_modify, Z.sub_diag.
  reflexivity.
Qed.

Lemma validateObjectPublish_in_progress p w r :
  currentLengthRemaining_ w = Some r ->
  computeChainDataLength p < r ->
  validateObjectPublishAndUpdateState p false w =
  Some (set_currentLengthRemaining (Some (r - computeChainDataLength p)) w,
        Value IN_PROGRESS).
Proof.
  intros Hr Hlt. unfold validateObjectPublishAndUpdateState.
  rewrite bind_get, Hr.
  destruct (r <? computeChainDataLength p) eqn:E1;
    [apply Z.ltb_lt in E1; lia |].
  rewrite bind_modify.
  destruct (r - computeChainDataLength p =? 0) eqn:E2;
    [apply Z.eqb_eq in E2; lia |].
  reflexivity.
Qed.

Lemma validateObjectPublish_fin_open p w r :
  currentLengthRemaining_ w = Some r ->
  computeChainDataLength p < r ->
  validateObjectPublishAndUpdateState p true w =
  Some (afterReset ResetStreamErrorCode.INTERNAL_ERROR
          (set_currentLengthRemaining (Some (r - computeChainDataLength p)) w),
        Unexpected (MoQPublishError.mk MoQPublishError.API_ERROR
                      "finStream with open object")).
Proof.
  intros Hr Hlt. unfold validateObjectPublishAndUpdateState.
  rewrite bind_get, Hr.
  destruct (r <? computeChainDataLength p) eqn:E1;
    [apply Z.ltb_lt in E1; lia |].
  rewrite bind_modify.
  destruct (r - computeChainDataLength p =? 0) eqn:E2;
    [apply Z.eqb_eq in E2; lia |].
  rewrite bind_reset. reflexivity.
Qed.

Lemma keeps_set_currentLengthRemaining r w :
  keeps w (set_currentLengthRemaining r w).
Proof. repeat split. Qed.

Lemma validateObjectPublish_keeps p fin w w' r :
  validateObjectPublishAndUpdateState p fin w = Some (w', r) -> keeps w w'.
Proof.
  destruct (currentLengthRemaining_ w) as [rem |] eqn:Hr.
  - destruct (Z.lt_trichotomy rem (computeChainDataLength p)) as [H | [H | H]].
    + rewrite (validateObjectPublish_exceeds _ _ _ _ Hr H).
      intros E; inversion E; subst. apply keeps_afterReset.
    + rewrite (validateObjectPublish_done _ _ _ _ Hr (eq_sym H)).
      intros E; inversion E; subst. apply keeps_set_currentLengthRemaining.
    + destruct fin.
      * rewrite (validateObjectPublish_fin_open _ _ _ Hr H).
        intros E; inversion E; subst.
        eapply keeps_trans; [| apply keeps_afterReset].
        apply keeps_set_currentLengthRemaining.
      * rewrite (validateObjectPublish_in_progress _ _ _ Hr H).
        intros E; inversion E; subst. apply keeps_set_currentLengthRemaining.
  - rewrite validateObjectPublish_none by assumption.
    intros E; inversion E; subst. apply keeps_refl.
Qed.

(** *** What one call does to the published objects *)

Lemma discard_inv {A} (m : M A) w w' :
  discard m w = Some w' -> exists r, m w = Some (w', r).
Proof.
  unfold discard. destruct (m w) as [[w1 r] |]; intros H; inversion H; eauto.
Qed.

Lemma after_validatePublish {A} i (k : M A) w w' r :
  bind (validatePublish i) (fun _ => k) w = Some (w', r) ->
  keeps w w' \/
  ((ObjectHeader.id (header_ w) = UINT64_MAX \/ ObjectHeader.id (header_ w) < i) /\
   currentLengthRemaining_ w = None /\
   k w = Some (w', r)).
Proof.
  unfold bind at 1.
  destruct (validatePublish_cases i w)
    as [(E & Hr & Hi & _) | [(m & E & _) | (E & _)]]; rewrite E; intros H.
  - right. auto.
  - left. inversion H; subst. apply keeps_afterReset.
  - left. inversion H; subst. apply keeps_refl.
Qed.

Lemma wrote_of_writeCurrentObject i len p fin w0 w w' r :
  (ObjectHeader.id (header_ w0) = UINT64_MAX \/ ObjectHeader.id (header_ w0) < i) ->
  keeps w0 w ->
  writeCurrentObject T i len p fin w = Some (w', r) ->
  wrote i w0 w'.
Proof.
  intros Hi (Hp & Hid & Hg) H.
  apply writeCurrentObject_publishes in H as (Hp' & Hi' & Hg' & _).
  split; [assumption |]. split; [| split; congruence].
  exists (objectHeader i len w). rewrite Hp', Hp.
  split; [reflexivity |]. split; [reflexivity |]. exact Hg.
Qed.

Lemma object_effect i p fin w w' r :
  object T i p fin w = Some (w', r) -> keeps w w' \/ wrote i w w'.
Proof.
  unfold object. intros H.
  apply after_validatePublish in H as [H | (Hi & _ & H)]; [left; exact H |].
  right. eapply wrote_of_writeCurrentObject; eauto using keeps_refl.
Qed.

Lemma publishStatus_effect i st fin w w' r :
  publishStatus T i st fin w = Some (w', r) -> keeps w w' \/ wrote i w w'.
Proof.
  unfold publishStatus. intros H.
  apply after_validatePublish in H as [H | (Hi & _ & H)]; [left; exact H |].
  right. rewrite bind_modify in H.
  eapply wrote_of_writeCurrentObject; [exact Hi | | exact H].
  repeat split.
Qed.

Lemma beginObject_effect i len p w w' r :
  beginObject T i len p w = Some (w', r) -> keeps w w' \/ wrote i w w'.
Proof.
  unfold beginObject. intros H.
  apply after_validatePublish in H as [H | (Hi & _ & H)]; [left; exact H |].
  rewrite bind_modify in H.
  apply bind_inv in H as [(e & H & _) | (w1 & a & H1 & H2)].
  - left. apply validateObjectPublish_keeps in H.
    eapply keeps_trans; [| exact H]. apply keeps_set_currentLengthRemaining.
  - right. apply validateObjectPublish_keeps in H1.
    eapply wrote_of_writeCurrentObject; [exact Hi | | exact H2].
    eapply keeps_trans; [| exact H1]. apply keeps_set_currentLengthRemaining.
Qed.

Lemma objectPayload_keeps p fin w w' r :
  objectPayload T p fin w = Some (w', r) -> keeps w w'.
Proof.
  unfold objectPayload. intros H.
  apply bind_inv in H as [(e & H & _) | (w1 & a & H1 & H2)].
  - eapply validateObjectPublish_keeps; eauto.
  - apply validateObjectPublish_keeps in H1.
    rewrite bind_modify in H2.
    apply bind_inv in H2 as [(e & H2 & _) | (w2 & [] & H2 & H3)].
    + apply writeToStream_keeps in H2.
      eapply keeps_trans; [exact H1 |]. eapply keeps_trans; [| exact H2].
      split; [| split; reflexivity].
      unfold published. simpl. rewrite flat_map_app. simpl.
      rewrite app_nil_r. reflexivity.
    + apply writeToStream_keeps in H2. inversion H3; subst.
      eapply keeps_trans; [exact H1 |]. eapply keeps_trans; [| exact H2].
      split; [| split; reflexivity].
      unfold published. simpl. rewrite flat_map_app. simpl.
      rewrite app_nil_r. reflexivity.
Qed.

Lemma endOfSubgroup_keeps w w' r :
  endOfSubgroup T w = Some (w', r) -> keeps w w'.
Proof.
  unfold endOfSubgroup. rewrite bind_get.
  destruct (hasValue (currentLengthRemaining_ w)).
  - rewrite bind_reset. intros H; inversion H; subst. apply keeps_afterReset.
  - apply writeToStream_keeps.
Qed.

Lemma onCancel_keeps w w' r : onCancel w = Some (w', r) -> keeps w w'.
Proof.
  unfold onCancel. rewrite bind_get. destruct (hasValue (writeHandle_ w)).
  - rewrite reset_eq. intros H; inversion H; subst. apply keeps_afterReset.
  - intros H; inversion H; subst. apply keeps_refl.
Qed.

Lemma step_subgroup_effect op w w' :
  subgroupOp op = true ->
  step T op w = Some w' ->
  keeps w w' \/ exists i, opObjectID op = Some i /\ wrote i w w'.
Proof.
  intros Hop Hs. destruct op; try discriminate Hop; simpl in Hs;
    apply discard_inv in Hs as [r Hs]; simpl.
  - apply object_effect in Hs as [? | ?]; eauto.
  - apply publishStatus_effect in Hs as [? | ?]; eauto.
  - apply beginObject_effect in Hs as [? | ?]; eauto.
  - left. eapply objectPayload_keeps; eauto.
  - apply publishStatus_effect in Hs as [? | ?]; eauto.
  - apply publishStatus_effect in Hs as [? | ?]; eauto.
  - left. eapply endOfSubgroup_keeps; eauto.
  - apply publishStatus_effect in Hs as [? | ?]; eauto.
  - left. rewrite reset_eq in Hs. inversion Hs; subst. apply keeps_afterReset.
  - left. eapply onCancel_keeps; eauto.
Qed.

(** *** Strictly increasing object IDs *)

Lemma StronglySorted_snoc {A} (R : A -> A -> Prop) l y :
  StronglySorted R l -> Forall (fun x => R x y) l ->
  StronglySorted R (l ++ [y]).
Proof.
  induction 1 as [| a l Hs IH Ha]; intros Hall; simpl.
  - constructor; constructor.
  - inversion Hall; subst. constructor; [auto |].
    apply Forall_app. split; [assumption |]. constructor; [assumption | constructor].
Qed.

Lemma idsIncrease_keeps w w' : keeps w w' -> idsIncrease w -> idsIncrease w'.
Proof.
  intros (Hp & Hi & _) (Hs & Hall). unfold idsIncrease.
  rewrite Hp, Hi. auto.
Qed.

Lemma idsIncrease_wrote i w w' :
  i <> UINT64_MAX -> wrote i w w' -> idsIncrease w -> idsIncrease w'.
Proof.
  intros Hmax (Hi & (h & Hp & Hh & _) & Hi' & _) (Hs & Hall).
  unfold idsIncrease. rewrite Hp, Hi', map_app. simpl. split.
  - apply StronglySorted_snoc; [assumption |].
    apply List.Forall_map. eapply List.Forall_impl; [| exact Hall].
    intros a [Ha1 Ha2]. simpl. rewrite Hh. lia.
  - apply Forall_app. split.
    + eapply List.Forall_impl; [| exact Hall]. intros a [Ha1 Ha2]. simpl. lia.
    + constructor; [| constructor]. lia.
Qed.

Lemma run_subgroup_idsIncrease ops : forall w w',
  Forall (fun op => subgroupOp op = true) ops ->
  Forall belowSentinel ops ->
  run T ops w = Some w' ->
  idsIncrease w -> idsIncrease w'.
Proof.
  induction ops as [| op ops IH]; intros w w' Hsub Hid Hrun Hinv; simpl in Hrun.
  - inversion Hrun; subst. assumption.
  - inversion Hsub; subst. inversion Hid; subst.
    destruct (step T op w) as [w1 |] eqn:Hstep; [| discriminate].
    apply (IH w1 w'); auto.
    apply step_subgroup_effect in Hstep as [Hk | (i & Hi & Hw)]; auto.
    + eapply idsIncrease_keeps; eauto.
    + eapply idsIncrease_wrote; eauto.
Qed.

Lemma idsIncrease_newSubgroup sid h alias g sg :
  idsIncrease (newSubgroup sid h alias g sg).
Proof.
  assert (published (newSubgroup sid h alias g sg) = []) as Hp.
  { unfold newSubgroup, setGroupAndSubgroup. simpl.
    destruct (g <? 0); [reflexivity |]. destruct (0 <? g); reflexivity. }
  unfold idsIncrease. rewrite Hp. split; constructor.
Qed.

Lemma written_prefix w :
  published w = written w ++ flat_map frameObjects (writeBuf_ w).
Proof. reflexivity. Qed.

(** *** C4 *)

Lemma stale_refused {A} i (k : M A) w :
  stale i w -> refused (bind (validatePublish i) (fun _ => k)) w.
Proof.
  intros Hst.
  destruct (validatePublish_cases i w)
    as [(_ & Hr & Hi & _) | [(m & E & _) | (_ & Hr & Hi & _)]].
  - exfalso. destruct Hst as [[H1 H2] | H]; [lia |].
    rewrite Hr in H. discriminate.
  - exists (afterReset ResetStreamErrorCode.INTERNAL_ERROR w), m.
    split; [apply reset_eq |]. unfold bind. rewrite E. reflexivity.
  - exfalso. destruct Hst as [[H1 H2] | H]; [lia |].
    rewrite Hr in H. discriminate.
Qed.

(** C4, as amended.  On a subgroup stream writer, a call to [object], to
    [publishStatus] and the status methods built on it, or to
    [beginObject], whose object ID is less than or equal to the last one
    while the last one is not the initial sentinel, or which arrives while
    an object is in progress, runs [reset(INTERNAL_ERROR)] and returns
    API_ERROR; [reset] clears the handle and, when the handle was live,
    calls [resetStream] with that code on the transport; and so the object
    IDs a subgroup writer hands to the transport are strictly increasing,
    whatever sequence of calls the application makes, provided none of them
    passes the sentinel 2^64-1 as an object ID. *)
Theorem subgroup_object_ids_strictly_increasing :
  (forall w i, stale i w ->
     (forall p fin, refused (object T i p fin) w) /\
     (forall st fin, refused (publishStatus T i st fin) w) /\
     (forall fin, refused (objectNotExists T i fin) w) /\
     refused (endOfGroup T i) w /\
     refused (endOfTrackAndGroup T i) w /\
     (forall len p, refused (beginObject T i len p) w)) /\
  (forall w w' e h,
     reset e w = Some (w', Value tt) ->
     writeHandle_ w = Some h ->
     writeHandle_ w' = None /\
     calls_ w' = calls_ w ++ [ResetStream h e; OnStreamComplete (header_ w)]) /\
  (forall sid h alias g sg ops w',
     Forall (fun op => subgroupOp op = true) ops ->
     Forall belowSentinel ops ->
     run T ops (newSubgroup sid h alias g sg) = Some w' ->
     StronglySorted Z.lt (map ObjectHeader.id (written w'))).
Proof.
  split; [| split].
  - intros w i Hst. repeat split; intros; apply stale_refused; assumption.
  - intros w w' e h Hr Hh. rewrite reset_eq in Hr. inversion Hr; subst.
    split; [apply writeHandle_afterReset | apply calls_afterReset_live; assumption].
  - intros sid h alias g sg ops w' Hsub Hid Hrun.
    pose proof (run_subgroup_idsIncrease ops _ _ Hsub Hid Hrun
                  (idsIncrease_newSubgroup sid h alias g sg)) as [Hs _].
    rewrite written_prefix, map_app in Hs.
    eapply StronglySorted_app_1_l. exact Hs.
Qed.

(** *** C5: length accounting of a multi-chunk object *)










(** *** Fetch streams: what one call does *)

Lemma setGroupAndSubgroup_cases g sg w :
  (g < ObjectHeader.group (header_ w) /\
   setGroupAndSubgroup g sg w = (w, false)) \/
  (exists w',
     setGroupAndSubgroup g sg w = (w', true) /\
     ObjectHeader.group (header_ w) <= g /\
     published w' = published w /\
     ObjectHeader.group (header_ w') = g /\
     ObjectHeader.subgroup (header_ w') = sg /\
     ObjectHeader.id (header_ w') =
       (if ObjectHeader.group (header_ w) <? g then UINT64_MAX
        else ObjectHeader.id (header_ w))).
Proof.
  unfold setGroupAndSubgroup.
  destruct (g <? ObjectHeader.group (header_ w)) eqn:E1.
  - left. apply Z.ltb_lt in E1. auto.
  - right. apply Z.ltb_ge in E1. eexists. split; [reflexivity |].
    destruct (ObjectHeader.group (header_ w) <? g); repeat split; auto.
Qed.

Lemma after_checkGroup {A} g sg (k : M A) w w' r :
  bind (checkGroupAndSubgroup g sg) (fun _ => k) w = Some (w', r) ->
  (w' = w /\ g < ObjectHeader.group (header_ w) /\
   r = Unexpected (MoQPublishError.mk MoQPublishError.API_ERROR
                     "Group moved back")) \/
  (exists wm, setGroupAndSubgroup g sg w = (wm, true) /\
              k wm = Some (w', r)).
Proof.
  unfold bind at 1, checkGroupAndSubgroup.
  destruct (setGroupAndSubgroup_cases g sg w) as [(Hlt & E) | (wm & E & _)];
    rewrite E; simpl.
  - intros H. inversion H; subst. left. auto.
  - intros H. right. eauto.
Qed.

Lemma endOfFetch_keeps w w' r : endOfFetch T w = Some (w', r) -> keeps w w'.
Proof.
  unfold endOfFetch. rewrite bind_get. destruct (hasValue (writeHandle_ w)).
  - apply endOfSubgroup_keeps.
  - intros H; inversion H; subst. apply keeps_refl.
Qed.

(** A call of the fetch interface first moves [header_] to the group and
    subgroup it names (or is refused, or names none), then publishes at
    most one object. *)
Lemma step_fetch_effect op w w' :
  fetchOp op = true ->
  step T op w = Some w' ->
  exists wm,
    (wm = w \/ exists g sg, setGroupAndSubgroup g sg w = (wm, true)) /\
    (keeps wm w' \/ exists i, opObjectID op = Some i /\ wrote i wm w').
Proof.
  intros Hop Hs. destruct op; try discriminate Hop; simpl in Hs;
    apply discard_inv in Hs as [r Hs]; simpl.
  - exists w. split; [auto |]. left. eapply objectPayload_keeps; eauto.
  - exists w. split; [auto |]. left.
    rewrite reset_eq in Hs. inversion Hs; subst. apply keeps_afterReset.
  - exists w. split; [auto |]. left. eapply onCancel_keeps; eauto.
  - apply after_checkGroup in Hs as [(-> & _) | (wm & E & Hs)];
      [exists w; split; [auto | left; apply keeps_refl] |].
    exists wm. split; [eauto |]. rewrite bind_modify in Hs.
    apply object_effect in Hs as [Hk | Hw].
    + left. eapply keeps_trans; [| exact Hk]. repeat split.
    + right. exists objectID. split; [reflexivity |].
      destruct Hw as (H1 & H2 & H3 & H4). repeat split; assumption.
  - apply after_checkGroup in Hs as [(-> & _) | (wm & E & Hs)];
      [exists w; split; [auto | left; apply keeps_refl] |].
    exists wm. split; [eauto |].
    apply publishStatus_effect in Hs as [? | ?]; eauto.
  - apply after_checkGroup in Hs as [(-> & _) | (wm & E & Hs)];
      [exists w; split; [auto | left; apply keeps_refl] |].
    exists wm. split; [eauto |].
    apply publishStatus_effect in Hs as [? | ?]; eauto.
  - apply after_checkGroup in Hs as [(-> & _) | (wm & E & Hs)];
      [exists w; split; [auto | left; apply keeps_refl] |].
    exists wm. split; [eauto |]. rewrite bind_modify in Hs.
    apply beginObject_effect in Hs as [Hk | Hw].
    + left. eapply keeps_trans; [| exact Hk]. repeat split.
    + right. exists objectID. split; [reflexivity |].
      destruct Hw as (H1 & H2 & H3 & H4). repeat split; assumption.
  - apply after_checkGroup in Hs as [(-> & _) | (wm & E & Hs)];
      [exists w; split; [auto | left; apply keeps_refl] |].
    exists wm. split; [eauto |].
    apply publishStatus_effect in Hs as [? | ?]; eauto.
  - apply after_checkGroup in Hs as [(-> & _) | (wm & E & Hs)];
      [exists w; split; [auto | left; apply keeps_refl] |].
    exists wm. split; [eauto |].
    apply publishStatus_effect in Hs as [? | ?]; eauto.
  - exists w. split; [auto |]. left. eapply endOfFetch_keeps; eauto.
Qed.

(** *** Fetch streams: groups never regress *)

Lemma groupsAscend_keeps w w' : keeps w w' -> groupsAscend w -> groupsAscend w'.
Proof.
  intros (Hp & _ & Hg) (Hs & Hall). unfold groupsAscend. rewrite Hp, Hg. auto.
Qed.

Lemma groupsAscend_wrote i w w' :
  wrote i w w' -> groupsAscend w -> groupsAscend w'.
Proof.
  intros (_ & (h & Hp & _ & Hh) & _ & Hg) (Hs & Hall).
  unfold groupsAscend. rewrite Hp, Hg, map_app. simpl. split.
  - apply StronglySorted_snoc; [assumption |].
    apply List.Forall_map. eapply List.Forall_impl; [| exact Hall].
    intros a Ha. simpl in *. lia.
  - apply Forall_app. split; [assumption |].
    constructor; [lia | constructor].
Qed.

Lemma groupsAscend_setGroup g sg w wm :
  setGroupAndSubgroup g sg w = (wm, true) -> groupsAscend w -> groupsAscend wm.
Proof.
  intros E (Hs & Hall).
  destruct (setGroupAndSubgroup_cases g sg w)
    as [(_ & E') | (w' & E' & Hge & Hp & Hg & _)]; rewrite E in E';
    inversion E'; subst w'.
  unfold groupsAscend. rewrite Hp, Hg. split; [assumption |].
  eapply List.Forall_impl; [| exact Hall]. intros a Ha. simpl in *. lia.
Qed.

Lemma pairsIncrease_keeps w w' :
  keeps w w' -> pairsIncrease w -> pairsIncrease w'.
Proof.
  intros (Hp & Hi & Hg) (Hs & Hall). unfold pairsIncrease.
  rewrite Hp, Hi, Hg. auto.
Qed.

Lemma pairsIncrease_wrote i w w' :
  i <> UINT64_MAX -> wrote i w w' -> pairsIncrease w -> pairsIncrease w'.
Proof.
  intros Hmax (Hi & (h & Hp & Hhi & Hhg) & Hi' & Hg) (Hs & Hall).
  unfold pairsIncrease. rewrite Hp, Hi', Hg, map_app. simpl. split.
  - apply StronglySorted_snoc; [assumption |].
    apply List.Forall_map. eapply List.Forall_impl; [| exact Hall].
    intros a Ha. unfold pair_lt, groupAndId. simpl in *. lia.
  - apply Forall_app. split.
    + eapply List.Forall_impl; [| exact Hall]. intros a Ha. simpl in *. lia.
    + constructor; [| constructor]. lia.
Qed.

Lemma pairsIncrease_setGroup g sg w wm :
  setGroupAndSubgroup g sg w = (wm, true) -> pairsIncrease w -> pairsIncrease wm.
Proof.
  intros E (Hs & Hall).
  destruct (setGroupAndSubgroup_cases g sg w)
    as [(_ & E') | (w' & E' & Hge & Hp & Hg & _ & Hi)]; rewrite E in E';
    inversion E'; subst w'.
  unfold pairsIncrease. rewrite Hp, Hg, Hi. split; [assumption |].
  eapply List.Forall_impl; [| exact Hall]. intros a Ha. simpl in *.
  destruct (ObjectHeader.group (header_ w) <? g) eqn:Hlt.
  - apply Z.ltb_lt in Hlt. lia.
  - apply Z.ltb_ge in Hlt. assert (g = ObjectHeader.group (header_ w)) by lia.
    subst g. lia.
Qed.

Lemma run_fetch_groupsAscend ops : forall w w',
  Forall (fun op => fetchOp op = true) ops ->
  run T ops w = Some w' ->
  groupsAscend w -> groupsAscend w'.
Proof.
  induction ops as [| op ops IH]; intros w w' Hf Hrun Hinv; simpl in Hrun.
  - inversion Hrun; subst. assumption.
  - inversion Hf; subst.
    destruct (step T op w) as [w1 |] eqn:Hstep; [| discriminate].
    apply (IH w1 w'); auto.
    apply step_fetch_effect in Hstep as (wm & Hm & Heff); auto.
    assert (groupsAscend wm) as Hwm.
    { destruct Hm as [-> | (g & sg & E)]; [assumption |].
      eapply groupsAscend_setGroup; eauto. }
    destruct Heff as [Hk | (i & _ & Hw)].
    + eapply groupsAscend_keeps; eauto.
    + eapply groupsAscend_wrote; eauto.
Qed.

Lemma run_fetch_pairsIncrease ops : forall w w',
  Forall (fun op => fetchOp op = true) ops ->
  Forall belowSentinel ops ->
  run T ops w = Some w' ->
  pairsIncrease w -> pairsIncrease w'.
Proof.
  induction ops as [| op ops IH]; intros w w' Hf Hid Hrun Hinv; simpl in Hrun.
  - inversion Hrun; subst. assumption.
  - inversion Hf; subst. inversion Hid; subst.
    destruct (step T op w) as [w1 |] eqn:Hstep; [| discriminate].
    apply (IH w1 w'); auto.
    apply step_fetch_effect in Hstep as (wm & Hm & Heff); auto.
    assert (pairsIncrease wm) as Hwm.
    { destruct Hm as [-> | (g & sg & E)]; [assumption |].
      eapply pairsIncrease_setGroup; eauto. }
    destruct Heff as [Hk | (i & Hi & Hw)].
    + eapply pairsIncrease_keeps; eauto.
    + eapply pairsIncrease_wrote; eauto.
Qed.

Lemma lower_group_movedBack {A} g sg (k : M A) w :
  g < ObjectHeader.group (header_ w) ->
  movedBack (bind (checkGroupAndSubgroup g sg) (fun _ => k)) w.
Proof.
  intros Hlt. unfold movedBack, bind at 1, checkGroupAndSubgroup,
    setGroupAndSubgroup.
  apply Z.ltb_lt in Hlt. rewrite Hlt. reflexivity.
Qed.

(** C6, as amended.  On a fetch stream writer the group numbers of the
    objects handed to the transport never go down, whatever calls the
    application makes and whatever group order the fetch agreed on, and
    the (group, object ID) pairs increase strictly when no ID is the
    sentinel; the subgroup is not compared.  A call that names a group
    below the current one is refused with API_ERROR and changes nothing; a
    call that names a higher group sets [header_.id] back to the
    sentinel. *)
Theorem fetch_group_numbers_never_regress :
  (forall w g sg, g < ObjectHeader.group (header_ w) ->
     (forall i p fin, movedBack (FetchConsumer_object T g sg i p fin) w) /\
     (forall i fin, movedBack (FetchConsumer_objectNotExists T g sg i fin) w) /\
     (forall fin, movedBack (FetchConsumer_groupNotExists T g sg fin) w) /\
     (forall i len p, movedBack (FetchConsumer_beginObject T g sg i len p) w) /\
     (forall i fin, movedBack (FetchConsumer_endOfGroup T g sg i fin) w) /\
     (forall i, movedBack (FetchConsumer_endOfTrackAndGroup T g sg i) w)) /\
  (forall w g sg, ObjectHeader.group (header_ w) < g ->
     exists w',
       setGroupAndSubgroup g sg w = (w', true) /\
       ObjectHeader.id (header_ w') = UINT64_MAX /\
       ObjectHeader.group (header_ w') = g /\
       ObjectHeader.subgroup (header_ w') = sg) /\
  (forall fp fp' wt h o w ops w',
     Publisher.beginFetch wt (Some h) o fp = (fp', Value tt) ->
     Publisher.streamPublisher_ fp' = Some w ->
     Forall (fun op => fetchOp op = true) ops ->
     run T ops w = Some w' ->
     Publisher.groupOrder_ fp' = o /\
     StronglySorted Z.le (map ObjectHeader.group (written w')) /\
     (Forall belowSentinel ops ->
      StronglySorted pair_lt (map groupAndId (written w')))).
Proof.
  split; [| split].
  - intros w g sg Hlt. repeat split; intros; apply lower_group_movedBack;
      assumption.
  - intros w g sg Hlt.
    destruct (setGroupAndSubgroup_cases g sg w)
      as [(Hlt' & _) | (w' & E & _ & _ & Hg & Hsg & Hi)]; [lia |].
    exists w'. apply Z.ltb_lt in Hlt. rewrite Hlt in Hi. auto.
  - intros fp fp' wt h o w ops w' Hb Hw Hf Hrun.
    unfold Publisher.beginFetch in Hb. destruct (negb wt); [discriminate |].
    inversion Hb; subst fp'; clear Hb. simpl in Hw. inversion Hw; subst w.
    split; [reflexivity |].
    assert (published (newFetch (Publisher.subscribeID_ fp) h) = []) as Hp
      by reflexivity.
    split.
    + assert (groupsAscend (newFetch (Publisher.subscribeID_ fp) h)) as H0.
      { unfold groupsAscend. rewrite Hp. split; constructor. }
      pose proof (run_fetch_groupsAscend ops _ _ Hf Hrun H0) as [Hs _].
      rewrite written_prefix, map_app in Hs.
      eapply StronglySorted_app_1_l. exact Hs.
    + intros Hid.
      assert (pairsIncrease (newFetch (Publisher.subscribeID_ fp) h)) as H0.
      { unfold pairsIncrease. rewrite Hp. split; constructor. }
      pose proof (run_fetch_pairsIncrease ops _ _ Hf Hid Hrun H0) as [Hs _].
      rewrite written_prefix, map_app in Hs.
      eapply StronglySorted_app_1_l. exact Hs.
Qed.

End WithTransport.

(** *** Concrete runs *)

Lemma belowSentinel_intro op :
  match opObjectID op with
  | Some i => i <? UINT64_MAX
  | None => true
  end = true ->
  belowSentinel op.
Proof.
  intros H i Hi. rewrite Hi in H. apply Z.ltb_lt in H. lia.
Qed.

(** After [object(3, "abc", false)], a second [object(3, ...)] is refused,
    and the IDs 3, 5 written around a refused 4-after-5 are increasing. *)
Lemma subgroup_object_ids_strictly_increasing_witness :
  refused (object alwaysAccepts 3 None false)
          (runOn [Object 3 abc false] subgroup7) /\
  refused (beginObject alwaysAccepts 9 2 abc)
          (runOn [BeginObject 3 5 abc] subgroup7) /\
  map ObjectHeader.id
      (written (runOn [Object 3 abc false; Object 5 abc false] subgroup7)) =
    [3; 5] /\
  StronglySorted Z.lt
    (map ObjectHeader.id
       (written (runOn [Object 3 abc false; Object 5 abc false] subgroup7))).
Proof.
  destruct (subgroup_object_ids_strictly_increasing alwaysAccepts)
    as (Hrefuse & _ & Hsorted).
  split; [| split; [| split]].
  - apply (Hrefuse (runOn [Object 3 abc false] subgroup7) 3).
    left. split; vm_compute; discriminate.
  - apply (Hrefuse (runOn [BeginObject 3 5 abc] subgroup7) 9).
    right. vm_compute. reflexivity.
  - vm_compute. reflexivity.
  - apply (Hsorted 0 4 0 7 0 [Object 3 abc false; Object 5 abc false]).
    + repeat constructor.
    + repeat constructor; apply belowSentinel_intro; vm_compute; reflexivity.
    + vm_compute. reflexivity.
Defined.

(** C4, counterexample.  On a new subgroup writer the calls [object(5)],
    [object(2^64-1)] and [object(3)] are all accepted: after the second
    one [header_.id] is the value that stands for "nothing written yet", so
    the third ID is not compared with it.  The object IDs handed to the
    transport are 5, 2^64-1, 3, which do not increase. *)
Lemma subgroup_ids_regress_after_sentinel :
  object alwaysAccepts 5 abc false subgroup7 =
    Some (runOn [Object 5 abc false] subgroup7, Value tt) /\
  object alwaysAccepts UINT64_MAX abc false
    (runOn [Object 5 abc false] subgroup7) =
    Some (runOn [Object 5 abc false; Object UINT64_MAX abc false] subgroup7,
          Value tt) /\
  object alwaysAccepts 3 abc false
    (runOn [Object 5 abc false; Object UINT64_MAX abc false] subgroup7) =
    Some (runOn [Object 5 abc false; Object UINT64_MAX abc false;
                 Object 3 abc false] subgroup7,
          Value tt) /\
  map ObjectHeader.id
    (written (runOn [Object 5 abc false; Object UINT64_MAX abc false;
                     Object 3 abc false] subgroup7)) =
    [5; UINT64_MAX; 3] /\
  ~ StronglySorted Z.lt
      (map ObjectHeader.id
         (written (runOn [Object 5 abc false; Object UINT64_MAX abc false;
                          Object 3 abc false] subgroup7))).
Proof.
  split; [vm_compute; reflexivity |].
  split; [vm_compute; reflexivity |].
  split; [vm_compute; reflexivity |].
  assert (map ObjectHeader.id
            (written (runOn [Object 5 abc false; Object UINT64_MAX abc false;
                             Object 3 abc false] subgroup7)) =
          [5; UINT64_MAX; 3]) as E by (vm_compute; reflexivity).
  split; [exact E |]. rewrite E. intros H.
  apply StronglySorted_inv in H as [H _].
  apply StronglySorted_inv in H as [_ H].
  inversion H as [| x l Hlt _]; subst. unfold UINT64_MAX in Hlt. lia.
Qed.



(** C6, counterexample.  With NewestFirst agreed, the writer accepts
    group 1 and then group 2, which is the reverse of the agreed order;
    with OldestFirst agreed it accepts (1, 5, 0) and then (1, 3, 1), where
    the subgroup goes down inside group 1: neither sequence of tuples is
    non-decreasing in the agreed group order. *)
Lemma fetch_tuples_not_in_agreed_order :
  (Publisher.groupOrder_
     (fst (Publisher.beginFetch true (Some 4) NewestFirst fetchPublisher0)) =
     NewestFirst /\
   map tuple
     (written (runOn [FetchObject 1 0 0 abc false; FetchObject 2 0 0 abc false]
                     (fetchWriter NewestFirst))) =
     [(1, 0, 0); (2, 0, 0)] /\
   FetchOrderSpec.spec_non_decreasing NewestFirst [(1, 0, 0); (2, 0, 0)] = false /\
   FetchOrderSpec.spec_groups_in_order NewestFirst [1; 2] = false) /\
  (map tuple
     (written (runOn [FetchObject 1 5 0 abc false; FetchObject 1 3 1 abc false]
                     (fetchWriter OldestFirst))) =
     [(1, 5, 0); (1, 3, 1)] /\
   FetchOrderSpec.spec_non_decreasing OldestFirst [(1, 5, 0); (1, 3, 1)] = false).
Proof. repeat split; vm_compute; reflexivity. Qed.

(** On the NewestFirst fetch stream, a call for group 1 after group 2 is
    refused, and the groups written by 1, 2, (refused 1), 2 ascend. *)
Lemma fetch_group_numbers_never_regress_witness :
  movedBack (FetchConsumer_object alwaysAccepts 1 0 7 abc false)
            (runOn [FetchObject 2 0 0 abc false] (fetchWriter NewestFirst)) /\
  map ObjectHeader.group
    (written (runOn [FetchObject 1 0 0 abc false; FetchObject 2 9 0 abc false;
                     FetchObject 1 0 1 abc false; FetchObject 2 3 1 abc false]
                    (fetchWriter NewestFirst))) = [1; 2; 2] /\
  StronglySorted Z.le
    (map ObjectHeader.group
       (written (runOn [FetchObject 1 0 0 abc false; FetchObject 2 9 0 abc false;
                        FetchObject 1 0 1 abc false; FetchObject 2 3 1 abc false]
                       (fetchWriter NewestFirst)))) /\
  StronglySorted pair_lt
    (map groupAndId
       (written (runOn [FetchObject 1 0 0 abc false; FetchObject 2 9 0 abc false;
                        FetchObject 1 0 1 abc false; FetchObject 2 3 1 abc false]
                       (fetchWriter NewestFirst)))).
Proof.
  destruct (fetch_group_numbers_never_regress alwaysAccepts)
    as (Hback & _ & Hrun).
  split; [| split].
  - apply (Hback (runOn [FetchObject 2 0 0 abc false] (fetchWriter NewestFirst))
             1 0).
    vm_compute. reflexivity.
  - vm_compute. reflexivity.
  - destruct (Hrun fetchPublisher0
                (fst (Publisher.beginFetch true (Some 4) NewestFirst
                        fetchPublisher0))
                true 4 NewestFirst (fetchWriter NewestFirst)
                [FetchObject 1 0 0 abc false; FetchObject 2 9 0 abc false;
                 FetchObject 1 0 1 abc false; FetchObject 2 3 1 abc false]
                (runOn [FetchObject 1 0 0 abc false; FetchObject 2 9 0 abc false;
                        FetchObject 1 0 1 abc false; FetchObject 2 3 1 abc false]
                       (fetchWriter NewestFirst)))
      as (_ & Hgroups & Hpairs);
      [vm_compute; reflexivity | vm_compute; reflexivity | repeat constructor
      | vm_compute; reflexivity |].
    split; [exact Hgroups |].
    apply Hpairs. repeat constructor; apply belowSentinel_intro; vm_compute; reflexivity.
Defined.

End WriterFacts.

(** ** Facts about the session *)

Module SessionFacts.
Import Session SessionProps.

Lemma quiet_refl s : quiet s s.
Proof. repeat split. Qed.

Lemma quiet_trans s1 s2 s3 : quiet s1 s2 -> quiet s2 s3 -> quiet s1 s3.
Proof.
  unfold quiet. intros (? & ? & ? & ? & ?) (? & ? & ? & ? & ?).
  repeat split; congruence.
Qed.

Section WithCodec.
Variable write : list ControlFrame -> ControlFrame -> bool.

Lemma writeFrame_cases f s :
  (write (controlWriteBuf_ s) f = true /\
   writeFrame write f s =
     (set_controlWriteBuf (controlWriteBuf_ s ++ [f]) s, true)) \/
  (write (controlWriteBuf_ s) f = false /\ writeFrame write f s = (s, false)).
Proof. unfold writeFrame. destruct (write _ f); auto. Qed.

Lemma quiet_writeFrame f s : quiet s (fst (writeFrame write f s)).
Proof.
  destruct (writeFrame_cases f s) as [(_ & ->) | (_ & ->)]; repeat split.
Qed.

Lemma counters_writeFrame f s :
  counters (fst (writeFrame write f s)) = counters s /\
  pubTracks_ (fst (writeFrame write f s)) = pubTracks_ s.
Proof.
  destruct (writeFrame_cases f s) as [(_ & ->) | (_ & ->)]; split; reflexivity.
Qed.

Lemma sendMaxSubscribeID_frame b s :
  quiet s (sendMaxSubscribeID write b s) /\
  counters (sendMaxSubscribeID write b s) = counters s /\
  pubTracks_ (sendMaxSubscribeID write b s) = pubTracks_ s /\
  controlWriteBuf_ (sendMaxSubscribeID write b s) =
    (let f := MaxSubscribeIdFrame (MaxSubscribeId.mk (maxSubscribeID_ s)) in
     if write (controlWriteBuf_ s) f then controlWriteBuf_ s ++ [f]
     else controlWriteBuf_ s).
Proof.
  unfold sendMaxSubscribeID.
  destruct (writeFrame_cases
              (MaxSubscribeIdFrame (MaxSubscribeId.mk (maxSubscribeID_ s))) s)
    as [(E & ->) | (E & ->)]; simpl; rewrite E; destruct b; repeat split.
Qed.

Lemma retireSubscribeId_frame b s :
  quiet s (retireSubscribeId write b s) /\
  counters (retireSubscribeId write b s) = retireCounters (counters s) /\
  pubTracks_ (retireSubscribeId write b s) = pubTracks_ s.
Proof.
  unfold retireSubscribeId, retireCounters, counters. simpl.
  destruct (maxConcurrentSubscribes_ s / 2 <=? uint64 (closedSubscribes_ s + 1)).
  - match goal with |- context [sendMaxSubscribeID write b ?x] =>
      destruct (sendMaxSubscribeID_frame b x) as (Hq & Hc & Hp & _) end.
    split; [| split].
    + eapply quiet_trans; [| exact Hq]. repeat split.
    + unfold counters in Hc. rewrite Hc. reflexivity.
    + rewrite Hp. reflexivity.
  - repeat split.
Qed.

Lemma quiet_fetchComplete i s : quiet s (fetchComplete write i s).
Proof.
  unfold fetchComplete. destruct (pubTracks_ s !! i); [| apply quiet_refl].
  eapply quiet_trans; [| apply retireSubscribeId_frame]. repeat split.
Qed.

Lemma quiet_resetPublisher e p s : quiet s (resetPublisher write e p s).
Proof.
  unfold resetPublisher. destruct p as [tp | fp]; [apply quiet_refl |].
  destruct (hasValue _); [apply quiet_fetchComplete | apply quiet_refl].
Qed.

Lemma quiet_resetAll e (l : list (Z * PublisherImpl)) : forall s,
  quiet s (fold_left (fun acc entry => resetPublisher write e (snd entry) acc)
                     l s).
Proof.
  induction l as [| x l IH]; intros s; simpl; [apply quiet_refl |].
  eapply quiet_trans; [apply quiet_resetPublisher | apply IH].
Qed.

(** [cleanup] empties the publisher map and queues nothing. *)
Lemma cleanup_frame s :
  pubTracks_ (cleanup write s) = ∅ /\
  wt_ (cleanup write s) = wt_ s /\
  closeSessionCalls_ (cleanup write s) = closeSessionCalls_ s /\
  controlMessages_ (cleanup write s) = controlMessages_ s.
Proof.
  unfold cleanup. simpl.
  destruct (quiet_resetAll ResetStreamErrorCode.SESSION_CLOSED
              (map_to_list (pubTracks_ s)) s) as (H1 & H2 & H3 & _).
  repeat split; assumption.
Qed.

(** What [close(error)] does: nothing on a session without transport;
    otherwise it detaches the transport, empties the publisher map and
    calls [closeSession(error)] once. *)
Lemma close_closed error s : wt_ s = false -> close write error s = s.
Proof. intros H. unfold close. rewrite H. reflexivity. Qed.

Lemma close_open error s :
  wt_ s = true ->
  wt_ (close write error s) = false /\
  pubTracks_ (close write error s) = ∅ /\
  closeSessionCalls_ (close write error s) = closeSessionCalls_ s ++ [error] /\
  controlMessages_ (close write error s) = controlMessages_ s.
Proof.
  intros H. unfold close. rewrite H.
  destruct (cleanup_frame (set_wt false s)) as (Hp & Hw & Hc & Hm).
  unfold set_cancellationRequested, set_closeSessionCalls.
  cbn [wt_ pubTracks_ closeSessionCalls_ controlMessages_].
  rewrite Hp, Hw, Hc, Hm. repeat split.
Qed.

Lemma close_frame error s :
  wt_ (close write error s) = false /\
  controlMessages_ (close write error s) = controlMessages_ s /\
  (forall i p, pubTracks_ (close write error s) !! i = Some p ->
               pubTracks_ s !! i = Some p).
Proof.
  destruct (wt_ s) eqn:H.
  - destruct (close_open error s H) as (Hw & Hp & _ & Hm).
    rewrite Hw, Hp, Hm. repeat split. intros i p Hi.
    rewrite lookup_empty in Hi. discriminate.
  - rewrite close_closed by assumption. auto.
Qed.

(** *** C2 *)

(** C2.  An inbound SUBSCRIBE or FETCH whose subscribeID is not below
    maxSubscribeID does exactly what [close(TOO_MANY_SUBSCRIBES)] does: the
    session has no transport afterwards, a session that was open has called
    [closeSession(TOO_MANY_SUBSCRIBES)], no entry is added to the publisher
    map and nothing is queued for the application.  A SUBSCRIBE or FETCH
    that is queued for the application had an ID below maxSubscribeID when
    it was received. *)
Theorem over_limit_subscribe_closes_session
    (INVALID_RANGE : Z)
    (locationLess : AbsoluteLocation -> AbsoluteLocation -> bool) :
  (forall s (m : SubscribeRequest.t) (f : Fetch.t),
     let TOO_MANY := SessionCloseErrorCode.TOO_MANY_SUBSCRIBES in
     (maxSubscribeID_ s <= SubscribeRequest.subscribeID m ->
      onSubscribe write m s = close write TOO_MANY s) /\
     (maxSubscribeID_ s <= Fetch.subscribeID f ->
      onFetch write INVALID_RANGE locationLess f s = close write TOO_MANY s) /\
     wt_ (close write TOO_MANY s) = false /\
     (wt_ s = true ->
      closeSessionCalls_ (close write TOO_MANY s) =
        closeSessionCalls_ s ++ [TOO_MANY]) /\
     (forall i p, pubTracks_ (close write TOO_MANY s) !! i = Some p ->
                  pubTracks_ s !! i = Some p) /\
     controlMessages_ (close write TOO_MANY s) = controlMessages_ s) /\
  (forall s (m : SubscribeRequest.t),
     controlMessages_ (onSubscribe write m s) =
       controlMessages_ s ++ [OfSubscribeRequest m] ->
     SubscribeRequest.subscribeID m < maxSubscribeID_ s) /\
  (forall s (f : Fetch.t),
     controlMessages_ (onFetch write INVALID_RANGE locationLess f s) =
       controlMessages_ s ++ [OfFetch f] ->
     Fetch.subscribeID f < maxSubscribeID_ s).
Proof.
  split; [| split].
  - intros s m f TOO_MANY.
    destruct (close_frame TOO_MANY s) as (Hw & Hm & Hp).
    split; [| split; [| split; [| split; [| split]]]]; auto.
    + intros Hle. unfold onSubscribe, closeSessionIfSubscribeIdInvalid.
      apply Z.leb_le in Hle. rewrite Hle. reflexivity.
    + intros Hle. unfold onFetch, closeSessionIfSubscribeIdInvalid.
      apply Z.leb_le in Hle. rewrite Hle. reflexivity.
    + intros Hopen. apply (close_open TOO_MANY s Hopen).
  - intros s m Hq.
    destruct (Z.lt_ge_cases (SubscribeRequest.subscribeID m) (maxSubscribeID_ s))
      as [Hlt | Hge]; [assumption | exfalso].
    unfold onSubscribe, closeSessionIfSubscribeIdInvalid in Hq.
    apply Z.leb_le in Hge. rewrite Hge in Hq.
    destruct (close_frame SessionCloseErrorCode.TOO_MANY_SUBSCRIBES s)
      as (_ & Hm & _).
    rewrite Hm in Hq. apply (f_equal (@List.length _)) in Hq.
    rewrite length_app in Hq. simpl in Hq. lia.
  - intros s f Hq.
    destruct (Z.lt_ge_cases (Fetch.subscribeID f) (maxSubscribeID_ s))
      as [Hlt | Hge]; [assumption | exfalso].
    unfold onFetch, closeSessionIfSubscribeIdInvalid in Hq.
    apply Z.leb_le in Hge. rewrite Hge in Hq.
    destruct (close_frame SessionCloseErrorCode.TOO_MANY_SUBSCRIBES s)
      as (_ & Hm & _).
    rewrite Hm in Hq. apply (f_equal (@List.length _)) in Hq.
    rewrite length_app in Hq. simpl in Hq. lia.
Qed.

(** *** C3 *)

Lemma retireSubscribeId_buffer b s :
  controlWriteBuf_ (retireSubscribeId write b s) =
  (let closed := uint64 (closedSubscribes_ s + 1) in
   if maxConcurrentSubscribes_ s / 2 <=? closed then
     let f := MaxSubscribeIdFrame
                (MaxSubscribeId.mk (uint64 (maxSubscribeID_ s + closed))) in
     if write (controlWriteBuf_ s) f then controlWriteBuf_ s ++ [f]
     else controlWriteBuf_ s
   else controlWriteBuf_ s).
Proof.
  unfold retireSubscribeId. simpl.
  destruct (maxConcurrentSubscribes_ s / 2 <=? uint64 (closedSubscribes_ s + 1));
    [| reflexivity].
  match goal with |- context [sendMaxSubscribeID write b ?x] =>
    destruct (sendMaxSubscribeID_frame b x) as (_ & _ & _ & Hb) end.
  rewrite Hb. reflexivity.
Qed.

Lemma uint64_small x : 0 <= x < 2 ^ 64 -> uint64 x = x.
Proof. intros H. unfold uint64. apply Z.mod_small. exact H. Qed.

(** The local completions that retire a subscribe ID do it through
    [retireSubscribeId]. *)
Lemma subscribeError_retires e s p :
  pubTracks_ s !! SubscribeError.subscribeID e = Some p ->
  counters (subscribeError write e s) = retireCounters (counters s).
Proof.
  intros H. unfold subscribeError. rewrite H.
  match goal with |- context [writeFrame write ?f ?x] =>
    pose proof (counters_writeFrame f x) as [Hc _];
    destruct (writeFrame write f x) as [s2 res] end.
  simpl in Hc.
  destruct (retireSubscribeId_frame false s2) as (_ & Hr & _).
  destruct res; simpl; unfold counters in *; simpl; rewrite Hr, Hc; reflexivity.
Qed.

Lemma subscribeDone_retires d s p :
  pubTracks_ s !! SubscribeDone.subscribeID d = Some p ->
  write (controlWriteBuf_ s) (SubscribeDoneFrame d) = true ->
  counters (subscribeDone write d s) = retireCounters (counters s).
Proof.
  intros H Hw. unfold subscribeDone, writeFrame. rewrite H. simpl.
  rewrite Hw. simpl.
  match goal with |- context [retireSubscribeId write false ?x] =>
    destruct (retireSubscribeId_frame false x) as (_ & Hr & _) end.
  unfold counters in *. simpl in *. rewrite Hr. reflexivity.
Qed.

Lemma fetchComplete_retires i s p :
  pubTracks_ s !! i = Some p ->
  counters (fetchComplete write i s) = retireCounters (counters s).
Proof.
  intros H. unfold fetchComplete. rewrite H.
  match goal with |- context [retireSubscribeId write true ?x] =>
    destruct (retireSubscribeId_frame true x) as (_ & Hr & _) end.
  rewrite Hr. reflexivity.
Qed.

Lemma retire_keeps_window b s :
  maxConcurrentSubscribes_ (retireSubscribeId write b s) =
  maxConcurrentSubscribes_ s.
Proof.
  destruct (retireSubscribeId_frame b s) as (_ & Hr & _).
  unfold counters, retireCounters in Hr.
  destruct (_ <=? _) in Hr; injection Hr; auto.
Qed.

Lemma retire_at_threshold b s :
  0 <= closedSubscribes_ s -> 0 <= maxSubscribeID_ s ->
  maxSubscribeID_ s + (closedSubscribes_ s + 1) < 2 ^ 64 ->
  maxConcurrentSubscribes_ s / 2 <= closedSubscribes_ s + 1 ->
  maxSubscribeID_ (retireSubscribeId write b s) =
    maxSubscribeID_ s + (closedSubscribes_ s + 1) /\
  closedSubscribes_ (retireSubscribeId write b s) = 0 /\
  (write (controlWriteBuf_ s)
     (MaxSubscribeIdFrame
        (MaxSubscribeId.mk (maxSubscribeID_ s + (closedSubscribes_ s + 1))))
     = true ->
   controlWriteBuf_ (retireSubscribeId write b s) =
     controlWriteBuf_ s ++
     [MaxSubscribeIdFrame
        (MaxSubscribeId.mk (maxSubscribeID_ s + (closedSubscribes_ s + 1)))]).
Proof.
  intros Hc Hm Hsum Hth.
  destruct (retireSubscribeId_frame b s) as (_ & Hr & _).
  pose proof (retireSubscribeId_buffer b s) as Hb.
  unfold counters, retireCounters in Hr. cbv zeta in Hb.
  rewrite (uint64_small (closedSubscribes_ s + 1)) in Hr, Hb by lia.
  rewrite (uint64_small (maxSubscribeID_ s + _)) in Hr, Hb by lia.
  apply Z.leb_le in Hth. rewrite Hth in Hr, Hb.
  injection Hr as H1 _ H3. split; [exact H1 |]. split; [exact H3 |].
  intros Hw. rewrite Hb, Hw. reflexivity.
Qed.

Lemma retire_below_threshold b s :
  0 <= closedSubscribes_ s -> 0 <= maxSubscribeID_ s ->
  maxSubscribeID_ s + (closedSubscribes_ s + 1) < 2 ^ 64 ->
  closedSubscribes_ s + 1 < maxConcurrentSubscribes_ s / 2 ->
  maxSubscribeID_ (retireSubscribeId write b s) = maxSubscribeID_ s /\
  closedSubscribes_ (retireSubscribeId write b s) = closedSubscribes_ s + 1 /\
  controlWriteBuf_ (retireSubscribeId write b s) = controlWriteBuf_ s.
Proof.
  intros Hc Hm Hsum Hth.
  destruct (retireSubscribeId_frame b s) as (_ & Hr & _).
  pose proof (retireSubscribeId_buffer b s) as Hb.
  unfold counters, retireCounters in Hr. cbv zeta in Hb.
  rewrite (uint64_small (closedSubscribes_ s + 1)) in Hr, Hb by lia.
  apply Z.leb_gt in Hth. rewrite Hth in Hr, Hb.
  injection Hr as H1 _ H3. auto.
Qed.

(** C3.  When [retireSubscribeId] brings closedSubscribes to at least
    maxConcurrentSubscribes / 2, maxSubscribeID grows by the new
    closedSubscribes, closedSubscribes goes back to 0, and a
    MAX_SUBSCRIBE_ID message carrying the new maxSubscribeID is appended to
    the control buffer (when the codec frames it); below the threshold only
    the counter moves.  SUBSCRIBE_ERROR, SUBSCRIBE_DONE and the end of a
    fetch stream retire through this function.  With
    maxConcurrentSubscribes = 10 and maxSubscribeID = 10, five retirements
    from 0 issue MAX_SUBSCRIBE_ID = 15 once and leave the counter at 0.
    The counters are 64-bit; the sums are supposed not to wrap. *)
Theorem retirement_issues_max_subscribe_id :
  (forall b s,
     let closed := closedSubscribes_ s + 1 in
     0 <= closedSubscribes_ s -> 0 <= maxSubscribeID_ s ->
     maxSubscribeID_ s + closed < 2 ^ 64 ->
     (maxConcurrentSubscribes_ s / 2 <= closed ->
      maxSubscribeID_ (retireSubscribeId write b s) = maxSubscribeID_ s + closed /\
      closedSubscribes_ (retireSubscribeId write b s) = 0 /\
      (write (controlWriteBuf_ s)
         (MaxSubscribeIdFrame (MaxSubscribeId.mk (maxSubscribeID_ s + closed)))
         = true ->
       controlWriteBuf_ (retireSubscribeId write b s) =
         controlWriteBuf_ s ++
         [MaxSubscribeIdFrame
            (MaxSubscribeId.mk (maxSubscribeID_ s + closed))])) /\
     (closed < maxConcurrentSubscribes_ s / 2 ->
      maxSubscribeID_ (retireSubscribeId write b s) = maxSubscribeID_ s /\
      closedSubscribes_ (retireSubscribeId write b s) = closed /\
      controlWriteBuf_ (retireSubscribeId write b s) = controlWriteBuf_ s)) /\
  (forall s p,
     (forall e, pubTracks_ s !! SubscribeError.subscribeID e = Some p ->
        counters (subscribeError write e s) =
        counters (retireSubscribeId write false s)) /\
     (forall d, pubTracks_ s !! SubscribeDone.subscribeID d = Some p ->
        write (controlWriteBuf_ s) (SubscribeDoneFrame d) = true ->
        counters (subscribeDone write d s) =
        counters (retireSubscribeId write false s)) /\
     (forall i, pubTracks_ s !! i = Some p ->
        counters (fetchComplete write i s) =
        counters (retireSubscribeId write true s))) /\
  (forall b s,
     (forall buf f, write buf f = true) ->
     maxConcurrentSubscribes_ s = 10 -> maxSubscribeID_ s = 10 ->
     closedSubscribes_ s = 0 ->
     let s' := Nat.iter 5 (retireSubscribeId write b) s in
     maxSubscribeID_ s' = 15 /\ closedSubscribes_ s' = 0 /\
     controlWriteBuf_ s' =
       controlWriteBuf_ s ++ [MaxSubscribeIdFrame (MaxSubscribeId.mk 15)]).
Proof.
  split; [| split].
  - intros b s closed Hc Hm Hsum. subst closed. split.
    + intros Hth. apply retire_at_threshold; assumption.
    + intros Hth. apply retire_below_threshold; assumption.
  - intros s p. repeat split.
    + intros e H. rewrite (subscribeError_retires e s p H).
      symmetry. apply retireSubscribeId_frame.
    + intros d H Hw. rewrite (subscribeDone_retires d s p H Hw).
      symmetry. apply retireSubscribeId_frame.
    + intros i H. rewrite (fetchComplete_retires i s p H).
      symmetry. apply retireSubscribeId_frame.
  - intros b s Hw Hmc Hmax Hcl. simpl.
    assert (forall k x,
              maxConcurrentSubscribes_ x = 10 -> maxSubscribeID_ x = 10 ->
              closedSubscribes_ x = k -> 0 <= k < 4 ->
              maxConcurrentSubscribes_ (retireSubscribeId write b x) = 10 /\
              maxSubscribeID_ (retireSubscribeId write b x) = 10 /\
              closedSubscribes_ (retireSubscribeId write b x) = k + 1 /\
              controlWriteBuf_ (retireSubscribeId write b x) =
                controlWriteBuf_ x) as Hstep.
    { intros k x H1 H2 H3 Hk.
      destruct (retire_below_threshold b x) as (Ha & Hb & Hc);
        [lia | lia | lia | rewrite H1, H3; change (10 / 2) with 5; lia |].
      rewrite (retire_keeps_window b x), Ha, Hb, Hc, H1, H2, H3. auto. }
    destruct (Hstep 0 s Hmc Hmax Hcl ltac:(lia)) as (A1 & B1 & C1 & D1).
    destruct (Hstep 1 _ A1 B1 C1 ltac:(lia)) as (A2 & B2 & C2 & D2).
    destruct (Hstep 2 _ A2 B2 C2 ltac:(lia)) as (A3 & B3 & C3 & D3).
    destruct (Hstep 3 _ A3 B3 C3 ltac:(lia)) as (A4 & B4 & C4 & D4).
    set (s4 := retireSubscribeId write b
                 (retireSubscribeId write b
                    (retireSubscribeId write b (retireSubscribeId write b s))))
      in *.
    simpl in C4.
    destruct (retire_at_threshold b s4) as (Ha & Hb & Hc);
      [lia | lia | lia | rewrite A4, C4; change (10 / 2) with 5; lia |].
    rewrite Ha, Hb, Hc by apply Hw. rewrite B4, C4, D4, D3, D2, D1.
    repeat split.
Qed.

(** *** Replies to a duplicate subscribeID *)

Lemma subscribeError_frame e s p :
  pubTracks_ s !! SubscribeError.subscribeID e = Some p ->
  quiet s (subscribeError write e s) /\
  (write (controlWriteBuf_ s) (SubscribeErrorFrame e) = true ->
   exists rest,
     controlWriteBuf_ (subscribeError write e s) =
     controlWriteBuf_ s ++ SubscribeErrorFrame e :: rest).
Proof.
  intros H. unfold subscribeError. rewrite H.
  match goal with |- context [writeFrame write ?f ?x] =>
    destruct (writeFrame_cases f x) as [(E & ->) | (E & ->)] end;
    simpl in E; rewrite E.
  - match goal with |- context [retireSubscribeId write false ?x] =>
      destruct (retireSubscribeId_frame false x) as (Hq & _);
      pose proof (retireSubscribeId_buffer false x) as Hb end.
    cbv zeta in Hb. simpl in Hb. split.
    + eapply quiet_trans; [| eapply quiet_trans; [exact Hq |]]; repeat split.
    + intros _. simpl. rewrite Hb.
      repeat match goal with |- context [if ?c then _ else _] => destruct c end;
        rewrite <- ?app_assoc; simpl; eauto.
  - split; [| discriminate].
    match goal with |- context [retireSubscribeId write false ?x] =>
      destruct (retireSubscribeId_frame false x) as (Hq & _) end.
    eapply quiet_trans; [| exact Hq]. repeat split.
Qed.

Lemma fetchError_frame e s :
  quiet s (fetchError write e s) /\
  counters (fetchError write e s) = counters s /\
  controlWriteBuf_ (fetchError write e s) =
    (if write (controlWriteBuf_ s) (FetchErrorFrame e)
     then controlWriteBuf_ s ++ [FetchErrorFrame e]
     else controlWriteBuf_ s).
Proof.
  unfold fetchError.
  match goal with |- context [writeFrame write ?f ?x] =>
    destruct (writeFrame_cases f x) as [(E & ->) | (E & ->)] end;
    simpl in E; rewrite E; repeat split.
Qed.

(** C8, as amended.  An inbound SUBSCRIBE or FETCH whose subscribeID is
    already in the publisher map closes the session, with
    TOO_MANY_SUBSCRIBES, only when that ID is not below maxSubscribeID.
    Otherwise the session stays open and queues nothing for the
    application: a SUBSCRIBE is answered as [subscribeError] with code 400
    does, a FETCH as [fetchError] does, with code 400 or, when its end
    precedes its start, with INVALID_RANGE; the reply is framed into the
    control buffer when the codec accepts it. *)
Theorem duplicate_subscribe_id_is_answered_with_an_error
    (INVALID_RANGE : Z)
    (locationLess : AbsoluteLocation -> AbsoluteLocation -> bool) :
  forall s p,
    (forall m : SubscribeRequest.t,
       let i := SubscribeRequest.subscribeID m in
       let reply := SubscribeError.mk i 400 "dup sub ID" None in
       pubTracks_ s !! i = Some p ->
       (maxSubscribeID_ s <= i ->
        onSubscribe write m s =
          close write SessionCloseErrorCode.TOO_MANY_SUBSCRIBES s) /\
       (i < maxSubscribeID_ s ->
        onSubscribe write m s = subscribeError write reply s /\
        quiet s (onSubscribe write m s) /\
        (write (controlWriteBuf_ s) (SubscribeErrorFrame reply) = true ->
         exists rest,
           controlWriteBuf_ (onSubscribe write m s) =
           controlWriteBuf_ s ++ SubscribeErrorFrame reply :: rest))) /\
    (forall f : Fetch.t,
       let i := Fetch.subscribeID f in
       let reply :=
         if locationLess (Fetch.end_ f) (Fetch.start f)
         then FetchError.mk i INVALID_RANGE "End must be after start"
         else FetchError.mk i 400 "dup sub ID" in
       pubTracks_ s !! i = Some p ->
       (maxSubscribeID_ s <= i ->
        onFetch write INVALID_RANGE locationLess f s =
          close write SessionCloseErrorCode.TOO_MANY_SUBSCRIBES s) /\
       (i < maxSubscribeID_ s ->
        onFetch write INVALID_RANGE locationLess f s = fetchError write reply s /\
        quiet s (onFetch write INVALID_RANGE locationLess f s) /\
        (write (controlWriteBuf_ s) (FetchErrorFrame reply) = true ->
         controlWriteBuf_ (onFetch write INVALID_RANGE locationLess f s) =
         controlWriteBuf_ s ++ [FetchErrorFrame reply]))).
Proof.
  intros s p. split.
  - intros m i reply Hdup. split.
    + intros Hge. unfold onSubscribe, closeSessionIfSubscribeIdInvalid.
      apply Z.leb_le in Hge. fold i. rewrite Hge. reflexivity.
    + intros Hlt.
      assert (onSubscribe write m s = subscribeError write reply s) as E.
      { unfold onSubscribe, closeSessionIfSubscribeIdInvalid. fold i.
        apply Z.leb_gt in Hlt. rewrite Hlt, Hdup. reflexivity. }
      rewrite E. split; [reflexivity |].
      apply (subscribeError_frame reply s p). exact Hdup.
  - intros f i reply Hdup. split.
    + intros Hge. unfold onFetch, closeSessionIfSubscribeIdInvalid.
      apply Z.leb_le in Hge. fold i. rewrite Hge. reflexivity.
    + intros Hlt.
      assert (onFetch write INVALID_RANGE locationLess f s =
              fetchError write reply s) as E.
      { unfold onFetch, closeSessionIfSubscribeIdInvalid. fold i.
        apply Z.leb_gt in Hlt. rewrite Hlt. subst reply.
        destruct (locationLess _ _); [reflexivity |].
        rewrite Hdup. reflexivity. }
      rewrite E. destruct (fetchError_frame reply s) as (Hq & _ & Hb).
      split; [reflexivity |]. split; [exact Hq |].
      intros Hw. rewrite Hb, Hw. reflexivity.
Qed.

(** *** Outbound requests *)

(** C9, as amended.  [subscribe] and [fetch] allocate the current
    nextSubscribeID and increment it; peerMaxSubscribeID is neither
    changed nor a bound on the ID: the request goes into the control buffer
    under that ID whenever the codec frames it and the ID is not already in
    the receive maps, whatever peerMaxSubscribeID is. *)
Theorem outbound_ids_are_not_bounded_by_peer_max :
  (forall s sub cb s' r,
     subscribe write sub cb s = Some (s', r) ->
     let i := nextSubscribeID_ s in
     let request :=
       SubscribeRequestFrame
         (SubscribeRequest.mk i i (SubscribeRequest.fullTrackName sub)
            (SubscribeRequest.priority sub) (SubscribeRequest.groupOrder sub)) in
     nextSubscribeID_ s' = uint64 (i + 1) /\
     peerMaxSubscribeID_ s' = peerMaxSubscribeID_ s /\
     ((r = Value i /\ controlWriteBuf_ s' = controlWriteBuf_ s ++ [request]) \/
      (r = Unexpected (SubscribeError.mk i 500 "local write failed" None) /\
       controlWriteBuf_ s' = controlWriteBuf_ s))) /\
  (forall s f cb s' r,
     fetch write f cb s = Some (s', r) ->
     let i := nextSubscribeID_ s in
     let request :=
       FetchFrame
         (Fetch.mk i (Fetch.fullTrackName f) (Fetch.priority f)
            (Fetch.groupOrder f) (Fetch.start f) (Fetch.end_ f)) in
     nextSubscribeID_ s' = uint64 (i + 1) /\
     peerMaxSubscribeID_ s' = peerMaxSubscribeID_ s /\
     ((r = Value i /\ controlWriteBuf_ s' = controlWriteBuf_ s ++ [request]) \/
      (r = Unexpected (FetchError.mk i 500 "local write failed") /\
       controlWriteBuf_ s' = controlWriteBuf_ s))) /\
  (forall s sub cb,
     (forall buf f, write buf f = true) ->
     subIdToTrackAlias_ s !! nextSubscribeID_ s = None ->
     subTracks_ s !! nextSubscribeID_ s = None ->
     exists s', subscribe write sub cb s = Some (s', Value (nextSubscribeID_ s))) /\
  (forall s f cb,
     (forall buf fr, write buf fr = true) ->
     fetches_ s !! nextSubscribeID_ s = None ->
     exists s', fetch write f cb s = Some (s', Value (nextSubscribeID_ s))).
Proof.
  split; [| split; [| split]].
  - intros s sub cb s' r H i request. unfold subscribe in H.
    match type of H with context [writeFrame write ?f ?x] =>
      destruct (writeFrame_cases f x) as [(E & Hw) | (E & Hw)];
      rewrite Hw in H; clear Hw end; simpl in H.
    + destruct (subIdToTrackAlias_ s !! nextSubscribeID_ s); [discriminate |].
      destruct (subTracks_ s !! nextSubscribeID_ s); [discriminate |].
      inversion H; subst. repeat split. left. split; reflexivity.
    + inversion H; subst. repeat split. right. split; reflexivity.
  - intros s f cb s' r H i request. unfold fetch in H.
    match type of H with context [writeFrame write ?fr ?x] =>
      destruct (writeFrame_cases fr x) as [(E & Hw) | (E & Hw)];
      rewrite Hw in H; clear Hw end; simpl in H.
    + destruct (fetches_ s !! nextSubscribeID_ s); [discriminate |].
      inversion H; subst. repeat split. left. split; reflexivity.
    + inversion H; subst. repeat split. right. split; reflexivity.
  - intros s sub cb Hw H1 H2. unfold subscribe, writeFrame.
    rewrite Hw. simpl. rewrite H1, H2. eauto.
  - intros s f cb Hw H1. unfold fetch, writeFrame.
    rewrite Hw. simpl. rewrite H1. eauto.
Qed.

(** *** A session that advertised no MAX_SUBSCRIBE_ID *)

Lemma getMaxSubscribeIdIfPresent_absent key params :
  Forall (fun param => SetupParameter.key param <> key) params ->
  getMaxSubscribeIdIfPresent key params = 0.
Proof.
  induction 1 as [| param params Hk _ IH]; simpl; [reflexivity |].
  apply Z.eqb_neq in Hk. rewrite Hk. exact IH.
Qed.

Lemma noCredit_close error s : noCredit s -> noCredit (close write error s).
Proof.
  intros [Hm Hp]. unfold close. destruct (wt_ s); [| split; assumption].
  unfold cleanup. cbn [pubTracks_ set_wt]. rewrite Hp, map_to_list_empty.
  split; [exact Hm | reflexivity].
Qed.

Lemma noCredit_writeFrame f s :
  noCredit s -> noCredit (fst (writeFrame write f s)).
Proof.
  intros H. destruct (writeFrame_cases f s) as [(_ & ->) | (_ & ->)]; exact H.
Qed.

Lemma noCredit_checkForCloseOnDrain s :
  noCredit s -> noCredit (checkForCloseOnDrain write s).
Proof.
  intros H. unfold checkForCloseOnDrain.
  destruct (_ && _); [apply noCredit_close |]; exact H.
Qed.

Section Handlers.
Variable INVALID_RANGE FETCH_INTERNAL_ERROR : Z.
Variable locationLess : AbsoluteLocation -> AbsoluteLocation -> bool.

Lemma noCredit_handle e s s' :
  noCredit s -> unsignedIDs e ->
  handle write INVALID_RANGE FETCH_INTERNAL_ERROR locationLess e s = Some s' ->
  noCredit s'.
Proof.
  intros Hinv Hwf H. pose proof Hinv as [Hm Hp].
  destruct e; simpl in H, Hwf.
  - inversion H; subst. unfold onSubscribe, closeSessionIfSubscribeIdInvalid.
    rewrite Hm. apply Z.leb_le in Hwf. rewrite Hwf.
    apply noCredit_close. exact Hinv.
  - inversion H; subst. unfold onSubscribeUpdate.
    rewrite Hp, lookup_empty. exact Hinv.
  - inversion H; subst. split; assumption.
  - inversion H; subst. unfold onMaxSubscribeId.
    destruct (_ <? _); [split; assumption | apply noCredit_close; exact Hinv].
  - inversion H; subst. unfold onFetch, closeSessionIfSubscribeIdInvalid.
    rewrite Hm. apply Z.leb_le in Hwf. rewrite Hwf.
    apply noCredit_close. exact Hinv.
  - inversion H; subst. unfold onFetchCancel.
    rewrite Hp, lookup_empty. exact Hinv.
  - inversion H; subst. unfold onSubscribeOk.
    repeat (match goal with |- context [match ?x with _ => _ end] =>
              destruct x end); split; assumption.
  - inversion H; subst. unfold onSubscribeError.
    repeat (match goal with |- context [match ?x with _ => _ end] =>
              destruct x end);
      try apply noCredit_checkForCloseOnDrain; split; assumption.
  - inversion H; subst. unfold onSubscribeDone.
    repeat (match goal with |- context [match ?x with _ => _ end] =>
              destruct x end);
      try apply noCredit_checkForCloseOnDrain; split; assumption.
  - inversion H; subst. unfold onFetchOk.
    repeat (match goal with |- context [match ?x with _ => _ end] =>
              destruct x end);
      try apply noCredit_checkForCloseOnDrain; split; assumption.
  - inversion H; subst. unfold onFetchError.
    repeat (match goal with |- context [match ?x with _ => _ end] =>
              destruct x end);
      try apply noCredit_checkForCloseOnDrain; split; assumption.
  - inversion H; subst. unfold unsubscribe.
    destruct (subIdToTrackAlias_ s !! _); [| exact Hinv].
    destruct (subTracks_ s !! _); [| exact Hinv].
    match goal with |- context [writeFrame write ?f ?x] =>
      assert (noCredit x) as Hx by (split; assumption);
      pose proof (noCredit_writeFrame f x Hx) as Hw;
      destruct (writeFrame write f x) as [s2 res] end.
    simpl in Hw. destruct res; exact Hw.
  - inversion H; subst. unfold fetchCancel.
    destruct (fetches_ s !! _); [| exact Hinv].
    match goal with |- context [writeFrame write ?f ?x] =>
      assert (noCredit x) as Hx
        by (destruct (fetchOkAndAllDataReceived _);
            try apply noCredit_checkForCloseOnDrain; split; assumption);
      pose proof (noCredit_writeFrame f x Hx) as Hw;
      destruct (writeFrame write f x) as [s2 res] end.
    simpl in Hw. destruct res; exact Hw.
  - inversion H; subst. unfold subscribeUpdate.
    destruct (subIdToTrackAlias_ s !! _); [| exact Hinv].
    destruct (subTracks_ s !! _); [| exact Hinv].
    pose proof (noCredit_writeFrame (SubscribeUpdateFrame m) s Hinv) as Hw.
    destruct (writeFrame write (SubscribeUpdateFrame m) s) as [s2 res].
    simpl in Hw. destruct res; exact Hw.
  - inversion H; subst. unfold subscribeOk. rewrite Hp, lookup_empty. exact Hinv.
  - inversion H; subst. unfold subscribeError.
    rewrite Hp, lookup_empty. exact Hinv.
  - inversion H; subst. unfold subscribeDone.
    rewrite Hp, lookup_empty. exact Hinv.
  - inversion H; subst. unfold fetchOk. rewrite Hp, lookup_empty. exact Hinv.
  - inversion H; subst. unfold fetchError.
    match goal with |- context [writeFrame write ?f ?x] =>
      assert (noCredit x) as Hx
        by (split; [exact Hm | cbn [pubTracks_ set_pubTracks];
                               rewrite Hp; apply delete_empty]);
      pose proof (noCredit_writeFrame f x Hx) as Hw;
      destruct (writeFrame write f x) as [s2 res] end.
    simpl in Hw. destruct res; exact Hw.
  - inversion H; subst. unfold fetchComplete.
    rewrite Hp, lookup_empty. exact Hinv.
  - destruct (subscribe write m callback s) as [[s1 r] |] eqn:E;
      inversion H; subst. unfold subscribe in E.
    match type of E with context [writeFrame write ?f ?x] =>
      assert (noCredit x) as Hx by (split; assumption);
      pose proof (noCredit_writeFrame f x Hx) as Hw;
      destruct (writeFrame write f x) as [s2 res] end.
    simpl in Hw. destruct res; simpl in E.
    + destruct (subIdToTrackAlias_ s2 !! nextSubscribeID_ s); [discriminate |].
      destruct (subTracks_ s2 !! nextSubscribeID_ s); [discriminate |].
      inversion E; subst. exact Hw.
    + inversion E; subst. exact Hw.
  - destruct (fetch write m fetchCallback s) as [[s1 r] |] eqn:E;
      inversion H; subst. unfold fetch in E.
    match type of E with context [writeFrame write ?f ?x] =>
      assert (noCredit x) as Hx by (split; assumption);
      pose proof (noCredit_writeFrame f x Hx) as Hw;
      destruct (writeFrame write f x) as [s2 res] end.
    simpl in Hw. destruct res; simpl in E.
    + destruct (fetches_ s2 !! nextSubscribeID_ s); [discriminate |].
      inversion E; subst. exact Hw.
    + inversion E; subst. exact Hw.
  - inversion H; subst. unfold drain.
    apply noCredit_checkForCloseOnDrain. split; assumption.
  - inversion H; subst. apply noCredit_close. exact Hinv.
Qed.

Lemma noCredit_handleAll es : forall s s',
  noCredit s -> Forall unsignedIDs es ->
  handleAll write INVALID_RANGE FETCH_INTERNAL_ERROR locationLess es s = Some s' ->
  noCredit s'.
Proof.
  induction es as [| e es IH]; intros s s' Hinv Hwf H; simpl in H.
  - inversion H; subst. exact Hinv.
  - inversion Hwf; subst.
    destruct (handle write INVALID_RANGE FETCH_INTERNAL_ERROR locationLess e s)
      as [s1 |] eqn:E; [| discriminate].
    apply (IH s1 s'); [| assumption | exact H].
    apply (noCredit_handle e s s1); assumption.
Qed.

(** C10.  [getMaxSubscribeIdIfPresent] is 0 on parameters without the
    MAX_SUBSCRIBE_ID key.  A client whose CLIENT_SETUP, or a server whose
    SERVER_SETUP, carries no such parameter therefore sets its
    maxSubscribeID (and maxConcurrentSubscribes) to 0, whatever they were,
    when the setup message is framed: [setup], and [onClientSetup], return
    with the message in the control buffer and both fields 0.  From then on, through any sequence of inbound subscribe
    and fetch messages, calls of the application and ends of fetch streams,
    maxSubscribeID stays 0 and every inbound SUBSCRIBE or FETCH, whatever
    its (unsigned) subscribeID, does what [close(TOO_MANY_SUBSCRIBES)]
    does: a session still open calls [closeSession(TOO_MANY_SUBSCRIBES)]
    and ends without transport. *)
Theorem no_max_subscribe_id_parameter_means_zero
    (kVersionDraftCurrent MAX_SUBSCRIBE_ID : Z) :
  let absent params :=
    Forall (fun param => SetupParameter.key param <> MAX_SUBSCRIBE_ID) params in
  let TOO_MANY := SessionCloseErrorCode.TOO_MANY_SUBSCRIBES in
  (forall params, absent params ->
     getMaxSubscribeIdIfPresent MAX_SUBSCRIBE_ID params = 0) /\
  (forall s cs,
     absent (ClientSetup.params cs) ->
     dir_ s = CLIENT ->
     write (controlWriteBuf_ s) (ClientSetupFrame cs) = true ->
     exists s',
       setup write MAX_SUBSCRIBE_ID cs s = Some (s', true) /\
       controlWriteBuf_ s' = controlWriteBuf_ s ++ [ClientSetupFrame cs] /\
       maxSubscribeID_ s' = 0 /\ maxConcurrentSubscribes_ s' = 0 /\
       pubTracks_ s' = pubTracks_ s) /\
  (forall s cs ss,
     absent (ServerSetup.params ss) ->
     dir_ s = SERVER ->
     In kVersionDraftCurrent (ClientSetup.supportedVersions cs) ->
     write (controlWriteBuf_ s) (ServerSetupFrame ss) = true ->
     exists s',
       onClientSetup write kVersionDraftCurrent MAX_SUBSCRIBE_ID cs (Some ss) s
         = Some s' /\
       setupComplete_ s' = true /\
       maxSubscribeID_ s' = 0 /\ maxConcurrentSubscribes_ s' = 0 /\
       pubTracks_ s' = pubTracks_ s) /\
  (forall s es s',
     maxSubscribeID_ s = 0 -> pubTracks_ s = ∅ ->
     Forall unsignedIDs es ->
     handleAll write INVALID_RANGE FETCH_INTERNAL_ERROR locationLess es s
       = Some s' ->
     maxSubscribeID_ s' = 0 /\
     (forall m : SubscribeRequest.t,
        0 <= SubscribeRequest.subscribeID m ->
        onSubscribe write m s' = close write TOO_MANY s') /\
     (forall f : Fetch.t,
        0 <= Fetch.subscribeID f ->
        onFetch write INVALID_RANGE locationLess f s' = close write TOO_MANY s') /\
     wt_ (close write TOO_MANY s') = false /\
     (wt_ s' = true ->
      closeSessionCalls_ (close write TOO_MANY s') =
        closeSessionCalls_ s' ++ [TOO_MANY])).
Proof.
  intros absent TOO_MANY. split; [| split; [| split]].
  - intros params H. apply getMaxSubscribeIdIfPresent_absent. exact H.
  - intros s cs Habs Hdir Hw. unfold setup, writeFrame. rewrite Hdir.
    cbn [controlWriteBuf_ set_setupPromise]. rewrite Hw. cbn [negb].
    rewrite (getMaxSubscribeIdIfPresent_absent _ _ Habs).
    eexists. split; [reflexivity |]. repeat split.
  - intros s cs ss Habs Hdir Hver Hw.
    unfold onClientSetup, writeFrame. rewrite Hdir.
    assert (existsb (fun v => v =? kVersionDraftCurrent)
              (ClientSetup.supportedVersions cs) = true) as Hex.
    { apply existsb_exists. exists kVersionDraftCurrent.
      split; [exact Hver | apply Z.eqb_refl]. }
    rewrite Hex. simpl. rewrite Hw.
    rewrite (getMaxSubscribeIdIfPresent_absent _ _ Habs).
    eexists. split; [reflexivity |]. repeat split.
  - intros s es s' Hm Hp Hwf H.
    destruct (noCredit_handleAll es s s' (conj Hm Hp) Hwf H) as [Hm' Hp'].
    split; [exact Hm' |]. split; [| split; [| split]].
    + intros m Hid. unfold onSubscribe, closeSessionIfSubscribeIdInvalid.
      rewrite Hm'. apply Z.leb_le in Hid. rewrite Hid. reflexivity.
    + intros f Hid. unfold onFetch, closeSessionIfSubscribeIdInvalid.
      rewrite Hm'. apply Z.leb_le in Hid. rewrite Hid. reflexivity.
    + apply close_frame.
    + intros Hopen. apply (close_open TOO_MANY s' Hopen).
Qed.

End Handlers.

End WithCodec.

(** *** Concrete sessions *)

(** Scenario S5: maxSubscribeID = 4 and the peer sends SUBSCRIBE with
    ID 4; a SUBSCRIBE with ID 3 is queued. *)
Lemma over_limit_subscribe_closes_session_witness :
  onSubscribe alwaysWrites (subscribeRequest 4) (established 4 ∅) =
    close alwaysWrites SessionCloseErrorCode.TOO_MANY_SUBSCRIBES
      (established 4 ∅) /\
  closeSessionCalls_
    (close alwaysWrites SessionCloseErrorCode.TOO_MANY_SUBSCRIBES
       (established 4 ∅)) = [SessionCloseErrorCode.TOO_MANY_SUBSCRIBES] /\
  controlMessages_
    (close alwaysWrites SessionCloseErrorCode.TOO_MANY_SUBSCRIBES
       (established 4 ∅)) = [] /\
  3 < maxSubscribeID_ (established 4 ∅).
Proof.
  destruct (over_limit_subscribe_closes_session alwaysWrites
              exampleInvalidRange exampleLess) as (Hclose & Hsub & _).
  destruct (Hclose (established 4 ∅) (subscribeRequest 4)
              (fetchRequest 4 (0, 0) (1, 0)))
    as (H1 & _ & _ & H4 & _ & H6).
  split; [| split; [| split]].
  - apply H1. vm_compute. discriminate.
  - apply H4. reflexivity.
  - exact H6.
  - apply (Hsub (established 4 ∅) (subscribeRequest 3)).
    vm_compute. reflexivity.
Defined.

Lemma retirement_issues_max_subscribe_id_witness :
  (let s' := Nat.iter 5 (retireSubscribeId alwaysWrites false)
               (established 10 ∅) in
   maxSubscribeID_ s' = 15 /\ closedSubscribes_ s' = 0 /\
   controlWriteBuf_ s' = [MaxSubscribeIdFrame (MaxSubscribeId.mk 15)]) /\
  (let s' := retireSubscribeId alwaysWrites false
               (set_closedSubscribes 4 (established 10 ∅)) in
   maxSubscribeID_ s' = 10 + (4 + 1) /\ closedSubscribes_ s' = 0) /\
  option_map
    (fun s' => (counters s',
                List.filter (fun f => match f with
                                      | MaxSubscribeIdFrame _ => true
                                      | _ => false
                                      end) (controlWriteBuf_ s')))
    (handleAll alwaysWrites exampleInvalidRange exampleInternalError
       exampleLess fiveTerminations (established 10 fivePublishers)) =
  Some ((15, 10, 0), [MaxSubscribeIdFrame (MaxSubscribeId.mk 15)]).
Proof.
  destruct (retirement_issues_max_subscribe_id alwaysWrites)
    as (Hstep & _ & Hfive).
  split; [| split].
  - apply (Hfive false (established 10 ∅)); reflexivity.
  - destruct (Hstep false (set_closedSubscribes 4 (established 10 ∅)))
      as [Hat _]; [vm_compute; discriminate | vm_compute; discriminate
                  | vm_compute; reflexivity |].
    destruct Hat as (H1 & H2 & _); [vm_compute; discriminate |].
    split; [exact H1 | exact H2].
  - vm_compute. reflexivity.
Defined.

(** C7 (code defect).  [fetchError] never touches the counters of the
    credit protocol: a local FETCH_ERROR does not increment
    closedSubscribes, with or without publisher state.  On the session of
    scenario S4, an inbound FETCH whose end precedes its start is answered
    with FETCH_ERROR and leaves closedSubscribes at 0, and so does a
    FETCH_ERROR for the accepted fetch 0, while the sibling reply
    SUBSCRIBE_ERROR for subscription 0 brings it to 1. *)
Theorem fetchError_does_not_retire :
  (forall write e s, counters (fetchError write e s) = counters s) /\
  (let s' := onFetch alwaysWrites exampleInvalidRange exampleLess
               (fetchRequest 0 (5, 0) (3, 0)) (established 10 ∅) in
   controlWriteBuf_ s' =
     [FetchErrorFrame
        (FetchError.mk 0 exampleInvalidRange "End must be after start")] /\
   closedSubscribes_ s' = 0) /\
  (let s1 := onFetch alwaysWrites exampleInvalidRange exampleLess
               (fetchRequest 0 (3, 0) (5, 0)) (established 10 ∅) in
   let s2 := fetchError alwaysWrites (FetchError.mk 0 404 "") s1 in
   is_Some (pubTracks_ s1 !! 0) /\ pubTracks_ s2 !! 0 = None /\
   closedSubscribes_ s2 = 0) /\
  (let s1 := onSubscribe alwaysWrites (subscribeRequest 0) (established 10 ∅) in
   let s2 := subscribeError alwaysWrites (SubscribeError.mk 0 404 "" None) s1 in
   is_Some (pubTracks_ s1 !! 0) /\ pubTracks_ s2 !! 0 = None /\
   closedSubscribes_ s2 = 1).
Proof.
  split; [| split; [| split]].
  - intros write e s. apply fetchError_frame.
  - vm_compute. split; reflexivity.
  - cbv zeta. split; [| split]; [| vm_compute; reflexivity ..].
    vm_compute. eexists. reflexivity.
  - cbv zeta. split; [| split]; [| vm_compute; reflexivity ..].
    vm_compute. eexists. reflexivity.
Qed.

(** C8, counterexample.  With maxSubscribeID = 10 and subscription 1 in
    the publisher map, a second SUBSCRIBE with ID 1, and likewise a FETCH
    with ID 1, leave the session open: the transport is still attached and
    [closeSession] was not called; the reply is an error message with code
    400. *)
Lemma duplicate_subscribe_id_does_not_close :
  (let s' := onSubscribe alwaysWrites (subscribeRequest 1)
               (established 10 {[1 := trackPublisher 1]}) in
   wt_ s' = true /\ closeSessionCalls_ s' = [] /\
   controlWriteBuf_ s' =
     [SubscribeErrorFrame (SubscribeError.mk 1 400 "dup sub ID" None)]) /\
  (let s' := onFetch alwaysWrites exampleInvalidRange exampleLess
               (fetchRequest 1 (3, 0) (5, 0))
               (established 10 {[1 := trackPublisher 1]}) in
   wt_ s' = true /\ closeSessionCalls_ s' = [] /\
   controlWriteBuf_ s' =
     [FetchErrorFrame (FetchError.mk 1 400 "dup sub ID")]).
Proof. vm_compute. repeat split. Qed.

Lemma duplicate_subscribe_id_is_answered_with_an_error_witness :
  (let s := established 10 {[1 := trackPublisher 1]} in
   let s' := onSubscribe alwaysWrites (subscribeRequest 1) s in
   s' = subscribeError alwaysWrites
          (SubscribeError.mk 1 400 "dup sub ID" None) s /\
   quiet s s' /\
   exists rest,
     controlWriteBuf_ s' =
     controlWriteBuf_ s ++
     SubscribeErrorFrame (SubscribeError.mk 1 400 "dup sub ID" None) :: rest) /\
  (let s := established 1 {[1 := trackPublisher 1]} in
   onSubscribe alwaysWrites (subscribeRequest 1) s =
   close alwaysWrites SessionCloseErrorCode.TOO_MANY_SUBSCRIBES s) /\
  (let s := established 10 {[1 := trackPublisher 1]} in
   let s' := onFetch alwaysWrites exampleInvalidRange exampleLess
               (fetchRequest 1 (3, 0) (5, 0)) s in
   quiet s s' /\
   controlWriteBuf_ s' =
     controlWriteBuf_ s ++ [FetchErrorFrame (FetchError.mk 1 400 "dup sub ID")]).
Proof.
  split; [| split]; cbv zeta.
  - destruct (duplicate_subscribe_id_is_answered_with_an_error alwaysWrites
                exampleInvalidRange exampleLess
                (established 10 {[1 := trackPublisher 1]}) (trackPublisher 1))
      as [Hsub _].
    destruct (Hsub (subscribeRequest 1)) as [_ Hlow];
      [vm_compute; reflexivity |].
    destruct Hlow as (H1 & H2 & H3); [vm_compute; reflexivity |].
    split; [exact H1 |]. split; [exact H2 |].
    apply H3. reflexivity.
  - destruct (duplicate_subscribe_id_is_answered_with_an_error alwaysWrites
                exampleInvalidRange exampleLess
                (established 1 {[1 := trackPublisher 1]}) (trackPublisher 1))
      as [Hsub _].
    destruct (Hsub (subscribeRequest 1)) as [Hhigh _];
      [vm_compute; reflexivity |].
    apply Hhigh. vm_compute. discriminate.
  - destruct (duplicate_subscribe_id_is_answered_with_an_error alwaysWrites
                exampleInvalidRange exampleLess
                (established 10 {[1 := trackPublisher 1]}) (trackPublisher 1))
      as [_ Hfetch].
    destruct (Hfetch (fetchRequest 1 (3, 0) (5, 0))) as [_ Hlow];
      [vm_compute; reflexivity |].
    destruct Hlow as (_ & H2 & H3); [vm_compute; reflexivity |].
    split; [exact H2 |]. apply H3. reflexivity.
Defined.

(** C9, counterexample.  On a session whose peer advertised
    MAX_SUBSCRIBE_ID = 0, [subscribe] allocates SubscribeID 0 and sends the
    request, and [fetch] after it allocates 1 and sends it: neither ID is
    below peerMaxSubscribeID. *)
Lemma outbound_id_reaches_peer_max :
  peerMaxSubscribeID_ (established 10 ∅) = 0 /\
  (exists s1,
     subscribe alwaysWrites (subscribeRequest 0) true (established 10 ∅) =
       Some (s1, Value 0) /\
     controlWriteBuf_ s1 = [SubscribeRequestFrame (subscribeRequest 0)] /\
     peerMaxSubscribeID_ s1 = 0 /\
     exists s2,
       fetch alwaysWrites (fetchRequest 0 (0, 0) (1, 0)) true s1 =
         Some (s2, Value 1) /\
       controlWriteBuf_ s2 =
         [SubscribeRequestFrame (subscribeRequest 0);
          FetchFrame (fetchRequest 1 (0, 0) (1, 0))] /\
       peerMaxSubscribeID_ s2 = 0) /\
  ~ (0 < 0) /\ ~ (1 < 0).
Proof.
  split; [reflexivity |]. split; [| split; lia].
  eexists. split; [vm_compute; reflexivity |].
  split; [vm_compute; reflexivity |]. split; [vm_compute; reflexivity |].
  eexists. split; [vm_compute; reflexivity |].
  split; vm_compute; reflexivity.
Qed.

Lemma outbound_ids_are_not_bounded_by_peer_max_witness :
  (exists s',
     subscribe alwaysWrites (subscribeRequest 0) true (established 10 ∅) =
       Some (s', Value (nextSubscribeID_ (established 10 ∅)))) /\
  (exists s',
     fetch alwaysWrites (fetchRequest 0 (0, 0) (1, 0)) true (established 10 ∅) =
       Some (s', Value (nextSubscribeID_ (established 10 ∅)))) /\
  match subscribe alwaysWrites (subscribeRequest 0) true (established 10 ∅) with
  | Some (s', r) =>
      nextSubscribeID_ s' = uint64 (0 + 1) /\
      peerMaxSubscribeID_ s' = peerMaxSubscribeID_ (established 10 ∅)
  | None => False
  end.
Proof.
  destruct (outbound_ids_are_not_bounded_by_peer_max alwaysWrites)
    as (Hsub & _ & Hsubmit & Hfetch).
  split; [| split].
  - apply Hsubmit; reflexivity.
  - apply Hfetch; reflexivity.
  - destruct (subscribe alwaysWrites (subscribeRequest 0) true
                (established 10 ∅)) as [[s' r] |] eqn:E.
    + destruct (Hsub _ _ _ _ _ E) as (H1 & H2 & _).
      split; [exact H1 | exact H2].
    + vm_compute in E. discriminate E.
Defined.

(** A client and a server that advertised 7 before: a setup message
    without the parameter brings their limit from 7 to 0. *)
Lemma no_max_subscribe_id_parameter_means_zero_witness :
  maxSubscribeID_ clientAdvertising7 = 7 /\
  (exists s',
     setup alwaysWrites exampleKey (ClientSetup.mk [exampleVersion] [])
       clientAdvertising7 = Some (s', true) /\
     maxSubscribeID_ s' = 0) /\
  maxSubscribeID_ serverAdvertising7 = 7 /\
  (exists s',
     onClientSetup alwaysWrites exampleVersion exampleKey
       (ClientSetup.mk [exampleVersion]
          [SetupParameter.mk exampleKey "" 100])
       (Some (ServerSetup.mk exampleVersion [])) serverAdvertising7 = Some s' /\
     maxSubscribeID_ s' = 0) /\
  onSubscribe alwaysWrites (subscribeRequest 0) laterOn =
    close alwaysWrites SessionCloseErrorCode.TOO_MANY_SUBSCRIBES laterOn /\
  closeSessionCalls_
    (close alwaysWrites SessionCloseErrorCode.TOO_MANY_SUBSCRIBES laterOn) =
    [SessionCloseErrorCode.TOO_MANY_SUBSCRIBES].
Proof.
  destruct (no_max_subscribe_id_parameter_means_zero alwaysWrites
              exampleInvalidRange exampleInternalError exampleLess
              exampleVersion exampleKey)
    as (_ & Hclient & Hserver & Hlater).
  split; [vm_compute; reflexivity |].
  split; [| split; [vm_compute; reflexivity | split]].
  - destruct (Hclient clientAdvertising7 (ClientSetup.mk [exampleVersion] []))
      as (s' & H1 & _ & H2 & _);
      [constructor | vm_compute; reflexivity | reflexivity |].
    exists s'. split; [exact H1 | exact H2].
  - destruct (Hserver serverAdvertising7
                (ClientSetup.mk [exampleVersion]
                   [SetupParameter.mk exampleKey "" 100])
                (ServerSetup.mk exampleVersion []))
      as (s' & H1 & _ & H2 & _);
      [constructor | vm_compute; reflexivity | left; reflexivity
      | reflexivity |].
    exists s'. split; [exact H1 | exact H2].
  - destruct (Hlater afterSetup
                [OnMaxSubscribeId (MaxSubscribeId.mk 5);
                 CallSubscribe (subscribeRequest 0) true;
                 CallFetchError (FetchError.mk 3 404 "")] laterOn)
      as (_ & Hsub & _ & _ & Hcalls);
      [vm_compute; reflexivity | vm_compute; reflexivity
      | repeat constructor | vm_compute; reflexivity |].
    split.
    + apply Hsub. vm_compute. discriminate.
    + apply Hcalls. vm_compute. reflexivity.
Defined.

End SessionFacts.

(** ** More facts about the priority encoder: value and precedence *)

Module PriorityOrderFacts.
Import Priority PriorityFacts.

Lemma land_shiftl_low (a b k : Z) :
  0 <= k -> 0 <= a < 2 ^ k -> Z.land (Z.shiftl b k) a = 0.
Proof.
  intros Hk Ha. apply Z.bits_inj'. intros n Hn.
  rewrite Z.land_spec, Z.bits_0, Z.shiftl_spec by assumption.
  destruct (Z.lt_ge_cases n k) as [Hlt | Hge].
  - rewrite Z.testbit_neg_r by lia. reflexivity.
  - rewrite <- (Z.mod_small a (2 ^ k)) by assumption.
    rewrite Z.mod_pow2_bits_high by lia. apply andb_false_r.
Qed.

Lemma lor_shiftl_low (a b k : Z) :
  0 <= k -> 0 <= a < 2 ^ k -> Z.lor (Z.shiftl b k) a = b * 2 ^ k + a.
Proof.
  intros Hk Ha.
  pose proof (Z.add_lor_land (Z.shiftl b k) a) as H.
  rewrite land_shiftl_low in H by assumption.
  rewrite Z.shiftl_mul_pow2 in * by assumption.
  rewrite Z.add_0_r in H. exact H.
Qed.

(** The fields do not overlap, so the result is their weighted sum. *)
Lemma getStreamPriority_sum (g sg subPri pubPri : Z) (o : GroupOrder) :
  getStreamPriority g sg subPri pubPri o =
  uint8 subPri * 2 ^ 50 + uint8 pubPri * 2 ^ 42 +
  (spec_groupBits o g mod 2 ^ 11) * 2 ^ 21 + sg mod 2 ^ 21.
Proof.
  rewrite getStreamPriority_computes.
  pose proof (Z.mod_pos_bound subPri (2 ^ 8) ltac:(lia)) as Hs.
  pose proof (Z.mod_pos_bound pubPri (2 ^ 8) ltac:(lia)) as Hp.
  pose proof (Z.mod_pos_bound (spec_groupBits o g) (2 ^ 11) ltac:(lia)) as Hg.
  pose proof (Z.mod_pos_bound sg (2 ^ 21) ltac:(lia)) as Hsg.
  unfold uint8 in *.
  set (s := subPri mod 2 ^ 8) in *. set (p := pubPri mod 2 ^ 8) in *.
  set (gf := spec_groupBits o g mod 2 ^ 11) in *.
  set (low := sg mod 2 ^ 21) in *.
  rewrite (Z.shiftl_mul_pow2 p 42), (Z.shiftl_mul_pow2 gf 21) by lia.
  rewrite (lor_shiftl_low (p * 2 ^ 42) s 50) by lia.
  replace (s * 2 ^ 50 + p * 2 ^ 42) with (Z.shiftl (s * 2 ^ 8 + p) 42)
    by (rewrite Z.shiftl_mul_pow2 by lia; lia).
  rewrite (lor_shiftl_low (gf * 2 ^ 21) (s * 2 ^ 8 + p) 42) by lia.
  replace ((s * 2 ^ 8 + p) * 2 ^ 42 + gf * 2 ^ 21)
    with (Z.shiftl ((s * 2 ^ 8 + p) * 2 ^ 21 + gf) 21)
    by (rewrite Z.shiftl_mul_pow2 by lia; lia).
  rewrite (lor_shiftl_low low _ 21) by lia.
  rewrite Z.shiftl_mul_pow2 by lia. ring.
Qed.

(** X1.  Whatever the arguments, the stream priority is a 58-bit value:
    the six reserved top bits of the 64-bit result are zero. *)
Theorem getStreamPriority_fits_58_bits (g sg subPri pubPri : Z) (o : GroupOrder) :
  0 <= getStreamPriority g sg subPri pubPri o < 2 ^ 58.
Proof.
  rewrite getStreamPriority_sum.
  pose proof (Z.mod_pos_bound subPri (2 ^ 8) ltac:(lia)).
  pose proof (Z.mod_pos_bound pubPri (2 ^ 8) ltac:(lia)).
  pose proof (Z.mod_pos_bound (spec_groupBits o g) (2 ^ 11) ltac:(lia)).
  pose proof (Z.mod_pos_bound sg (2 ^ 21) ltac:(lia)).
  unfold uint8. lia.
Qed.

(** X2.  Subscriber priority takes precedence over everything else, and
    publisher priority over group and subgroup: a stream with a lower
    (subPri, pubPri) pair gets a strictly lower priority value, whatever
    the groups, subgroups and group orders of the two streams. *)
Theorem priorities_take_precedence
    (g1 sg1 g2 sg2 subPri1 pubPri1 subPri2 pubPri2 : Z) (o1 o2 : GroupOrder) :
  0 <= subPri1 < 256 -> 0 <= subPri2 < 256 ->
  0 <= pubPri1 < 256 -> 0 <= pubPri2 < 256 ->
  subPri1 < subPri2 \/ (subPri1 = subPri2 /\ pubPri1 < pubPri2) ->
  getStreamPriority g1 sg1 subPri1 pubPri1 o1 <
  getStreamPriority g2 sg2 subPri2 pubPri2 o2.
Proof.
  intros Hs1 Hs2 Hp1 Hp2 Hlt. rewrite !getStreamPriority_sum.
  pose proof (Z.mod_pos_bound (spec_groupBits o1 g1) (2 ^ 11) ltac:(lia)).
  pose proof (Z.mod_pos_bound (spec_groupBits o2 g2) (2 ^ 11) ltac:(lia)).
  pose proof (Z.mod_pos_bound sg1 (2 ^ 21) ltac:(lia)).
  pose proof (Z.mod_pos_bound sg2 (2 ^ 21) ltac:(lia)).
  unfold uint8.
  rewrite (Z.mod_small subPri1), (Z.mod_small subPri2),
    (Z.mod_small pubPri1), (Z.mod_small pubPri2) by lia.
  lia.
Qed.

Lemma priorities_take_precedence_witness :
  getStreamPriority 0 0 1 255 OldestFirst <
  getStreamPriority 2047 5 2 0 NewestFirst.
Proof.
  apply priorities_take_precedence; try lia.
Defined.

Lemma groupField_oldest (g : Z) :
  0 <= g < 2048 -> spec_groupBits OldestFirst g mod 2 ^ 11 = g.
Proof.
  intros H. unfold spec_groupBits.
  rewrite (Z.mod_small g (2 ^ 21)) by lia. apply Z.mod_small. lia.
Qed.

Lemma groupField_newest (g : Z) :
  0 <= g < 2048 -> spec_groupBits NewestFirst g mod 2 ^ 11 = 2047 - g.
Proof.
  intros H. unfold spec_groupBits.
  rewrite (Z.mod_small g (2 ^ 21)) by lia.
  symmetry. apply (Z.mod_unique _ _ 1023); lia.
Qed.

(** X3.  With equal priorities, the group decides before the subgroup, in
    the publisher's group order, for groups below 2048: under OldestFirst
    the lower group gets the lower value, under NewestFirst the higher
    group does, whatever the subgroups. *)
Theorem group_order_decides_below_2048 (g1 g2 sg1 sg2 subPri pubPri : Z) :
  0 <= g1 < g2 -> g2 < 2048 ->
  getStreamPriority g1 sg1 subPri pubPri OldestFirst <
    getStreamPriority g2 sg2 subPri pubPri OldestFirst /\
  getStreamPriority g2 sg2 subPri pubPri NewestFirst <
    getStreamPriority g1 sg1 subPri pubPri NewestFirst.
Proof.
  intros H1 H2. rewrite !getStreamPriority_sum.
  rewrite !groupField_oldest, !groupField_newest by lia.
  pose proof (Z.mod_pos_bound sg1 (2 ^ 21) ltac:(lia)).
  pose proof (Z.mod_pos_bound sg2 (2 ^ 21) ltac:(lia)).
  lia.
Qed.

Lemma group_order_decides_below_2048_witness :
  getStreamPriority 7 9 3 128 OldestFirst <
    getStreamPriority 8 0 3 128 OldestFirst /\
  getStreamPriority 8 0 3 128 NewestFirst <
    getStreamPriority 7 9 3 128 NewestFirst.
Proof. apply group_order_decides_below_2048; lia. Defined.

(** X4.  Inside one group the lowest subgroup goes first: with everything
    else equal, a lower subgroup ID (below 2^21) gives a strictly lower
    value. *)
Theorem lowest_subgroup_first (g sg1 sg2 subPri pubPri : Z) (o : GroupOrder) :
  0 <= sg1 < sg2 -> sg2 < 2 ^ 21 ->
  getStreamPriority g sg1 subPri pubPri o <
  getStreamPriority g sg2 subPri pubPri o.
Proof.
  intros H1 H2. rewrite !getStreamPriority_sum.
  rewrite (Z.mod_small sg1), (Z.mod_small sg2) by lia. lia.
Qed.

Lemma lowest_subgroup_first_witness :
  getStreamPriority 7 0 3 128 OldestFirst <
  getStreamPriority 7 1 3 128 OldestFirst.
Proof. apply lowest_subgroup_first; lia. Defined.

(** X5.  The encoder cannot tell apart groups that differ by a multiple
    of 2048, nor subgroups that differ by a multiple of 2^21: it is
    periodic in both. *)
Theorem getStreamPriority_periodic (g sg subPri pubPri : Z) (o : GroupOrder) :
  getStreamPriority (g + 2048) sg subPri pubPri o =
    getStreamPriority g sg subPri pubPri o /\
  getStreamPriority g (sg + 2 ^ 21) subPri pubPri o =
    getStreamPriority g sg subPri pubPri o.
Proof.
  rewrite !getStreamPriority_sum. split.
  - assert (spec_groupBits o (g + 2048) mod 2 ^ 11 =
            spec_groupBits o g mod 2 ^ 11) as E; [| rewrite E; reflexivity].
    assert ((g + 2048) mod 2 ^ 21 mod 2 ^ 11 = g mod 2 ^ 21 mod 2 ^ 11) as Hm.
    { rewrite !(Z.mod_mod_divide _ (2 ^ 21) (2 ^ 11)) by (exists (2 ^ 10); lia).
      replace (g + 2048) with (g + 1 * 2 ^ 11) by lia.
      apply Z.mod_add. lia. }
    unfold spec_groupBits. destruct o; [exact Hm |].
    rewrite <- (Zminus_mod_idemp_r _ ((g + 2048) mod 2 ^ 21)).
    rewrite <- (Zminus_mod_idemp_r _ (g mod 2 ^ 21)).
    rewrite Hm. reflexivity.
  - replace (sg + 2 ^ 21) with (sg + 1 * 2 ^ 21) by lia.
    rewrite Z.mod_add by lia. reflexivity.
Qed.

End PriorityOrderFacts.

(** ** Facts about the writer's trace *)

Module WriterTraceFacts.
Import Writer WriterProps WriterTrace WriterFacts.
Local Open Scope writer_scope.

Lemma triple_bind {A B} P (m : M A) Q E (f : A -> M B) R :
  triple P m Q E -> (forall a, triple (Q a) (f a) R E) ->
  triple P (bind m f) R E.
Proof.
  intros Hm Hf w w' r HP H. apply bind_inv in H.
  destruct H as [(e & H & ->) | (w1 & a & H & Hk)].
  - exact (Hm _ _ _ HP H).
  - exact (Hf a _ _ _ (Hm _ _ _ HP H) Hk).
Qed.

Lemma triple_get {A} (P : StreamPublisherImpl -> Prop)
    (f : StreamPublisherImpl -> M A) Q E :
  (forall w0, P w0 -> triple (fun w => w = w0) (f w0) Q E) ->
  triple P (bind get f) Q E.
Proof. intros H w w' r HP Hm. exact (H w HP w w' r eq_refl Hm). Qed.

Lemma triple_modify (P : StreamPublisherImpl -> Prop) g Q E :
  (forall w, P w -> Q tt (g w)) -> triple P (modify g) Q E.
Proof. intros H w w' r HP Hm. inversion Hm; subst. auto. Qed.

Lemma triple_ret {A} (P : StreamPublisherImpl -> Prop) (a : A) Q E :
  (forall w, P w -> Q a w) -> triple P (ret a) Q E.
Proof. intros H w w' r HP Hm. inversion Hm; subst. auto. Qed.

Lemma triple_unexpected {A} (P : StreamPublisherImpl -> Prop) c msg
    (Q : A -> StreamPublisherImpl -> Prop) E :
  (forall w, P w -> E w) -> triple P (makeUnexpected c msg) Q E.
Proof. intros H w w' r HP Hm. inversion Hm; subst. auto. Qed.

Lemma triple_pre {A} (P P' : StreamPublisherImpl -> Prop) (m : M A) Q E :
  (forall w, P' w -> P w) -> triple P m Q E -> triple P' m Q E.
Proof. intros H Hm w w' r HP. apply Hm. auto. Qed.

Lemma triple_at {A} (P : StreamPublisherImpl -> Prop) w0 (m : M A) Q E :
  (P w0 -> triple P m Q E) -> triple (fun w => w = w0 /\ P w) m Q E.
Proof. intros H w w' r [-> HP]. apply H; assumption. Qed.

(** *** Predicates every method preserves

    A predicate on the writer that survives [reset], a bare
    [writeToStream], the changes the methods make to [header_] and to
    [currentLengthRemaining_], and the appending of an object or payload
    frame followed by [writeToStream], survives every method, whatever it
    returns. *)
Section Preserved.
Variable T : list Call -> list Frame -> bool -> bool.
Variable P : StreamPublisherImpl -> Prop.
Variable fetch : bool.
Hypothesis P_reset : forall e w, P w -> P (afterReset e w).
Hypothesis P_write :
  forall fin w w' r, P w -> writeToStream T fin w = Some (w', r) -> P w'.
Hypothesis P_header :
  forall h w, edit fetch (header_ w) h -> P w -> P (set_header h w).
Hypothesis P_remaining :
  forall c w, P w -> P (set_currentLengthRemaining c w).
Hypothesis P_append :
  forall f fin w w' r,
    P w -> produced w f ->
    writeToStream T fin (set_writeBuf (writeBuf_ w ++ [f]) w) = Some (w', r) ->
    P w'.

Lemma inv_bind {A B} (m : M A) (f : A -> M B) :
  inv P m -> (forall a, inv P (f a)) -> inv P (bind m f).
Proof. intros; eapply triple_bind; eauto. Qed.

Lemma inv_reset e : inv P (reset e).
Proof.
  intros w w' r HP H. rewrite reset_eq in H. inversion H; subst.
  apply P_reset, HP.
Qed.

Lemma inv_refuse {A} e c msg : inv P (reset e ;; @makeUnexpected A c msg).
Proof.
  apply inv_bind; [apply inv_reset |].
  intros _. apply triple_unexpected. auto.
Qed.

Lemma inv_validatePublish i : inv P (validatePublish i).
Proof.
  intros w w' r HP H.
  destruct (validatePublish_cases i w) as [(E & _) | [(m & E & _) | (E & _)]];
    rewrite E in H; inversion H; subst; auto.
Qed.

Lemma inv_writeToStream fin : inv P (writeToStream T fin).
Proof.
  intros w w' r HP H. pose proof (P_write _ _ _ _ HP H).
  destruct r; assumption.
Qed.

Lemma inv_append {A} p fin (a : A) :
  inv P (modify (fun w => set_writeBuf (writeBuf_ w ++ [PayloadFrame p]) w) ;;
         writeToStream T fin ;; ret a).
Proof.
  intros w w' r HP H. rewrite bind_modify in H.
  assert (produced w (PayloadFrame p)) as Hf by (left; eauto).
  apply bind_inv in H. destruct H as [(e & H & ->) | (w1 & [] & H & Hk)].
  - exact (P_append _ _ _ _ _ HP Hf H).
  - inversion Hk; subst. exact (P_append _ _ _ _ _ HP Hf H).
Qed.

Lemma P_set_status st w :
  P w -> P (set_header (header_set_status st (header_ w)) w).
Proof. apply P_header. constructor. Qed.

Lemma inv_writeCurrentObject i len p fin :
  inv P (writeCurrentObject T i len p fin).
Proof.
  intros w w' r HP H. unfold writeCurrentObject in H.
  rewrite !bind_modify in H.
  assert (P w') as HP'.
  { eapply P_append; [| | exact H].
    - apply (P_header (header_set_length (Some len)
                         (header_set_id i (header_ w)))
                      (set_header (header_set_id i (header_ w)) w)).
      + constructor.
      + apply P_header; [constructor | exact HP].
    - right. eexists. reflexivity. }
  destruct r; assumption.
Qed.

Lemma inv_validateObjectPublish p fin :
  inv P (validateObjectPublishAndUpdateState p fin).
Proof.
  intros w w' r HP H.
  assert (P w') as HP'; [| destruct r; assumption].
  destruct (currentLengthRemaining_ w) as [rem |] eqn:Hr.
  - destruct (Z.lt_trichotomy rem (computeChainDataLength p)) as [L | [L | L]].
    + rewrite (validateObjectPublish_exceeds _ _ _ _ Hr L) in H.
      inversion H; subst. auto.
    + rewrite (validateObjectPublish_done _ _ _ _ Hr (eq_sym L)) in H.
      inversion H; subst. auto.
    + destruct fin.
      * rewrite (validateObjectPublish_fin_open _ _ _ Hr L) in H.
        inversion H; subst. auto.
      * rewrite (validateObjectPublish_in_progress _ _ _ Hr L) in H.
        inversion H; subst. auto.
  - rewrite (validateObjectPublish_none _ _ _ Hr) in H.
    inversion H; subst. auto.
Qed.

Lemma inv_object i p fin : inv P (object T i p fin).
Proof.
  apply inv_bind; [apply inv_validatePublish |].
  intros _. apply inv_writeCurrentObject.
Qed.

Lemma inv_publishStatus i st fin : inv P (publishStatus T i st fin).
Proof.
  apply inv_bind; [apply inv_validatePublish |]. intros _.
  apply inv_bind; [apply triple_modify; intros w; apply P_set_status |].
  intros _. apply inv_writeCurrentObject.
Qed.

Lemma inv_beginObject i len p : inv P (beginObject T i len p).
Proof.
  apply inv_bind; [apply inv_validatePublish |]. intros _.
  apply inv_bind; [apply triple_modify; auto |]. intros _.
  apply inv_bind; [apply inv_validateObjectPublish |]. intros _.
  apply inv_writeCurrentObject.
Qed.

Lemma inv_objectPayload p fin : inv P (objectPayload T p fin).
Proof.
  apply inv_bind; [apply inv_validateObjectPublish |]. intros st.
  apply inv_append.
Qed.

Lemma inv_endOfSubgroup : inv P (endOfSubgroup T).
Proof.
  apply triple_get. intros w0 HP.
  apply (triple_pre P); [intros w ->; exact HP |].
  destruct (hasValue (currentLengthRemaining_ w0)).
  - apply inv_refuse.
  - apply inv_writeToStream.
Qed.

Lemma inv_onCancel : inv P onCancel.
Proof.
  apply triple_get. intros w0 HP.
  apply (triple_pre P); [intros w ->; exact HP |].
  destruct (hasValue (writeHandle_ w0)).
  - apply inv_reset.
  - apply triple_ret. auto.
Qed.

Lemma inv_endOfFetch : inv P (endOfFetch T).
Proof.
  apply triple_get. intros w0 HP.
  apply (triple_pre P); [intros w ->; exact HP |].
  destruct (hasValue (writeHandle_ w0)).
  - apply inv_endOfSubgroup.
  - apply triple_unexpected. auto.
Qed.

Lemma P_setGroupAndSubgroup g sg w :
  fetch = true -> P w -> P (fst (setGroupAndSubgroup g sg w)).
Proof.
  intros Hfetch HP. unfold setGroupAndSubgroup.
  destruct (g <? ObjectHeader.group (header_ w)); [exact HP |].
  destruct (ObjectHeader.group (header_ w) <? g); cbn [fst].
  - apply P_header; [constructor; exact Hfetch |].
    apply P_header; [constructor | exact HP].
  - apply P_header; [constructor; exact Hfetch | exact HP].
Qed.

Lemma inv_checkGroupAndSubgroup g sg :
  fetch = true -> inv P (checkGroupAndSubgroup g sg).
Proof.
  intros Hfetch w w' r HP H. unfold checkGroupAndSubgroup in H.
  pose proof (P_setGroupAndSubgroup g sg w Hfetch HP) as HP'.
  destruct (setGroupAndSubgroup g sg w) as [w1 ok]. cbn [fst] in HP'.
  destruct ok; inversion H; subst; exact HP'.
Qed.

Lemma inv_checked {A} g sg (m : M A) :
  fetch = true -> inv P m -> inv P (checkGroupAndSubgroup g sg ;; m).
Proof.
  intros Hfetch Hm.
  apply inv_bind; [apply inv_checkGroupAndSubgroup, Hfetch | auto].
Qed.

Lemma inv_normal {A} (m : M A) :
  inv P m ->
  inv P (modify (fun w => set_header (header_set_status NORMAL (header_ w)) w) ;;
         m).
Proof.
  intros Hm.
  apply inv_bind; [apply triple_modify; intros w; apply P_set_status | auto].
Qed.

Lemma inv_discard {A} (m : M A) w w' :
  inv P m -> P w -> discard m w = Some w' -> P w'.
Proof.
  intros Hm HP H. unfold discard in H.
  destruct (m w) as [[w1 r] |] eqn:E; inversion H; subst.
  pose proof (Hm _ _ _ HP E) as HP'. destruct r; assumption.
Qed.

Lemma allowed_fetch op : allowed fetch op -> subgroupOp op = false ->
  fetch = true.
Proof. intros [H | H] E; [exact H | congruence]. Qed.

Lemma step_preserves op w w' :
  allowed fetch op -> P w -> step T op w = Some w' -> P w'.
Proof.
  intros Ha HP H. destruct op; cbn [step] in H;
    (eapply inv_discard; [| exact HP | exact H]).
  - apply inv_object.
  - apply inv_publishStatus.
  - apply inv_beginObject.
  - apply inv_objectPayload.
  - apply inv_publishStatus.
  - apply inv_publishStatus.
  - apply inv_endOfSubgroup.
  - apply inv_publishStatus.
  - apply inv_reset.
  - apply inv_onCancel.
  - apply inv_checked; [eapply allowed_fetch; eauto |].
    apply inv_normal, inv_object.
  - apply inv_checked; [eapply allowed_fetch; eauto |].
    apply inv_publishStatus.
  - apply inv_checked; [eapply allowed_fetch; eauto |].
    apply inv_publishStatus.
  - apply inv_checked; [eapply allowed_fetch; eauto |].
    apply inv_normal, inv_beginObject.
  - apply inv_checked; [eapply allowed_fetch; eauto |].
    apply inv_publishStatus.
  - apply inv_checked; [eapply allowed_fetch; eauto |].
    apply inv_publishStatus.
  - apply inv_endOfFetch.
Qed.

Lemma run_preserves ops : forall w w',
  Forall (allowed fetch) ops -> P w -> run T ops w = Some w' -> P w'.
Proof.
  induction ops as [| op ops IH]; intros w w' Ha HP H; cbn [run] in H.
  - inversion H; subst. exact HP.
  - destruct (step T op w) as [w1 |] eqn:E; [| discriminate].
    inversion Ha; subst.
    eapply IH; [assumption | | exact H]. eapply step_preserves; eauto.
Qed.

End Preserved.

Section WithTransport.
Variable T : list Call -> list Frame -> bool -> bool.

Lemma transportCalls_call c w :
  transportCalls (call c w) =
  transportCalls w ++ (if isTransportCall c then [c] else []).
Proof.
  unfold transportCalls, call. cbn [calls_].
  rewrite List.filter_app. cbn [List.filter].
  destruct (isTransportCall c); reflexivity.
Qed.

Lemma inert_afterReset e w0 w : inert w0 w -> inert w0 (afterReset e w).
Proof.
  intros (Hh & Hc & Hb). unfold afterReset. rewrite Hh.
  cbv zeta. split; [exact Hh |]. split; [| exact Hb].
  rewrite transportCalls_call. cbn [isTransportCall].
  rewrite app_nil_r. exact Hc.
Qed.

Lemma allowed_all ops : Forall (allowed true) ops.
Proof. apply Forall_forall. intros op _. left. reflexivity. Qed.

Lemma step_inert op w0 w w' :
  inert w0 w -> step T op w = Some w' -> inert w0 w'.
Proof.
  apply (step_preserves T (inert w0) true).
  - intros e w1. apply inert_afterReset.
  - intros fin w1 w2 r (Hh & _) H.
    rewrite writeToStream_null in H by exact Hh. discriminate.
  - intros h w1 _ H. exact H.
  - intros c w1 H. exact H.
  - intros f fin w1 w2 r (Hh & _) _ H.
    rewrite writeToStream_null in H by exact Hh. discriminate.
  - left. reflexivity.
Qed.

(** *** Where a call goes through the null handle *)


























Lemma wire_call c w : wire (call c w) = wire w ++ callFrames c.
Proof.
  unfold wire, call. cbn [calls_]. rewrite flat_map_app. cbn [flat_map].
  rewrite app_nil_r. reflexivity.
Qed.

Lemma frames_afterReset e w : frames (afterReset e w) = frames w.
Proof.
  unfold afterReset, frames. destruct (writeHandle_ w); cbv zeta;
    rewrite !wire_call; cbn [callFrames writeBuf_ call set_writeHandle];
    rewrite ?app_nil_r; reflexivity.
Qed.

Lemma frames_afterWrite h fin w : frames (afterWrite h fin w) = frames w.
Proof.
  unfold afterWrite, frames. rewrite wire_call.
  cbn [callFrames writeBuf_ call set_writeBuf]. rewrite app_nil_r.
  destruct fin; reflexivity.
Qed.

Lemma frames_write fin w w' r :
  writeToStream T fin w = Some (w', r) -> frames w' = frames w.
Proof.
  destruct (writeHandle_ w) as [h |] eqn:Hh.
  - rewrite (writeToStream_live T fin w h Hh).
    destruct (T (calls_ w) (writeBuf_ w) fin); intros H; inversion H; subst.
    + destruct fin; [| apply frames_afterWrite].
      unfold frames. rewrite wire_call. cbn [callFrames writeBuf_ call].
      rewrite app_nil_r. apply frames_afterWrite.
    + rewrite frames_afterReset. apply frames_afterWrite.
  - rewrite writeToStream_null by exact Hh. discriminate.
Qed.

Lemma frames_append f w :
  frames (set_writeBuf (writeBuf_ w ++ [f]) w) = frames w ++ [f].
Proof. unfold frames. cbn [writeBuf_ set_writeBuf]. apply app_assoc. Qed.

Lemma frames_set_header hd w : frames (set_header hd w) = frames w.
Proof. reflexivity. Qed.

Lemma headed_append first f w :
  isHeaderFrame f = false -> headed first w ->
  headed first (set_writeBuf (writeBuf_ w ++ [f]) w).
Proof.
  intros Hf (rest & E & Hall). exists (rest ++ [f]). split.
  - rewrite frames_append, E. reflexivity.
  - apply Forall_app. split; [exact Hall | repeat constructor; exact Hf].
Qed.

Lemma headed_of_frames first w w' :
  frames w' = frames w -> headed first w -> headed first w'.
Proof. intros E (rest & E' & Hall). exists rest. rewrite E. auto. Qed.

(** X8.  The stream header is the first frame and the only header.  Over
    any sequence of calls on a new writer, the frames it produced are the
    header frame its constructor buffered followed by object and payload
    frames only. *)
Theorem stream_header_comes_first_and_once :
  forall ops w w' first,
    calls_ w = [] -> writeBuf_ w = [first] ->
    run T ops w = Some w' ->
    exists rest,
      wire w' ++ writeBuf_ w' = first :: rest /\
      Forall (fun f => isHeaderFrame f = false) rest.
Proof.
  intros ops w w' first Hc Hb H.
  apply (run_preserves T (headed first) true) with (w := w) (ops := ops).
  - intros e w1. apply headed_of_frames, frames_afterReset.
  - intros fin w1 w2 r H1 H2.
    exact (headed_of_frames _ _ _ (frames_write _ _ _ _ H2) H1).
  - intros h w1 _ H1. exact H1.
  - intros c w1 H1. exact H1.
  - intros f fin w1 w2 r H1 Hf H2.
    apply (headed_of_frames _ _ _ (frames_write _ _ _ _ H2)).
    apply headed_append; [| assumption].
    destruct Hf as [(p & ->) | (p & ->)]; reflexivity.
  - apply allowed_all.
  - exists []. unfold frames, wire. rewrite Hc, Hb. split; [reflexivity |].
    constructor.
  - exact H.
Qed.

(** *** Framing *)

Lemma owed_app a : forall r b,
  owed r (a ++ b) =
  match owed r a with
  | Some r' => owed r' b
  | None => None
  end.
Proof.
  induction a as [| f a IH]; intros r b; [reflexivity |].
  destruct f as [sid | hd | ty hd p | p]; cbn [app owed]; auto.
  - destruct (ObjectHeader.length hd); [| reflexivity].
    destruct ((r =? 0) && (computeChainDataLength p <=? z)); auto.
  - destruct ((0 <? r) && (computeChainDataLength p <=? r)); auto.
Qed.

Lemma finished_call c w :
  finished (call c w) ->
  finished w \/ exists h buf, c = WriteStreamData h buf true.
Proof.
  intros (h & buf & Hin). unfold call in Hin. cbn [calls_] in Hin.
  apply in_app_or in Hin. destruct Hin as [Hin | [E | []]].
  - left. exists h, buf. exact Hin.
  - right. exists h, buf. exact E.
Qed.

Lemma finished_afterReset e w : finished (afterReset e w) -> finished w.
Proof.
  unfold afterReset. intros H. apply finished_call in H.
  destruct H as [H | (h & buf & E)]; [| discriminate].
  destruct (writeHandle_ w); [| exact H].
  apply finished_call in H.
  destruct H as [H | (h & buf & E)]; [exact H | discriminate].
Qed.

Lemma finished_afterWrite h w : finished (afterWrite h false w) -> finished w.
Proof.
  unfold afterWrite. intros H. apply finished_call in H.
  destruct H as [H | (h' & buf & E)]; [exact H | discriminate].
Qed.

Lemma balanced_afterReset_live e w h r :
  writeHandle_ w = Some h -> ~ finished w -> owed 0 (frames w) = Some r ->
  balanced (afterReset e w).
Proof.
  intros Hh Hf Ho. unfold balanced. rewrite writeHandle_afterReset.
  exists r. rewrite frames_afterReset. split; [exact Ho |].
  intros H. apply finished_afterReset in H. contradiction.
Qed.

Lemma balanced_afterReset e w : balanced w -> balanced (afterReset e w).
Proof.
  intros HB. destruct (writeHandle_ w) as [h |] eqn:Hh.
  - unfold balanced in HB. rewrite Hh in HB. destruct HB as (Ho & _ & Hf).
    eapply balanced_afterReset_live; eauto.
  - unfold balanced in *. rewrite writeHandle_afterReset. rewrite Hh in HB.
    destruct HB as (r & Ho & Hfin). exists r.
    rewrite frames_afterReset. split; [exact Ho |].
    intros H. apply finished_afterReset in H.
    destruct (Hfin H) as (-> & Hb). split; [reflexivity |].
    unfold afterReset. rewrite Hh. exact Hb.
Qed.

Lemma wire_transportCalls w : wire w = flat_map callFrames (transportCalls w).
Proof.
  unfold wire, transportCalls.
  induction (calls_ w) as [| c l IH]; [reflexivity |].
  cbn [flat_map List.filter]. rewrite IH.
  destruct c; cbn [isTransportCall callFrames flat_map app]; reflexivity.
Qed.

Lemma finished_transportCalls w :
  finished w <-> exists h buf, In (WriteStreamData h buf true) (transportCalls w).
Proof.
  unfold finished, transportCalls.
  split; intros (h & buf & H); exists h, buf.
  - apply List.filter_In. split; [exact H | reflexivity].
  - apply List.filter_In in H. apply H.
Qed.

Lemma balanced_inert w w' :
  inert w w' -> writeHandle_ w = None -> balanced w -> balanced w'.
Proof.
  intros (Hh' & Hc & Hb) Hh HB. unfold balanced in *.
  rewrite Hh in HB. rewrite Hh'.
  assert (frames w' = frames w) as Hw.
  { unfold frames. rewrite !wire_transportCalls, Hc, Hb. reflexivity. }
  destruct HB as (r & Ho & Hfin). exists r. rewrite Hw, Hb.
  split; [exact Ho |]. intros H. apply Hfin.
  apply finished_transportCalls. rewrite <- Hc.
  apply finished_transportCalls. exact H.
Qed.

Lemma dead_balanced {A} (m : M A) w w' r :
  inv (inert w) m -> writeHandle_ w = None -> balanced w ->
  m w = Some (w', r) -> balanced w'.
Proof.
  intros Hm Hh HB H.
  assert (inert w w) as Hi by (repeat split; exact Hh).
  pose proof (Hm _ _ _ Hi H) as Hi'.
  apply (balanced_inert w w'); [destruct r; exact Hi' | exact Hh | exact HB].
Qed.

Lemma inert_write w0 fin w w' r :
  inert w0 w -> writeToStream T fin w = Some (w', r) -> inert w0 w'.
Proof.
  intros (Hh & _) H. rewrite writeToStream_null in H by exact Hh.
  discriminate.
Qed.

Lemma inert_append w0 f fin w w' r :
  inert w0 w -> produced w f ->
  writeToStream T fin (set_writeBuf (writeBuf_ w ++ [f]) w) = Some (w', r) ->
  inert w0 w'.
Proof.
  intros (Hh & _) _ H. rewrite writeToStream_null in H by exact Hh.
  discriminate.
Qed.

(** Handing the buffer to the transport keeps the framing balanced,
    provided a write with fin comes only when nothing is owed. *)
Lemma write_balanced (fin : bool) w w' res h r :
  writeHandle_ w = Some h -> ~ finished w ->
  owed 0 (frames w) = Some r ->
  (if fin then r = 0
   else r = remaining w /\
        forall x, currentLengthRemaining_ w = Some x -> 0 < x) ->
  writeToStream T fin w = Some (w', res) ->
  balanced w'.
Proof.
  intros Hh Hf Ho Hr H. rewrite (writeToStream_live T fin w h Hh) in H.
  destruct (T (calls_ w) (writeBuf_ w) fin); inversion H; subst; clear H.
  - destruct fin.
    + subst r.
      assert (frames (call (OnStreamComplete (header_ w)) (afterWrite h true w))
              = frames w) as E.
      { rewrite <- (frames_afterWrite h true w). unfold frames.
        rewrite wire_call. cbn [callFrames]. rewrite app_nil_r. reflexivity. }
      unfold balanced. rewrite E.
      exists 0. split; [exact Ho | intros _; split; reflexivity].
    + destruct Hr as (-> & Hpos). unfold balanced.
      cbn [writeHandle_ call afterWrite set_writeBuf]. rewrite Hh.
      rewrite frames_afterWrite. repeat split; try assumption.
      intros Hfin. apply finished_afterWrite in Hfin. contradiction.
  - destruct fin.
    + subst r. unfold balanced. rewrite writeHandle_afterReset.
      exists 0. rewrite frames_afterReset, frames_afterWrite.
      split; [exact Ho |]. intros _. split; reflexivity.
    + eapply balanced_afterReset_live.
      * cbn [writeHandle_ call afterWrite set_writeBuf]. exact Hh.
      * intros Hfin. apply finished_afterWrite in Hfin. contradiction.
      * rewrite frames_afterWrite. exact Ho.
Qed.

Lemma writeCurrentObject_balanced i len p (fin : bool) w w' res h :
  writeHandle_ w = Some h -> ~ finished w ->
  owed 0 (frames w) = Some 0 ->
  computeChainDataLength p <= len ->
  (if fin then len = computeChainDataLength p
   else remaining w = len - computeChainDataLength p /\
        forall x, currentLengthRemaining_ w = Some x -> 0 < x) ->
  writeCurrentObject T i len p fin w = Some (w', res) ->
  balanced w'.
Proof.
  intros Hh Hf Ho Hle Hr H. unfold writeCurrentObject in H.
  rewrite !bind_modify in H.
  apply (write_balanced _ _ _ _ h (len - computeChainDataLength p)) in H;
    [exact H | exact Hh | exact Hf | |].
  - rewrite frames_append, frames_set_header, owed_app, Ho.
    cbn [owed header_ set_header header_set_length ObjectHeader.length].
    rewrite Z.eqb_refl. apply Z.leb_le in Hle. rewrite Hle. reflexivity.
  - destruct fin; [lia |]. destruct Hr as (Hr & Hpos).
    split; [symmetry; exact Hr | exact Hpos].
Qed.

Lemma payload_balanced {A} (a : A) p (fin : bool) w w' res h r :
  writeHandle_ w = Some h -> ~ finished w ->
  owed 0 (frames w) = Some r -> 0 < r ->
  computeChainDataLength p <= r ->
  (if fin then r = computeChainDataLength p
   else remaining w = r - computeChainDataLength p /\
        forall x, currentLengthRemaining_ w = Some x -> 0 < x) ->
  (modify (fun w => set_writeBuf (writeBuf_ w ++ [PayloadFrame p]) w) ;;
   writeToStream T fin ;; ret a) w = Some (w', res) ->
  balanced w'.
Proof.
  intros Hh Hf Ho Hpos Hle Hr H. rewrite bind_modify in H.
  assert (exists res',
    writeToStream T fin (set_writeBuf (writeBuf_ w ++ [PayloadFrame p]) w) =
    Some (w', res')) as (res' & H').
  { apply bind_inv in H. destruct H as [(e & H & _) | (w1 & [] & H & Hk)].
    - eauto.
    - inversion Hk; subst. eauto. }
  apply (write_balanced _ _ _ _ h (r - computeChainDataLength p)) in H';
    [exact H' | exact Hh | exact Hf | |].
  - rewrite frames_append, owed_app, Ho. cbn [owed].
    apply Z.ltb_lt in Hpos. apply Z.leb_le in Hle. rewrite Hpos, Hle.
    reflexivity.
  - destruct fin; [lia |]. destruct Hr as (Hr & Hx).
    split; [symmetry; exact Hr | exact Hx].
Qed.

Ltac inert_side :=
  solve [ intros ? ?; apply inert_afterReset
        | intros ? ? ? ?; apply inert_write
        | intros ? ? ? ? ?; apply inert_append
        | intros ? ? ? ?; assumption
        | intros ? ? ?; assumption ].

Ltac by_inertness L Hh HB H :=
  eapply dead_balanced;
  [first [eapply L with (fetch := true) | eapply L]; inert_side
  | exact Hh | exact HB | exact H].

Ltac live_balanced HB Hh Ho Hpos Hf :=
  unfold balanced in HB; rewrite Hh in HB; destruct HB as (Ho & Hpos & Hf).

Lemma remaining_none w : currentLengthRemaining_ w = None -> remaining w = 0.
Proof. unfold remaining. intros ->. reflexivity. Qed.

Lemma balanced_reset e : inv balanced (reset e).
Proof.
  intros w w' r HB H. rewrite reset_eq in H. inversion H; subst.
  apply balanced_afterReset, HB.
Qed.

Lemma balanced_object i p fin : inv balanced (object T i p fin).
Proof.
  intros w w' r HB H. assert (balanced w') as G; [| destruct r; exact G].
  destruct (writeHandle_ w) as [h |] eqn:Hh;
    [| by_inertness inv_object Hh HB H].
  pose proof HB as HB0. live_balanced HB Hh Ho Hpos Hf.
  unfold object in H. unfold bind at 1 in H.
  destruct (validatePublish_cases i w)
    as [(E & Hr & _) | [(m & E & _) | (E & _)]]; rewrite E in H.
  - eapply writeCurrentObject_balanced; [exact Hh | exact Hf | | | | exact H].
    + rewrite Ho, (remaining_none _ Hr). reflexivity.
    + lia.
    + destruct fin; [reflexivity |].
      split; [rewrite (remaining_none _ Hr); lia | congruence].
  - inversion H; subst. apply balanced_afterReset, HB0.
  - inversion H; subst. exact HB0.
Qed.

Lemma balanced_publishStatus i st fin : inv balanced (publishStatus T i st fin).
Proof.
  intros w w' r HB H. assert (balanced w') as G; [| destruct r; exact G].
  destruct (writeHandle_ w) as [h |] eqn:Hh;
    [| by_inertness inv_publishStatus Hh HB H].
  pose proof HB as HB0. live_balanced HB Hh Ho Hpos Hf.
  unfold publishStatus in H. unfold bind at 1 in H.
  destruct (validatePublish_cases i w)
    as [(E & Hr & _) | [(m & E & _) | (E & _)]]; rewrite E in H.
  - rewrite bind_modify in H.
    eapply writeCurrentObject_balanced; [| | | | | exact H].
    + exact Hh.
    + exact Hf.
    + rewrite frames_set_header, Ho, (remaining_none _ Hr). reflexivity.
    + cbn [computeChainDataLength]. lia.
    + destruct fin; [reflexivity |].
      split; [exact (remaining_none _ Hr) | ].
      intros x Hx. cbn [currentLengthRemaining_ set_header] in Hx. congruence.
  - inversion H; subst. apply balanced_afterReset, HB0.
  - inversion H; subst. exact HB0.
Qed.

Lemma balanced_beginObject i len p : inv balanced (beginObject T i len p).
Proof.
  intros w w' r HB H. assert (balanced w') as G; [| destruct r; exact G].
  destruct (writeHandle_ w) as [h |] eqn:Hh;
    [| by_inertness inv_beginObject Hh HB H].
  pose proof HB as HB0. live_balanced HB Hh Ho Hpos Hf.
  unfold beginObject in H. unfold bind at 1 in H.
  destruct (validatePublish_cases i w)
    as [(E & Hr & _) | [(m & E & _) | (E & _)]]; rewrite E in H.
  - rewrite bind_modify in H. unfold bind at 1 in H.
    rewrite (remaining_none _ Hr) in Ho.
    assert (currentLengthRemaining_ (set_currentLengthRemaining (Some len) w)
            = Some len) as Hlen by reflexivity.
    destruct (Z.lt_trichotomy len (computeChainDataLength p)) as [L | [L | L]].
    + rewrite (validateObjectPublish_exceeds _ false _ _ Hlen L) in H.
      inversion H; subst.
      eapply balanced_afterReset_live; [exact Hh | exact Hf | exact Ho].
    + rewrite (validateObjectPublish_done _ false _ _ Hlen (eq_sym L)) in H.
      eapply writeCurrentObject_balanced; [| | | | | exact H].
      * exact Hh.
      * exact Hf.
      * exact Ho.
      * lia.
      * split; [cbn [remaining currentLengthRemaining_
                     set_currentLengthRemaining]; lia |].
        intros x Hx. discriminate Hx.
    + rewrite (validateObjectPublish_in_progress _ _ _ Hlen L) in H.
      eapply writeCurrentObject_balanced; [| | | | | exact H].
      * exact Hh.
      * exact Hf.
      * exact Ho.
      * lia.
      * split; [reflexivity |].
        intros x Hx. cbn [currentLengthRemaining_ set_currentLengthRemaining] in Hx.
        inversion Hx; subst. lia.
  - inversion H; subst. apply balanced_afterReset, HB0.
  - inversion H; subst. exact HB0.
Qed.

Lemma balanced_objectPayload p fin : inv balanced (objectPayload T p fin).
Proof.
  intros w w' r HB H. assert (balanced w') as G; [| destruct r; exact G].
  destruct (writeHandle_ w) as [h |] eqn:Hh;
    [| by_inertness inv_objectPayload Hh HB H].
  pose proof HB as HB0. live_balanced HB Hh Ho Hpos Hf.
  unfold objectPayload in H. unfold bind at 1 in H.
  destruct (currentLengthRemaining_ w) as [rem |] eqn:Hr.
  - pose proof (Hpos rem eq_refl) as Hrem.
    assert (remaining w = rem) as Erem by (unfold remaining; rewrite Hr; reflexivity).
    rewrite Erem in Ho.
    destruct (Z.lt_trichotomy rem (computeChainDataLength p)) as [L | [L | L]].
    + rewrite (validateObjectPublish_exceeds _ fin _ _ Hr L) in H.
      inversion H; subst. apply balanced_afterReset, HB0.
    + rewrite (validateObjectPublish_done _ fin _ _ Hr (eq_sym L)) in H.
      eapply payload_balanced; [| | | exact Hrem | | | exact H].
      * exact Hh.
      * exact Hf.
      * exact Ho.
      * lia.
      * destruct fin; [lia |].
        split; [cbn [remaining currentLengthRemaining_
                     set_currentLengthRemaining]; lia |].
        intros x Hx. discriminate Hx.
    + destruct fin.
      * rewrite (validateObjectPublish_fin_open _ _ _ Hr L) in H.
        inversion H; subst.
        eapply balanced_afterReset_live; [exact Hh | exact Hf | exact Ho].
      * rewrite (validateObjectPublish_in_progress _ _ _ Hr L) in H.
        eapply payload_balanced; [| | | exact Hrem | | | exact H].
        -- exact Hh.
        -- exact Hf.
        -- exact Ho.
        -- lia.
        -- split; [reflexivity |].
           intros x Hx.
           cbn [currentLengthRemaining_ set_currentLengthRemaining] in Hx.
           inversion Hx; subst. lia.
  - rewrite (validateObjectPublish_none _ fin _ Hr) in H.
    inversion H; subst. exact HB0.
Qed.

Lemma balanced_endOfSubgroup : inv balanced (endOfSubgroup T).
Proof.
  intros w w' r HB H. assert (balanced w') as G; [| destruct r; exact G].
  destruct (writeHandle_ w) as [h |] eqn:Hh;
    [| by_inertness inv_endOfSubgroup Hh HB H].
  pose proof HB as HB0. live_balanced HB Hh Ho Hpos Hf.
  unfold endOfSubgroup in H. rewrite bind_get in H.
  destruct (currentLengthRemaining_ w) as [rem |] eqn:Hr; cbn [hasValue] in H.
  - rewrite bind_reset in H. inversion H; subst.
    apply balanced_afterReset, HB0.
  - rewrite (remaining_none _ Hr) in Ho.
    eapply (write_balanced true); [exact Hh | exact Hf | exact Ho | | exact H].
    reflexivity.
Qed.

Lemma balanced_onCancel : inv balanced onCancel.
Proof.
  intros w w' r HB H. assert (balanced w') as G; [| destruct r; exact G].
  unfold onCancel in H. rewrite bind_get in H.
  destruct (hasValue (writeHandle_ w)).
  - rewrite reset_eq in H. inversion H; subst. apply balanced_afterReset, HB.
  - inversion H; subst. exact HB.
Qed.

Lemma balanced_endOfFetch : inv balanced (endOfFetch T).
Proof.
  intros w w' r HB H. unfold endOfFetch in H. rewrite bind_get in H.
  destruct (hasValue (writeHandle_ w)).
  - exact (balanced_endOfSubgroup _ _ _ HB H).
  - inversion H; subst. exact HB.
Qed.

Lemma balanced_set_header hd w :
  edit true (header_ w) hd -> balanced w -> balanced (set_header hd w).
Proof. intros _ H. exact H. Qed.

Lemma step_balanced op w w' : balanced w -> step T op w = Some w' -> balanced w'.
Proof.
  intros HB H. destruct op; cbn [step] in H;
    (eapply inv_discard; [| exact HB | exact H]).
  - apply balanced_object.
  - apply balanced_publishStatus.
  - apply balanced_beginObject.
  - apply balanced_objectPayload.
  - apply balanced_publishStatus.
  - apply balanced_publishStatus.
  - apply balanced_endOfSubgroup.
  - apply balanced_publishStatus.
  - apply balanced_reset.
  - apply balanced_onCancel.
  - apply (inv_checked balanced true balanced_set_header); [reflexivity |].
    apply (inv_normal balanced true balanced_set_header), balanced_object.
  - apply (inv_checked balanced true balanced_set_header); [reflexivity |].
    apply balanced_publishStatus.
  - apply (inv_checked balanced true balanced_set_header); [reflexivity |].
    apply balanced_publishStatus.
  - apply (inv_checked balanced true balanced_set_header); [reflexivity |].
    apply (inv_normal balanced true balanced_set_header), balanced_beginObject.
  - apply (inv_checked balanced true balanced_set_header); [reflexivity |].
    apply balanced_publishStatus.
  - apply (inv_checked balanced true balanced_set_header); [reflexivity |].
    apply balanced_publishStatus.
  - apply balanced_endOfFetch.
Qed.

Lemma run_balanced ops : forall w w',
  balanced w -> run T ops w = Some w' -> balanced w'.
Proof.
  induction ops as [| op ops IH]; intros w w' HB H; cbn [run] in H.
  - inversion H; subst. exact HB.
  - destruct (step T op w) as [w1 |] eqn:E; [| discriminate].
    eapply IH; [| exact H]. eapply step_balanced; eauto.
Qed.

(** X9.  The frames a new writer hands to the transport always read well,
    over any sequence of calls: an object frame only comes when the
    previous object has all its bytes, and payload frames never bring more
    than the object declared.  While the writer holds its handle, what the
    last object still owes is [currentLengthRemaining_]; and a stream that
    was ended by a write with fin carries no unfinished object. *)
Theorem frames_handed_over_read_well :
  forall ops w w' h first,
    writeHandle_ w = Some h -> calls_ w = [] ->
    writeBuf_ w = [first] -> isHeaderFrame first = true ->
    currentLengthRemaining_ w = None ->
    run T ops w = Some w' ->
    (exists r, owed 0 (wire w') = Some r) /\
    (writeHandle_ w' <> None ->
     owed 0 (wire w' ++ writeBuf_ w') = Some (remaining w')) /\
    (finished w' -> owed 0 (wire w') = Some 0).
Proof.
  intros ops w w' h first Hh Hc Hb Hfirst Hr H.
  assert (balanced w) as HB.
  { unfold balanced. rewrite Hh. unfold frames, wire. rewrite Hc, Hb.
    cbn [flat_map app]. repeat split.
    - rewrite (remaining_none _ Hr).
      destruct first; try discriminate; reflexivity.
    - intros r E. congruence.
    - intros (h' & buf & Hin). rewrite Hc in Hin. exact Hin. }
  pose proof (run_balanced _ _ _ HB H) as HB'. unfold balanced in HB'.
  destruct (writeHandle_ w') as [h' |].
  - destruct HB' as (Ho & _ & Hf). unfold frames in Ho.
    split; [| split].
    + rewrite owed_app in Ho.
      destruct (owed 0 (wire w')) as [r1 |]; [exists r1; reflexivity |].
      discriminate Ho.
    + intros _. exact Ho.
    + intros Hfin. contradiction.
  - destruct HB' as (r & Ho & Hfin). unfold frames in Ho.
    split; [| split].
    + rewrite owed_app in Ho.
      destruct (owed 0 (wire w')) as [r1 |]; [exists r1; reflexivity |].
      discriminate Ho.
    + intros Hn. contradiction.
    + intros Hf. destruct (Hfin Hf) as (-> & E).
      rewrite E, app_nil_r in Ho. exact Ho.
Qed.

(** *** What the frames say about the stream *)

Lemma header_afterReset e w : header_ (afterReset e w) = header_ w.
Proof. unfold afterReset. destruct (writeHandle_ w); reflexivity. Qed.

Lemma header_write fin w w' r :
  writeToStream T fin w = Some (w', r) -> header_ w' = header_ w.
Proof.
  destruct (writeHandle_ w) as [h |] eqn:Hh.
  - rewrite (writeToStream_live T fin w h Hh).
    destruct (T (calls_ w) (writeBuf_ w) fin); intros H; inversion H; subst.
    + destruct fin; reflexivity.
    + rewrite header_afterReset. destruct fin; reflexivity.
  - rewrite writeToStream_null by exact Hh. discriminate.
Qed.

Lemma sameStream_edit fetch h0 h h' :
  edit fetch h h' -> sameStream fetch h0 h -> sameStream fetch h0 h'.
Proof.
  intros He (Hti & Hp & Hg).
  destruct He as [i h | l h | st h | g sg h Hf];
    (split; [exact Hti | split; [exact Hp |]]);
    intros E; first [exact (Hg E) | congruence].
Qed.

Lemma namesStream_stable fetch h0 :
  (forall e w, namesStream fetch h0 w -> namesStream fetch h0 (afterReset e w)) /\
  (forall fin w w' r,
     namesStream fetch h0 w -> writeToStream T fin w = Some (w', r) ->
     namesStream fetch h0 w') /\
  (forall h w, edit fetch (header_ w) h -> namesStream fetch h0 w ->
               namesStream fetch h0 (set_header h w)) /\
  (forall c w, namesStream fetch h0 w ->
               namesStream fetch h0 (set_currentLengthRemaining c w)) /\
  (forall f fin w w' r,
     namesStream fetch h0 w -> produced w f ->
     writeToStream T fin (set_writeBuf (writeBuf_ w ++ [f]) w) = Some (w', r) ->
     namesStream fetch h0 w').
Proof.
  split; [| split; [| split; [| split]]].
  - intros e w (H1 & H2). split.
    + rewrite header_afterReset. exact H1.
    + rewrite frames_afterReset. exact H2.
  - intros fin w w' r (H1 & H2) H. split.
    + rewrite (header_write _ _ _ _ H). exact H1.
    + rewrite (frames_write _ _ _ _ H). exact H2.
  - intros h w He (H1 & H2). split.
    + eapply sameStream_edit; [exact He | exact H1].
    + exact H2.
  - intros c w H. exact H.
  - intros f fin w w' r (H1 & H2) Hf H. split.
    + rewrite (header_write _ _ _ _ H). exact H1.
    + rewrite (frames_write _ _ _ _ H), frames_append, flat_map_app.
      apply Forall_app. split; [exact H2 |].
      destruct Hf as [(p & ->) | (p & ->)]; cbn [flat_map frameHeaders app].
      * constructor.
      * constructor; [exact H1 | constructor].
Qed.

Lemma run_namesStream fetch h0 ops w w' :
  Forall (allowed fetch) ops -> namesStream fetch h0 w ->
  run T ops w = Some w' -> namesStream fetch h0 w'.
Proof.
  destruct (namesStream_stable fetch h0) as (H1 & H2 & H3 & H4 & H5).
  apply (run_preserves T (namesStream fetch h0) fetch); assumption.
Qed.

Lemma newSubgroup_header sid h alias g sg :
  0 <= g ->
  header_ (newSubgroup sid h alias g sg) =
  ObjectHeader.mk (OfTrackAlias alias) g sg UINT64_MAX 0 NORMAL None.
Proof.
  intros Hg. unfold newSubgroup, newFetch, setGroupAndSubgroup.
  cbn [header_ set_header set_streamType header_set_trackIdentifier
       ObjectHeader.group ObjectHeader.trackIdentifier ObjectHeader.subgroup
       ObjectHeader.id ObjectHeader.priority ObjectHeader.status
       ObjectHeader.length].
  destruct (g <? 0) eqn:E; [apply Z.ltb_lt in E; lia |].
  destruct (0 <? g); reflexivity.
Qed.

Lemma newSubgroup_frames sid h alias g sg :
  frames (newSubgroup sid h alias g sg) =
  [SubgroupHeaderFrame (header_ (newSubgroup sid h alias g sg))].
Proof.
  unfold newSubgroup, setGroupAndSubgroup.
  destruct (g <? _); [| destruct (_ <? g)]; reflexivity.
Qed.

(** X10.  Every header a subgroup writer puts in a frame, the subgroup header
    and that of each object, carries the track alias, the group and the
    subgroup the writer was created for, and priority 0: the publisher
    priority given to [beginSubgroup] is not part of it. *)
Theorem subgroup_frames_name_the_subgroup :
  forall ops sid h alias g sg w',
    0 <= g ->
    Forall (fun op => subgroupOp op = true) ops ->
    run T ops (newSubgroup sid h alias g sg) = Some w' ->
    Forall (fun hd =>
              ObjectHeader.trackIdentifier hd = OfTrackAlias alias /\
              ObjectHeader.group hd = g /\
              ObjectHeader.subgroup hd = sg /\
              ObjectHeader.priority hd = 0)
           (flat_map frameHeaders (wire w' ++ writeBuf_ w')).
Proof.
  intros ops sid h alias g sg w' Hg Hops H.
  pose proof (newSubgroup_header sid h alias g sg Hg) as Hhd.
  assert (namesStream false (header_ (newSubgroup sid h alias g sg)) w')
    as (_ & Hall).
  { apply (run_namesStream _ _ ops (newSubgroup sid h alias g sg)).
    - eapply List.Forall_impl; [| exact Hops]. intros op E. right. exact E.
    - split; [repeat split |].
      rewrite newSubgroup_frames. cbn [flat_map frameHeaders app].
      constructor; [repeat split | constructor].
    - exact H. }
  rewrite Hhd in Hall.
  eapply List.Forall_impl; [| exact Hall].
  intros hd (Hti & Hp & Hgs). destruct (Hgs eq_refl) as (G1 & G2).
  repeat split; assumption.
Qed.

(** X11.  Every object header a fetch writer puts in a frame carries the
    subscribe ID of the fetch as its track identifier and priority 0,
    over any sequence of calls. *)
Theorem fetch_frames_name_the_fetch :
  forall ops sid h w',
    run T ops (newFetch sid h) = Some w' ->
    Forall (fun hd =>
              ObjectHeader.trackIdentifier hd = OfSubscribeID sid /\
              ObjectHeader.priority hd = 0)
           (flat_map frameHeaders (wire w' ++ writeBuf_ w')).
Proof.
  intros ops sid h w' H.
  assert (namesStream true (header_ (newFetch sid h)) w') as (_ & Hall).
  { apply (run_namesStream _ _ ops (newFetch sid h)).
    - apply allowed_all.
    - split; [split; [reflexivity | split; [reflexivity | discriminate]] |].
      constructor.
    - exact H. }
  eapply List.Forall_impl; [| exact Hall].
  intros hd (Hti & Hp & _). split; assumption.
Qed.

(** *** Error returns *)

Lemma triple_weaken {A} (P : StreamPublisherImpl -> Prop) (m : M A)
    (Q Q' : A -> StreamPublisherImpl -> Prop)
    (E E' : StreamPublisherImpl -> Prop) :
  (forall a w, Q a w -> Q' a w) -> (forall w, E w -> E' w) ->
  triple P m Q E -> triple P m Q' E'.
Proof.
  intros HQ HE Hm w w' r HP H. pose proof (Hm w w' r HP H) as G.
  destruct r; auto.
Qed.

Lemma fatal_refuse {A} P e c msg : fatal P (reset e ;; @makeUnexpected A c msg).
Proof.
  intros w w' r _ H. rewrite bind_reset in H. inversion H; subst.
  apply writeHandle_afterReset.
Qed.

(** [validatePublish] changes nothing when it lets the call through. *)
Lemma validatePublish_fatal (P : StreamPublisherImpl -> Prop) i :
  triple P (validatePublish i) (fun _ => P) (fun w => writeHandle_ w = None).
Proof.
  intros w w' r HP H.
  destruct (validatePublish_cases i w)
    as [(E & _) | [(m & E & _) | (E & _ & _ & Hh)]];
    rewrite E in H; inversion H; subst.
  - exact HP.
  - apply writeHandle_afterReset.
  - exact Hh.
Qed.

Lemma fatal_writeToStream P fin : fatal P (writeToStream T fin).
Proof.
  intros w w' r _ H. destruct r as [a | e]; [exact I |].
  destruct (writeHandle_ w) as [h |] eqn:Hh.
  - rewrite (writeToStream_live T fin w h Hh) in H.
    destruct (T (calls_ w) (writeBuf_ w) fin); inversion H; subst.
    apply writeHandle_afterReset.
  - rewrite writeToStream_null in H by exact Hh. discriminate.
Qed.

Lemma fatal_writeCurrentObject P i len p fin :
  fatal P (writeCurrentObject T i len p fin).
Proof.
  intros w w' r _ H. unfold writeCurrentObject in H.
  rewrite !bind_modify in H.
  exact (fatal_writeToStream (fun _ => True) fin _ _ _ I H).
Qed.

Lemma fatal_validateObjectPublish p fin :
  fatal (fun w => currentLengthRemaining_ w <> None)
        (validateObjectPublishAndUpdateState p fin).
Proof.
  intros w w' r Hr H. destruct r as [a | e]; [exact I |].
  destruct (currentLengthRemaining_ w) as [rem |] eqn:E; [| congruence].
  destruct (Z.lt_trichotomy rem (computeChainDataLength p)) as [L | [L | L]].
  - rewrite (validateObjectPublish_exceeds _ _ _ _ E L) in H.
    inversion H; subst. apply writeHandle_afterReset.
  - rewrite (validateObjectPublish_done _ _ _ _ E (eq_sym L)) in H.
    discriminate.
  - destruct fin.
    + rewrite (validateObjectPublish_fin_open _ _ _ E L) in H.
      inversion H; subst. apply writeHandle_afterReset.
    + rewrite (validateObjectPublish_in_progress _ _ _ E L) in H.
      discriminate.
Qed.

Lemma fatal_bind {A B} P (m : M A) Q (f : A -> M B) :
  triple P m Q (fun w => writeHandle_ w = None) ->
  (forall a, fatal (Q a) (f a)) -> fatal P (bind m f).
Proof. intros Hm Hf. eapply triple_bind; eauto. Qed.

Lemma fatal_pre {A} (P P' : StreamPublisherImpl -> Prop) (m : M A) :
  (forall w, P' w -> P w) -> fatal P m -> fatal P' m.
Proof. intros H Hm. eapply triple_pre; eauto. Qed.

Lemma fatal_object P i p fin : fatal P (object T i p fin).
Proof.
  eapply fatal_bind; [apply validatePublish_fatal |].
  intros ?; cbv beta. apply fatal_writeCurrentObject.
Qed.

Lemma fatal_publishStatus P i st fin : fatal P (publishStatus T i st fin).
Proof.
  eapply fatal_bind; [apply validatePublish_fatal |]. intros ?; cbv beta.
  eapply (fatal_bind _ _ (fun _ _ => True));
    [apply triple_modify; intros w _; exact I |].
  intros ?; cbv beta. apply fatal_writeCurrentObject.
Qed.

Lemma fatal_beginObject P i len p : fatal P (beginObject T i len p).
Proof.
  eapply fatal_bind; [apply validatePublish_fatal |]. intros ?; cbv beta.
  eapply (fatal_bind _ _ (fun _ w => currentLengthRemaining_ w <> None)).
  { apply triple_modify. intros w _. discriminate. }
  intros ?; cbv beta. eapply (fatal_bind _ _ (fun _ _ => True)).
  { apply fatal_validateObjectPublish. }
  intros ?; cbv beta. apply fatal_writeCurrentObject.
Qed.

Lemma fatal_endOfSubgroup P : fatal P (endOfSubgroup T).
Proof.
  apply triple_get. intros w0 _.
  destruct (hasValue (currentLengthRemaining_ w0)).
  - apply fatal_refuse.
  - apply fatal_writeToStream.
Qed.

(** A method whose error returns leave the writer without handle or as it
    was. *)
Lemma outcome_fatal {A} (m : M A) w w' e :
  fatal (fun _ => True) m -> outcome m w = Some (w', Some e) ->
  w' = w \/ writeHandle_ w' = None.
Proof.
  intros Hm H. unfold outcome in H.
  destruct (m w) as [[w1 [a | e1]] |] eqn:E; inversion H; subst.
  right. exact (Hm _ _ _ I E).
Qed.

Lemma outcome_checked {A} g sg (m : M A) w w' e :
  fatal (fun _ => True) m ->
  outcome (checkGroupAndSubgroup g sg ;; m) w = Some (w', Some e) ->
  w' = w \/ writeHandle_ w' = None.
Proof.
  intros Hm H. unfold outcome in H.
  destruct ((checkGroupAndSubgroup g sg ;; m) w) as [[w1 [a | e1]] |] eqn:E;
    inversion H; subst.
  apply after_checkGroup in E.
  destruct E as [(-> & _) | (wm & _ & E)]; [left; reflexivity |].
  right. exact (Hm _ _ _ I E).
Qed.

(** X26.  An error return never leaves a stream open in a changed state.
    Whatever method of the writer returns an error, either the writer is
    exactly as it was before the call (the call was refused outright), or
    it has dropped its handle: the stream was reset, or was already
    over. *)
Theorem error_returns_change_nothing_or_end_the_stream :
  forall op w w' e,
    perform T op w = Some (w', Some e) ->
    w' = w \/ writeHandle_ w' = None.
Proof.
  intros op w w' e H. destruct op; cbn [perform] in H.
  - eapply outcome_fatal; [apply fatal_object | exact H].
  - eapply outcome_fatal; [apply fatal_publishStatus | exact H].
  - eapply outcome_fatal; [apply fatal_beginObject | exact H].
  - unfold outcome in H.
    destruct (objectPayload T payload finStream w) as [[w1 [a | e1]] |] eqn:E;
      inversion H; subst.
    unfold objectPayload in E. apply bind_inv in E.
    destruct E as [(e2 & E & _) | (w2 & a & E1 & E2)].
    + destruct (currentLengthRemaining_ w) as [rem |] eqn:Hr.
      * right.
        apply (fatal_validateObjectPublish payload finStream w w'
                 (Unexpected e2)); [congruence | exact E].
      * rewrite (validateObjectPublish_none _ _ _ Hr) in E.
        inversion E; subst. left. reflexivity.
    + right. rewrite bind_modify in E2. apply bind_inv in E2.
      destruct E2 as [(e2 & E2 & _) | (w3 & [] & _ & E3)];
        [| discriminate].
      exact (fatal_writeToStream (fun _ => True) finStream _ _ _ I E2).
  - eapply outcome_fatal; [apply fatal_publishStatus | exact H].
  - eapply outcome_fatal; [apply fatal_publishStatus | exact H].
  - eapply outcome_fatal; [apply fatal_endOfSubgroup | exact H].
  - eapply outcome_fatal; [apply fatal_publishStatus | exact H].
  - unfold outcome in H. rewrite reset_eq in H. discriminate.
  - unfold outcome, onCancel in H. rewrite bind_get in H.
    destruct (hasValue (writeHandle_ w)); [rewrite reset_eq in H |];
      discriminate.
  - eapply outcome_checked; [| exact H].
    eapply (fatal_bind _ _ (fun _ _ => True));
      [apply triple_modify; intros w1 _; exact I |].
    intros ?; cbv beta. apply fatal_object.
  - eapply outcome_checked; [apply fatal_publishStatus | exact H].
  - eapply outcome_checked; [apply fatal_publishStatus | exact H].
  - eapply outcome_checked; [| exact H].
    eapply (fatal_bind _ _ (fun _ _ => True));
      [apply triple_modify; intros w1 _; exact I |].
    intros ?; cbv beta. apply fatal_beginObject.
  - eapply outcome_checked; [apply fatal_publishStatus | exact H].
  - eapply outcome_checked; [apply fatal_publishStatus | exact H].
  - unfold outcome in H.
    destruct (endOfFetch T w) as [[w1 [a | e1]] |] eqn:E; inversion H; subst.
    unfold endOfFetch in E. rewrite bind_get in E.
    destruct (writeHandle_ w) eqn:Hh; cbn [hasValue] in E.
    + right. exact (fatal_endOfSubgroup (fun _ => True) _ _ _ I E).
    + inversion E; subst. left. reflexivity.
Qed.

End WithTransport.

(** An object whose ID does not advance is refused and the stream is
    reset. *)
Lemma error_returns_change_nothing_or_end_the_stream_witness :
  exists w' e,
    perform alwaysAccepts (Object 3 abc false)
      (runOn [Object 3 abc false] subgroup7) = Some (w', Some e) /\
    (w' = runOn [Object 3 abc false] subgroup7 \/ writeHandle_ w' = None).
Proof.
  do 2 eexists. split.
  - vm_compute. reflexivity.
  - apply (error_returns_change_nothing_or_end_the_stream alwaysAccepts
             (Object 3 abc false) (runOn [Object 3 abc false] subgroup7)
             _ (MoQPublishError.mk MoQPublishError.API_ERROR
                  "Object ID not advancing in subgroup")).
    vm_compute. reflexivity.
Defined.



Lemma stream_header_comes_first_and_once_witness :
  exists rest,
    wire (runOn [Object 3 abc false; BeginObject 5 4 abc] subgroup7) ++
    writeBuf_ (runOn [Object 3 abc false; BeginObject 5 4 abc] subgroup7) =
    SubgroupHeaderFrame (header_ subgroup7) :: rest /\
    Forall (fun f => isHeaderFrame f = false) rest.
Proof.
  apply (stream_header_comes_first_and_once alwaysAccepts
           [Object 3 abc false; BeginObject 5 4 abc] subgroup7).
  - vm_compute. reflexivity.
  - vm_compute. reflexivity.
  - vm_compute. reflexivity.
Defined.

(** An object of 4 bytes begun with 3 of them owes 1 byte. *)
Lemma frames_handed_over_read_well_witness :
  (exists r,
     owed 0 (wire (runOn [Object 3 abc false; BeginObject 5 4 abc] subgroup7))
     = Some r) /\
  (writeHandle_ (runOn [Object 3 abc false; BeginObject 5 4 abc] subgroup7)
   <> None ->
   owed 0 (wire (runOn [Object 3 abc false; BeginObject 5 4 abc] subgroup7) ++
           writeBuf_ (runOn [Object 3 abc false; BeginObject 5 4 abc] subgroup7))
   = Some (remaining
             (runOn [Object 3 abc false; BeginObject 5 4 abc] subgroup7))) /\
  (finished (runOn [Object 3 abc false; BeginObject 5 4 abc] subgroup7) ->
   owed 0 (wire (runOn [Object 3 abc false; BeginObject 5 4 abc] subgroup7))
   = Some 0).
Proof.
  apply (frames_handed_over_read_well alwaysAccepts
           [Object 3 abc false; BeginObject 5 4 abc] subgroup7 _ 4
           (SubgroupHeaderFrame (header_ subgroup7))).
  - vm_compute. reflexivity.
  - vm_compute. reflexivity.
  - vm_compute. reflexivity.
  - reflexivity.
  - vm_compute. reflexivity.
  - vm_compute. reflexivity.
Defined.

(** Two objects on the subgroup writer of group 7, subgroup 0, alias 0. *)
Lemma subgroup_frames_name_the_subgroup_witness :
  Forall (fun hd =>
            ObjectHeader.trackIdentifier hd = OfTrackAlias 0 /\
            ObjectHeader.group hd = 7 /\
            ObjectHeader.subgroup hd = 0 /\
            ObjectHeader.priority hd = 0)
         (flat_map frameHeaders
            (wire (runOn [Object 3 abc false; BeginObject 5 4 abc] subgroup7) ++
             writeBuf_ (runOn [Object 3 abc false; BeginObject 5 4 abc]
                          subgroup7))).
Proof.
  apply (subgroup_frames_name_the_subgroup alwaysAccepts
           [Object 3 abc false; BeginObject 5 4 abc] 0 4 0 7 0).
  - lia.
  - repeat constructor.
  - vm_compute. reflexivity.
Defined.

(** Objects of groups 1 and 2 on the fetch writer of subscribe ID 9. *)
Lemma fetch_frames_name_the_fetch_witness :
  Forall (fun hd =>
            ObjectHeader.trackIdentifier hd = OfSubscribeID 9 /\
            ObjectHeader.priority hd = 0)
         (flat_map frameHeaders
            (wire (runOn [FetchObject 1 0 0 abc false;
                          FetchObject 2 0 0 abc false] (newFetch 9 4)) ++
             writeBuf_ (runOn [FetchObject 1 0 0 abc false;
                               FetchObject 2 0 0 abc false] (newFetch 9 4)))).
Proof.
  apply (fetch_frames_name_the_fetch alwaysAccepts
           [FetchObject 1 0 0 abc false; FetchObject 2 0 0 abc false] 9 4).
  vm_compute. reflexivity.
Defined.

End WriterTraceFacts.

(** ** Facts about the track publisher's streams *)

Module TrackPublisherFacts.
Import Writer WriterProps WriterFacts WriterTrace WriterTraceFacts.
Import TrackPublisher.

Section WithTransport.
Variable T : list Call -> list Frame -> bool -> bool.

Lemma newSubgroup_eq sid h alias g sg :
  0 <= g ->
  newSubgroup sid h alias g sg =
  Writer.mk (Some h) STREAM_HEADER_SUBGROUP
    (ObjectHeader.mk (OfTrackAlias alias) g sg UINT64_MAX 0 NORMAL None) None
    [SubgroupHeaderFrame
       (ObjectHeader.mk (OfTrackAlias alias) g sg UINT64_MAX 0 NORMAL None)]
    [].
Proof.
  intros Hg. unfold newSubgroup, newFetch, setGroupAndSubgroup.
  cbn [header_ set_header set_streamType header_set_trackIdentifier
       ObjectHeader.group].
  destruct (g <? 0) eqn:E; [apply Z.ltb_lt in E; lia |].
  destruct (0 <? g); reflexivity.
Qed.

(** What the call of [objectStream] does to the new writer: one write with
    fin, then the completion callback, whether the write succeeded or
    not. *)
Lemma publishOnce_new sid h alias objHeader payload :
  0 <= ObjectHeader.group objHeader ->
  ObjectHeader.status objHeader = NORMAL \/ payload = None ->
  exists w1 final,
    publishOnce T objHeader payload
      (newSubgroup sid h alias (ObjectHeader.group objHeader)
         (ObjectHeader.subgroup objHeader)) =
    Some (w1,
          if T [] (oneShotFrames alias objHeader payload) true then Value tt
          else Unexpected (MoQPublishError.mk MoQPublishError.WRITE_ERROR
                             "write error")) /\
    calls_ w1 =
      [WriteStreamData h (oneShotFrames alias objHeader payload) true;
       OnStreamComplete final] /\
    ObjectHeader.group final = ObjectHeader.group objHeader /\
    ObjectHeader.subgroup final = ObjectHeader.subgroup objHeader.
Proof.
  intros Hg Hx. rewrite (newSubgroup_eq _ _ _ _ _ Hg).
  destruct objHeader as [ti g sg i pri st len].
  cbn [ObjectHeader.group ObjectHeader.subgroup ObjectHeader.status] in *.
  assert (st = NORMAL \/ (st <> NORMAL /\ payload = None)) as [-> | (Hst & ->)].
  { destruct st; auto; right; (split; [discriminate |]);
      destruct Hx as [Hx | Hx]; auto; discriminate. }
  - destruct (T [] (oneShotFrames alias
                      (ObjectHeader.mk ti g sg i pri NORMAL len) payload) true)
      eqn:E; cbv in E; do 2 eexists; (split; [cbv; rewrite E; reflexivity |]);
      repeat split.
  - destruct st; try congruence;
      destruct (T [] (oneShotFrames alias
                        (ObjectHeader.mk ti g sg i pri _ len) None) true)
        eqn:E; cbv in E; do 2 eexists;
        (split; [cbv; rewrite E; reflexivity |]); repeat split.
Qed.

(** X12.  [objectStream] on a session with stream credit opens one stream and
    is done with it.  It sets the stream's priority from the subscriber
    priority, the priority of [objHeader] and the group order, makes one
    write with fin that carries the subgroup header and the object (the
    header alone for END_OF_SUBGROUP), with the publisher's alias and
    priority 0 in both, and leaves no entry for (group, subgroup) in
    [subgroups_], not even one that was there before.  It returns
    WRITE_ERROR exactly when the transport refuses the write. *)
Theorem objectStream_opens_writes_and_forgets :
  forall tp h objHeader payload,
    0 <= ObjectHeader.group objHeader ->
    ObjectHeader.status objHeader = NORMAL \/ payload = None ->
    let g := ObjectHeader.group objHeader in
    let sg := ObjectHeader.subgroup objHeader in
    let written :=
      oneShotFrames (TrackPublisherImpl.trackAlias_ (base tp)) objHeader
        payload in
    objectStream T true (Some h) objHeader payload tp =
    Some (TrackPublisher.mk (base tp) (delete (g, sg) (subgroups_ tp))
            (transport_ tp ++
             [SetPriority h 1
                (Priority.getStreamPriority g sg
                   (TrackPublisherImpl.subPriority_ (base tp))
                   (ObjectHeader.priority objHeader)
                   (TrackPublisherImpl.groupOrder_ (base tp)))
                false;
              OnStream (WriteStreamData h written true)]),
          if T [] written true then Value tt
          else Unexpected (MoQPublishError.mk MoQPublishError.WRITE_ERROR
                             "write error")).
Proof.
  intros tp h objHeader payload Hg Hx g sg written.
  unfold objectStream.
  assert (negb
            (match ObjectHeader.status objHeader with
             | NORMAL => true
             | _ => false
             end || negb (hasValue payload)) = false) as ->.
  { destruct Hx as [-> | ->]; [reflexivity |].
    destruct (ObjectHeader.status objHeader); reflexivity. }
  unfold beginSubgroup. cbn [negb].
  destruct (publishOnce_new (TrackPublisherImpl.subscribeID_ (base tp)) h
              (TrackPublisherImpl.trackAlias_ (base tp)) objHeader payload
              Hg Hx) as (w1 & final & E & Hcalls & Hfg & Hfsg).
  rewrite E. unfold settle. rewrite Hcalls.
  rewrite (newSubgroup_eq _ _ _ _ _ Hg).
  cbn [calls_ List.length drop fold_left deliver].
  unfold TrackPublisher.onStreamComplete. cbn [base subgroups_ transport_].
  rewrite Hfg, Hfsg, !delete_insert_eq, <- app_assoc.
  reflexivity.
Qed.

End WithTransport.

(** END_OF_GROUP for group 7, subgroup 0 while a subgroup writer for (7, 0)
    is open: the entry is gone afterwards. *)
Lemma objectStream_opens_writes_and_forgets_witness :
  exists tp',
    objectStream alwaysAccepts true (Some 8)
      (ObjectHeader.mk (OfTrackAlias 0) 7 0 5 3 END_OF_GROUP None) None
      publisher7 = Some (tp', Value tt) /\
    subgroups_ tp' !! (7, 0) = None /\
    List.length (transport_ tp') = 2%nat.
Proof.
  eexists. split; [| split].
  - rewrite (objectStream_opens_writes_and_forgets alwaysAccepts publisher7 8
               (ObjectHeader.mk (OfTrackAlias 0) 7 0 5 3 END_OF_GROUP None)
               None).
    + reflexivity.
    + cbn. lia.
    + right. reflexivity.
  - vm_compute. reflexivity.
  - reflexivity.
Defined.

End TrackPublisherFacts.

(** ** Facts about the session's handlers *)

Module SessionTraceFacts.
Import Session SessionProps SessionTrace SessionFacts.

Section WithCodec.
Variable write : list ControlFrame -> ControlFrame -> bool.
Variable INVALID_RANGE FETCH_INTERNAL_ERROR : Z.
Variable locationLess : AbsoluteLocation -> AbsoluteLocation -> bool.

Lemma updates_trans a s1 s2 s3 :
  updates write a s1 s2 -> updates write a s2 s3 -> updates write a s1 s3.
Proof.
  intros H12 H23. induction H23 as [| s2 s3 s4 _ IH Hu]; [exact H12 |].
  eapply updates_more; [apply IH; exact H12 | exact Hu].
Qed.

Lemma updates_one a s1 s2 : update write a s1 s2 -> updates write a s1 s2.
Proof. intros H. eapply updates_more; [apply updates_none | exact H]. Qed.

(** Peels the outermost assignment off the target state. *)
Ltac upd :=
  cbv beta iota zeta;
  lazymatch goal with
  | |- updates _ _ ?s ?s => apply updates_none
  | |- updates _ _ _ (signal _) =>
      eapply updates_more; [| apply signalled]; upd
  | |- updates _ _ _ (set_controlWriteBuf (_ ++ [_]) _) =>
      eapply updates_more; [| apply reply_written; reflexivity]; upd
  | |- updates _ _ _ (set_closedSubscribes _ _) =>
      eapply updates_more; [| apply closed_counted]; upd
  | |- updates _ _ _ (set_maxSubscribeID _ _) =>
      eapply updates_more; [| apply max_raised]; upd
  | |- updates _ _ _ (set_pubTracks _ _) =>
      eapply updates_more; [| apply publishers_changed]; upd
  | |- updates _ _ _ (set_controlMessages (_ ++ [_]) _) =>
      eapply updates_more; [| apply message_queued]; upd
  | |- updates _ _ _ (close _ _ _) =>
      eapply updates_more; [| apply session_closed]; upd
  | |- updates _ _ _ (drain _ _) =>
      eapply updates_more; [| apply draining_started]; upd
  | |- updates _ _ _ (checkForCloseOnDrain _ (set_fetches (delete _ _) _)) =>
      eapply updates_more; [| apply fetch_removed]; upd
  end.

Lemma writeFrame_updates f s :
  requestID f = None -> updates write false s (fst (writeFrame write f s)).
Proof.
  intros Hf. destruct (writeFrame_cases write f s) as [(_ & ->) | (_ & ->)];
    cbn [fst]; [| apply updates_none].
  apply updates_one, reply_written, Hf.
Qed.

(** [writeX(...)] followed by [controlWriteEvent_.signal()] on success. *)
Lemma written_and_signalled f s :
  requestID f = None ->
  updates write false s
    (let '(s2, res) := writeFrame write f s in
     if negb res then s2 else signal s2).
Proof.
  intros Hf. destruct (writeFrame_cases write f s) as [(_ & ->) | (_ & ->)];
    cbn [negb]; [| apply updates_none].
  eapply updates_more; [| apply signalled].
  apply updates_one, reply_written, Hf.
Qed.

Lemma sendMaxSubscribeID_updates b s :
  updates write false s (sendMaxSubscribeID write b s).
Proof.
  unfold sendMaxSubscribeID.
  destruct (writeFrame_cases write
              (MaxSubscribeIdFrame (MaxSubscribeId.mk (maxSubscribeID_ s))) s)
    as [(_ & ->) | (_ & ->)]; cbn [negb]; [| apply updates_none].
  destruct b; upd.
Qed.

Lemma retireSubscribeId_updates b s :
  updates write false s (retireSubscribeId write b s).
Proof.
  unfold retireSubscribeId. cbv zeta.
  destruct (_ <=? _).
  - eapply updates_trans; [| apply sendMaxSubscribeID_updates]. upd.
  - upd.
Qed.

Lemma fetchComplete_updates i s : updates write false s (fetchComplete write i s).
Proof.
  unfold fetchComplete. destruct (pubTracks_ s !! i); [| apply updates_none].
  eapply updates_trans; [| apply retireSubscribeId_updates]. upd.
Qed.

Lemma resetPublisher_updates e p s :
  updates write false s (resetPublisher write e p s).
Proof.
  unfold resetPublisher. destruct p as [tp | fp]; [apply updates_none |].
  destruct (hasValue _); [apply fetchComplete_updates | apply updates_none].
Qed.

Lemma subscribeError_updates e s : updates write false s (subscribeError write e s).
Proof.
  unfold subscribeError.
  destruct (pubTracks_ s !! _); [| apply updates_none]. cbv zeta.
  match goal with |- context [writeFrame write ?f ?x] =>
    destruct (writeFrame_cases write f x) as [(_ & ->) | (_ & ->)] end;
    cbn [negb].
  - eapply updates_more; [| apply signalled].
    eapply updates_trans; [| apply retireSubscribeId_updates]. upd.
  - eapply updates_trans; [| apply retireSubscribeId_updates]. upd.
Qed.

Lemma subscribeDone_updates d s : updates write false s (subscribeDone write d s).
Proof.
  unfold subscribeDone.
  destruct (pubTracks_ s !! _); [| apply updates_none]. cbv zeta.
  match goal with |- context [writeFrame write ?f ?x] =>
    destruct (writeFrame_cases write f x) as [(_ & ->) | (_ & ->)] end;
    cbn [negb].
  - eapply updates_more; [| apply signalled].
    eapply updates_trans; [| apply retireSubscribeId_updates]. upd.
  - upd.
Qed.

Lemma fetchError_updates e s : updates write false s (fetchError write e s).
Proof.
  unfold fetchError. cbv zeta.
  eapply updates_trans; [| apply written_and_signalled; reflexivity]. upd.
Qed.

Lemma subscribeOk_updates m s :
  updates write false s (subscribeOk write FETCH_INTERNAL_ERROR m s).
Proof.
  unfold subscribeOk.
  destruct (pubTracks_ s !! _) as [[tp | fp] |]; [| | apply updates_none].
  - cbv zeta.
    eapply updates_trans; [| apply written_and_signalled; reflexivity]. upd.
  - apply subscribeError_updates.
Qed.

Lemma fetchOk_updates m stream s :
  updates write false s (fetchOk write FETCH_INTERNAL_ERROR m stream s).
Proof.
  unfold fetchOk.
  destruct (pubTracks_ s !! _) as [[tp | fp] |]; [| | apply updates_none].
  - apply fetchError_updates.
  - destruct (Publisher.beginFetch _ _ _ _) as [fp' [[] | e]].
    + cbv zeta.
      eapply updates_trans; [| apply written_and_signalled; reflexivity]. upd.
    + apply fetchError_updates.
Qed.

Lemma checkForCloseOnDrain_updates s :
  updates write false s (checkForCloseOnDrain write s).
Proof. unfold checkForCloseOnDrain. destruct (_ && _); upd. Qed.

Lemma closeIfInvalid_updates i s :
  updates write false s (fst (closeSessionIfSubscribeIdInvalid write i s)).
Proof.
  unfold closeSessionIfSubscribeIdInvalid. destruct (_ <=? _); cbn [fst]; upd.
Qed.

Lemma onSubscribe_updates m s : updates write false s (onSubscribe write m s).
Proof.
  unfold onSubscribe. cbv zeta.
  pose proof (closeIfInvalid_updates (SubscribeRequest.subscribeID m) s) as H.
  destruct (closeSessionIfSubscribeIdInvalid write _ s) as [s1 invalid].
  cbn [fst] in H. destruct invalid; [exact H |].
  eapply updates_trans; [exact H |].
  destruct (pubTracks_ s1 !! _); [apply subscribeError_updates | upd].
Qed.

Lemma onSubscribeUpdate_updates m s :
  updates write false s (onSubscribeUpdate write m s).
Proof.
  unfold onSubscribeUpdate. cbv zeta.
  destruct (pubTracks_ s !! _); [| apply updates_none].
  pose proof (closeIfInvalid_updates (SubscribeUpdate.subscribeID m) s) as H.
  destruct (closeSessionIfSubscribeIdInvalid write _ s) as [s1 invalid].
  cbn [fst] in H. destruct invalid; [exact H |].
  eapply updates_trans; [exact H |]. upd.
Qed.

Lemma onFetch_updates m s :
  updates write false s (onFetch write INVALID_RANGE locationLess m s).
Proof.
  unfold onFetch. cbv zeta.
  pose proof (closeIfInvalid_updates (Fetch.subscribeID m) s) as H.
  destruct (closeSessionIfSubscribeIdInvalid write _ s) as [s1 invalid].
  cbn [fst] in H. destruct invalid; [exact H |].
  eapply updates_trans; [exact H |].
  destruct (locationLess _ _); [apply fetchError_updates |].
  destruct (pubTracks_ s1 !! _); [apply fetchError_updates | upd].
Qed.

Lemma onFetchCancel_updates m s : updates write false s (onFetchCancel write m s).
Proof.
  unfold onFetchCancel. destruct (pubTracks_ s !! _); [| apply updates_none].
  eapply updates_trans; [apply resetPublisher_updates |].
  apply retireSubscribeId_updates.
Qed.

Lemma onMaxSubscribeId_updates m s :
  updates write false s (onMaxSubscribeId write m s).
Proof.
  unfold onMaxSubscribeId. destruct (_ <? _) eqn:E; [| upd].
  apply updates_one, peer_max_raised. apply Z.ltb_lt. exact E.
Qed.

Lemma onUnsubscribe_updates m s : updates write false s (onUnsubscribe m s).
Proof. unfold onUnsubscribe. upd. Qed.

Lemma onSubscribeOk_updates m s : updates write false s (onSubscribeOk m s).
Proof.
  unfold onSubscribeOk.
  destruct (subIdToTrackAlias_ s !! _) as [alias |]; [| apply updates_none].
  destruct (subTracks_ s !! alias) as [st |] eqn:E; [| apply updates_none].
  eapply updates_one, subscription_touched, E.
Qed.

Lemma subscription_removed_absent k i s :
  subTracks_ s !! k = None ->
  update write false s
    (checkForCloseOnDrain write
       (set_subIdToTrackAlias (delete i (subIdToTrackAlias_ s)) s)).
Proof.
  intros H. pose proof (subscription_removed write false k i s) as U.
  rewrite (delete_id _ _ H) in U. destruct s. exact U.
Qed.

Lemma onSubscribeError_updates m s :
  updates write false s (onSubscribeError write m s).
Proof.
  unfold onSubscribeError.
  destruct (subIdToTrackAlias_ s !! _) as [alias |]; [| apply updates_none].
  destruct (subTracks_ s !! alias) as [st |]; [| apply updates_none].
  cbv zeta. apply updates_one.
  exact (subscription_removed write false alias
           (SubscribeError.subscribeID m) s).
Qed.

Lemma onSubscribeDone_updates m s :
  updates write false s (onSubscribeDone write m s).
Proof.
  unfold onSubscribeDone.
  destruct (subIdToTrackAlias_ s !! _) as [alias |]; [| apply updates_none].
  cbv zeta. destruct (subTracks_ s !! alias) as [st |] eqn:E.
  - apply updates_one.
    exact (subscription_removed write false alias
             (SubscribeDone.subscribeID m) s).
  - apply updates_one. exact (subscription_removed_absent alias _ s E).
Qed.

Lemma onFetchOk_updates m s : updates write false s (onFetchOk write m s).
Proof.
  unfold onFetchOk.
  destruct (fetches_ s !! _) as [st |] eqn:E; [| apply updates_none].
  cbv zeta. destruct (fetchOkAndAllDataReceived _).
  - apply updates_one, fetch_removed.
  - eapply updates_one, fetch_touched, E.
Qed.

Lemma onFetchError_updates m s : updates write false s (onFetchError write m s).
Proof.
  unfold onFetchError.
  destruct (fetches_ s !! _) as [st |]; [| apply updates_none].
  apply updates_one, fetch_removed.
Qed.

Lemma unsubscribe_updates m s : updates write false s (unsubscribe write m s).
Proof.
  unfold unsubscribe.
  destruct (subIdToTrackAlias_ s !! _) as [alias |]; [| apply updates_none].
  destruct (subTracks_ s !! alias) as [st |] eqn:E; [| apply updates_none].
  cbv zeta.
  eapply updates_trans; [| apply written_and_signalled; reflexivity].
  eapply updates_one, subscription_touched, E.
Qed.

Lemma fetchCancel_updates m s : updates write false s (fetchCancel write m s).
Proof.
  unfold fetchCancel.
  destruct (fetches_ s !! _) as [st |] eqn:E; [| apply updates_none].
  cbv zeta.
  eapply updates_trans; [| apply written_and_signalled; reflexivity].
  destruct (fetchOkAndAllDataReceived _).
  - apply updates_one, fetch_removed.
  - eapply updates_one, fetch_touched, E.
Qed.

Lemma subscribeUpdate_updates m s :
  updates write false s (subscribeUpdate write m s).
Proof.
  unfold subscribeUpdate.
  destruct (subIdToTrackAlias_ s !! _) as [alias |]; [| apply updates_none].
  destruct (subTracks_ s !! alias) as [st |]; [| apply updates_none].
  apply written_and_signalled. reflexivity.
Qed.

Lemma nextSubscribeID_writeFrame f s :
  nextSubscribeID_ (fst (writeFrame write f s)) = nextSubscribeID_ s /\
  subIdToTrackAlias_ (fst (writeFrame write f s)) = subIdToTrackAlias_ s /\
  subTracks_ (fst (writeFrame write f s)) = subTracks_ s /\
  fetches_ (fst (writeFrame write f s)) = fetches_ s.
Proof.
  destruct (writeFrame_cases write f s) as [(_ & ->) | (_ & ->)];
    repeat split.
Qed.

Lemma subscribe_updates m cb s s' r :
  subscribe write m cb s = Some (s', r) -> updates write true s s'.
Proof.
  unfold subscribe. cbv zeta.
  match goal with |- context [writeFrame write ?f ?x] =>
    pose proof (request_allocated write true f s eq_refl eq_refl) as U;
    destruct (nextSubscribeID_writeFrame f x) as (Hn & _);
    destruct (writeFrame write f x) as [s2 wres] end.
  cbn [fst] in U, Hn. destruct wres; cbn [negb].
  - destruct (subIdToTrackAlias_ (signal s2) !! _) eqn:E1; [discriminate |].
    destruct (subTracks_ (signal s2) !! _) eqn:E2; [discriminate |].
    intros H. inversion H; subst. clear H.
    eapply updates_more;
      [| exact (subscription_added write true (nextSubscribeID_ s) _
                  (signal s2) eq_refl (eq_sym Hn) E1 E2)].
    eapply updates_more; [| apply signalled]. apply updates_one, U.
  - intros H. inversion H; subst. apply updates_one, U.
Qed.

Lemma fetch_updates m cb s s' r :
  fetch write m cb s = Some (s', r) -> updates write true s s'.
Proof.
  unfold fetch. cbv zeta.
  match goal with |- context [writeFrame write ?f ?x] =>
    pose proof (request_allocated write true f s eq_refl eq_refl) as U;
    destruct (nextSubscribeID_writeFrame f x) as (Hn & _);
    destruct (writeFrame write f x) as [s2 wres] end.
  cbn [fst] in U, Hn. destruct wres; cbn [negb].
  - destruct (fetches_ (signal s2) !! _) eqn:E1; [discriminate |].
    intros H. inversion H; subst. clear H.
    eapply updates_more;
      [| exact (fetch_added write true (nextSubscribeID_ s) _ (signal s2)
                  eq_refl (eq_sym Hn) E1)].
    eapply updates_more; [| apply signalled]. apply updates_one, U.
  - intros H. inversion H; subst. apply updates_one, U.
Qed.

Lemma update_weaken s s' : update write false s s' -> update write true s s'.
Proof. intros H. destruct H; try discriminate; econstructor; eassumption. Qed.

Lemma updates_weaken a s s' :
  updates write false s s' -> updates write a s s'.
Proof.
  destruct a; [| auto]. intros H.
  induction H as [| s1 s2 s3 _ IH Hu]; [apply updates_none |].
  eapply updates_more; [exact IH | apply update_weaken, Hu].
Qed.

(** Every handler is a sequence of the updates of [update]; only
    [subscribe] and [fetch] allocate. *)
Lemma handle_updates e s s' :
  handle write INVALID_RANGE FETCH_INTERNAL_ERROR locationLess e s = Some s' ->
  updates write (allocates e) s s'.
Proof.
  destruct e; cbn [handle allocates]; intros H.
  - inversion H; subst. apply onSubscribe_updates.
  - inversion H; subst. apply onSubscribeUpdate_updates.
  - inversion H; subst. apply onUnsubscribe_updates.
  - inversion H; subst. apply onMaxSubscribeId_updates.
  - inversion H; subst. apply onFetch_updates.
  - inversion H; subst. apply onFetchCancel_updates.
  - inversion H; subst. apply onSubscribeOk_updates.
  - inversion H; subst. apply onSubscribeError_updates.
  - inversion H; subst. apply onSubscribeDone_updates.
  - inversion H; subst. apply onFetchOk_updates.
  - inversion H; subst. apply onFetchError_updates.
  - inversion H; subst. apply unsubscribe_updates.
  - inversion H; subst. apply fetchCancel_updates.
  - inversion H; subst. apply subscribeUpdate_updates.
  - inversion H; subst. apply subscribeOk_updates.
  - inversion H; subst. apply subscribeError_updates.
  - inversion H; subst. apply subscribeDone_updates.
  - inversion H; subst. apply fetchOk_updates.
  - inversion H; subst. apply fetchError_updates.
  - inversion H; subst. apply fetchComplete_updates.
  - destruct (subscribe write m callback s) as [[s1 r] |] eqn:E;
      inversion H; subst. eapply subscribe_updates, E.
  - destruct (fetch write m fetchCallback s) as [[s1 r] |] eqn:E;
      inversion H; subst. eapply fetch_updates, E.
  - inversion H; subst. upd.
  - inversion H; subst. upd.
Qed.

Lemma handleAll_updates es : forall s s',
  handleAll write INVALID_RANGE FETCH_INTERNAL_ERROR locationLess es s = Some s' ->
  updates write true s s'.
Proof.
  induction es as [| e es IH]; intros s s' H; cbn [handleAll] in H.
  - inversion H; subst. apply updates_none.
  - destruct (handle _ _ _ _ e s) as [s1 |] eqn:E; [| discriminate].
    eapply updates_trans; [| apply IH, H].
    apply handle_updates in E. destruct (allocates e); [exact E |].
    apply updates_weaken, E.
Qed.

(** *** What [close] and the credit helpers leave alone *)

Lemma untouched_refl s : untouched s s.
Proof. repeat split. Qed.

Lemma untouched_trans s1 s2 s3 :
  untouched s1 s2 -> untouched s2 s3 -> untouched s1 s3.
Proof.
  unfold untouched. intros H12 H23.
  destruct H12 as (?&?&?&?&?&?&?&?&?&?&?).
  destruct H23 as (?&?&?&?&?&?&?&?&?&?&?).
  repeat split; congruence.
Qed.

Lemma requests_app f s :
  requests (set_controlWriteBuf (controlWriteBuf_ s ++ [f]) s) =
  requests s ++ match requestID f with Some i => [i] | None => [] end.
Proof.
  unfold requests. cbn [controlWriteBuf_ set_controlWriteBuf].
  rewrite omap_app. cbn [omap list_omap]. destruct (requestID f); reflexivity.
Qed.

Lemma untouched_writeFrame f s :
  requestID f = None -> untouched s (fst (writeFrame write f s)).
Proof.
  intros Hf. destruct (writeFrame_cases write f s) as [(_ & ->) | (_ & ->)];
    cbn [fst]; [| apply untouched_refl].
  repeat split. rewrite requests_app, Hf. apply app_nil_r.
Qed.

Lemma untouched_sendMaxSubscribeID b s :
  untouched s (sendMaxSubscribeID write b s).
Proof.
  unfold sendMaxSubscribeID.
  pose proof (untouched_writeFrame
                (MaxSubscribeIdFrame (MaxSubscribeId.mk (maxSubscribeID_ s))) s
                eq_refl) as H.
  destruct (writeFrame write _ s) as [s1 res]. cbn [fst] in H.
  destruct res; cbn [negb]; [| exact H].
  destruct b; [| exact H].
  eapply untouched_trans; [exact H | repeat split].
Qed.

Lemma untouched_retireSubscribeId b s :
  untouched s (retireSubscribeId write b s).
Proof.
  unfold retireSubscribeId. cbv zeta. destruct (_ <=? _).
  - eapply untouched_trans; [| apply untouched_sendMaxSubscribeID].
    repeat split.
  - repeat split.
Qed.

Lemma untouched_fetchComplete i s : untouched s (fetchComplete write i s).
Proof.
  unfold fetchComplete. destruct (pubTracks_ s !! i); [| apply untouched_refl].
  eapply untouched_trans; [| apply untouched_retireSubscribeId]. repeat split.
Qed.

Lemma untouched_resetPublisher e p s :
  untouched s (resetPublisher write e p s).
Proof.
  unfold resetPublisher. destruct p as [tp | fp]; [apply untouched_refl |].
  destruct (hasValue _); [apply untouched_fetchComplete | apply untouched_refl].
Qed.

Lemma untouched_resetAll e (l : list (Z * PublisherImpl)) : forall s,
  untouched s
    (fold_left (fun acc entry => resetPublisher write e (snd entry) acc) l s).
Proof.
  induction l as [| x l IH]; intros s; cbn [fold_left];
    [apply untouched_refl |].
  eapply untouched_trans; [apply untouched_resetPublisher | apply IH].
Qed.

Lemma cleanup_fields s :
  wt_ (cleanup write s) = wt_ s /\
  cancellationRequested_ (cleanup write s) = true /\
  closeSessionCalls_ (cleanup write s) = closeSessionCalls_ s /\
  subTracks_ (cleanup write s) = ∅ /\
  fetches_ (cleanup write s) = ∅ /\
  draining_ (cleanup write s) = draining_ s /\
  nextSubscribeID_ (cleanup write s) = nextSubscribeID_ s /\
  peerMaxSubscribeID_ (cleanup write s) = peerMaxSubscribeID_ s /\
  subIdToTrackAlias_ (cleanup write s) = subIdToTrackAlias_ s /\
  requests (cleanup write s) = requests s.
Proof.
  destruct (untouched_resetAll ResetStreamErrorCode.SESSION_CLOSED
              (map_to_list (pubTracks_ s)) s)
    as (_ & Hw & Hd & _ & Hn & Hp & _ & Ha & _ & Hc & Hr).
  unfold cleanup. cbv zeta.
  split; [exact Hw |]. split; [reflexivity |]. split; [exact Hc |].
  split; [reflexivity |]. split; [reflexivity |]. split; [exact Hd |].
  split; [exact Hn |]. split; [exact Hp |]. split; [exact Ha | exact Hr].
Qed.

(** An open session after [close(error)]. *)
Lemma close_fields error s :
  wt_ s = true ->
  wt_ (close write error s) = false /\
  cancellationRequested_ (close write error s) = true /\
  closeSessionCalls_ (close write error s) = closeSessionCalls_ s ++ [error] /\
  subTracks_ (close write error s) = ∅ /\
  fetches_ (close write error s) = ∅ /\
  draining_ (close write error s) = draining_ s /\
  nextSubscribeID_ (close write error s) = nextSubscribeID_ s /\
  peerMaxSubscribeID_ (close write error s) = peerMaxSubscribeID_ s /\
  subIdToTrackAlias_ (close write error s) = subIdToTrackAlias_ s /\
  requests (close write error s) = requests s.
Proof.
  intros H. unfold close. rewrite H.
  destruct (cleanup_fields (set_wt false s))
    as (Hw & _ & Hc & Hs & Hf & Hd & Hn & Hp & Ha & Hr).
  split; [exact Hw |]. split; [reflexivity |].
  split; [exact (f_equal (fun l => l ++ [error]) Hc) |].
  split; [exact Hs |]. split; [exact Hf |]. split; [exact Hd |].
  split; [exact Hn |]. split; [exact Hp |]. split; [exact Ha | exact Hr].
Qed.

Lemma checkForCloseOnDrain_cases s :
  checkForCloseOnDrain write s = s \/
  (draining_ s = true /\ subTracks_ s = ∅ /\ fetches_ s = ∅ /\
   checkForCloseOnDrain write s = close write SessionCloseErrorCode.NO_ERROR s).
Proof.
  unfold checkForCloseOnDrain.
  destruct (draining_ s); [| left; reflexivity].
  destruct (bool_decide (fetches_ s = ∅)) eqn:E1; [| left; reflexivity].
  destruct (bool_decide (subTracks_ s = ∅)) eqn:E2; [| left; reflexivity].
  right. apply bool_decide_eq_true in E1, E2. auto.
Qed.

(** A predicate every update preserves holds after any events. *)
Lemma updates_preserve a (P : MoQSession -> Prop) :
  (forall s s', update write a s s' -> P s -> P s') ->
  forall s s', updates write a s s' -> P s -> P s'.
Proof.
  intros Hstep s s' H. induction H as [| s1 s2 s3 _ IH Hu]; [auto |].
  intros HP. eapply Hstep; [exact Hu | auto].
Qed.

(** *** The session is closed once *)

Lemma closedOnce_close error s : closedOnce s -> closedOnce (close write error s).
Proof.
  intros H. destruct (wt_ s) eqn:Hw.
  - destruct (close_fields error s Hw) as (H1 & H2 & H3 & _).
    destruct H as [(_ & Hc) | (Hf & _)]; [| congruence].
    right. rewrite H1, H2, H3, Hc. eauto.
  - rewrite close_closed by exact Hw. exact H.
Qed.

Lemma closedOnce_check s :
  closedOnce s -> closedOnce (checkForCloseOnDrain write s).
Proof.
  intros H. destruct (checkForCloseOnDrain_cases s) as [-> | (_ & _ & _ & ->)];
    [exact H | apply closedOnce_close, H].
Qed.

Lemma closedOnce_update a s s' :
  update write a s s' -> closedOnce s -> closedOnce s'.
Proof.
  intros Hu H. destruct Hu; try exact H.
  - apply closedOnce_close, H.
  - apply closedOnce_check. exact H.
  - apply closedOnce_check. exact H.
  - apply closedOnce_check. exact H.
  - match goal with |- context [writeFrame write ?f ?x] =>
      destruct (writeFrame_cases write f x) as [(_ & ->) | (_ & ->)] end;
      exact H.
Qed.

(** X13.  [close] calls the transport's [closeSession] at most once, and
    [start] calls it too.  After any subscribe and fetch events
    (inbound messages, calls of the application, [drain] and [close]) on an
    open session that [close] never closed, either it is still open and
    [close] has not called [closeSession], or it has no transport, [close]
    called [closeSession] exactly once, with an error code, and
    cancellation is requested.  [start], on a client that gets no control
    stream, calls [closeSession()] too, and leaves the session as it was,
    transport attached: a [close(error)] that follows calls
    [closeSession(error)], which is then the second call on that
    transport.  The handlers of the setup exchange reach the transport
    through [close] only and keep the first statement. *)
Theorem closeSession_calls_of_close_and_start
    (kVersionDraftCurrent MAX_SUBSCRIBE_ID : Z) :
  (forall es s s',
     wt_ s = true -> closeSessionCalls_ s = [] ->
     handleAll write INVALID_RANGE FETCH_INTERNAL_ERROR locationLess es s
     = Some s' ->
     (wt_ s' = true /\ closeSessionCalls_ s' = []) \/
     (wt_ s' = false /\ cancellationRequested_ s' = true /\
      exists code, closeSessionCalls_ s' = [code])) /\
  (forall s error,
     dir_ s = CLIENT -> wt_ s = true ->
     start false s = Some (s, true) /\
     wt_ (close write error s) = false /\
     closeSessionCalls_ (close write error s) =
       closeSessionCalls_ s ++ [error]) /\
  (forall cs s s' closed,
     start cs s = Some (s', closed) ->
     s' = s /\ (closed = true <-> dir_ s = CLIENT /\ cs = false)) /\
  (forall s,
     closedOnce s ->
     (forall m s' written,
        setup write MAX_SUBSCRIBE_ID m s = Some (s', written) ->
        closedOnce s') /\
     (forall m s',
        onServerSetup write kVersionDraftCurrent MAX_SUBSCRIBE_ID m s
        = Some s' ->
        closedOnce s') /\
     (forall m answer s',
        onClientSetup write kVersionDraftCurrent MAX_SUBSCRIBE_ID m answer s
        = Some s' ->
        closedOnce s')).
Proof.
  split; [| split; [| split]].
  - intros es s s' Hw Hc H. apply handleAll_updates in H.
    apply (updates_preserve true closedOnce (closedOnce_update true) s s' H).
    left. auto.
  - intros s error Hd Hw. split.
    + unfold start. rewrite Hd, Hw. reflexivity.
    + destruct (close_open write error s Hw) as (H1 & _ & H2 & _). auto.
  - intros cs s s' closed H. unfold start in H.
    destruct (dir_ s); [destruct (wt_ s); [| discriminate] |];
      inversion H; subst; (split; [reflexivity |]).
    + destruct cs; cbn [negb]; split; try discriminate; auto.
      intros [_ E]. discriminate.
    + split; [discriminate |]. intros [E _]. discriminate.
  - intros s Hs. split; [| split].
    + intros m s' written H. unfold setup in H.
      destruct (dir_ s); [| discriminate].
      match type of H with context [writeFrame write ?f ?x] =>
        destruct (writeFrame_cases write f x) as [(_ & E) | (_ & E)];
        rewrite E in H end;
        cbn [negb] in H; inversion H; subst; exact Hs.
    + intros m s' H. unfold onServerSetup in H.
      destruct (dir_ s); [| discriminate].
      destruct (ServerSetup.selectedVersion m =? kVersionDraftCurrent);
        cbn [negb] in H; inversion H; subst; [exact Hs |].
      exact (closedOnce_close SessionCloseErrorCode.PROTOCOL_VIOLATION s Hs).
    + intros m answer s' H. unfold onClientSetup in H.
      destruct (dir_ s); [discriminate |].
      destruct (existsb _ (ClientSetup.supportedVersions m));
        cbn [negb] in H.
      * destruct answer as [serverSetup |].
        -- match type of H with context [writeFrame write ?f ?x] =>
             destruct (writeFrame_cases write f x) as [(_ & E) | (_ & E)];
             rewrite E in H end;
             cbn [negb] in H; inversion H; subst; exact Hs.
        -- inversion H; subst.
           match goal with |- closedOnce (close write ?e ?x) =>
             exact (closedOnce_close e x Hs) end.
      * inversion H; subst.
        exact (closedOnce_close SessionCloseErrorCode.PROTOCOL_VIOLATION s Hs).
Qed.

(** *** The peer's limit *)

Lemma close_keeps error s :
  draining_ (close write error s) = draining_ s /\
  nextSubscribeID_ (close write error s) = nextSubscribeID_ s /\
  peerMaxSubscribeID_ (close write error s) = peerMaxSubscribeID_ s /\
  subIdToTrackAlias_ (close write error s) = subIdToTrackAlias_ s /\
  requests (close write error s) = requests s.
Proof.
  destruct (wt_ s) eqn:Hw.
  - destruct (close_fields error s Hw) as (_&_&_&_&_&H1&H2&H3&H4&H5). auto.
  - rewrite close_closed by exact Hw. auto.
Qed.

Lemma checkForCloseOnDrain_keeps s :
  draining_ (checkForCloseOnDrain write s) = draining_ s /\
  nextSubscribeID_ (checkForCloseOnDrain write s) = nextSubscribeID_ s /\
  peerMaxSubscribeID_ (checkForCloseOnDrain write s) = peerMaxSubscribeID_ s /\
  subIdToTrackAlias_ (checkForCloseOnDrain write s) = subIdToTrackAlias_ s /\
  requests (checkForCloseOnDrain write s) = requests s.
Proof.
  destruct (checkForCloseOnDrain_cases s) as [-> | (_ & _ & _ & ->)];
    [auto | apply close_keeps].
Qed.

Lemma peerMax_update a s s' :
  update write a s s' -> peerMaxSubscribeID_ s <= peerMaxSubscribeID_ s'.
Proof.
  intros Hu. destruct Hu; try (cbn; lia).
  - destruct (close_keeps error s) as (_ & _ & -> & _). lia.
  - unfold drain. destruct (checkForCloseOnDrain_keeps (set_draining true s))
      as (_ & _ & -> & _). cbn. lia.
  - match goal with |- context [checkForCloseOnDrain write ?x] =>
      destruct (checkForCloseOnDrain_keeps x) as (_ & _ & -> & _) end.
    cbn. lia.
  - match goal with |- context [checkForCloseOnDrain write ?x] =>
      destruct (checkForCloseOnDrain_keeps x) as (_ & _ & -> & _) end.
    cbn. lia.
  - match goal with |- context [writeFrame write ?f ?x] =>
      destruct (writeFrame_cases write f x) as [(_ & ->) | (_ & ->)] end;
      cbn; lia.
Qed.

(** X14.  The limit learnt from the peer is raised by MAX_SUBSCRIBE_ID
    and assigned by the peer's setup message.  Over the subscribe and
    fetch events of a session [peerMaxSubscribeID_] never goes down: a MAX_SUBSCRIBE_ID that does not raise it closes the
    session and leaves it as it is.  [onServerSetup] and [onClientSetup],
    when the version is accepted, assign it the value of the peer's
    MAX_SUBSCRIBE_ID parameter, 0 without one, whatever it was before;
    when the version is refused they leave it.  [setup] leaves it. *)
Theorem peer_limit_is_raised_or_set_by_setup
    (kVersionDraftCurrent MAX_SUBSCRIBE_ID : Z) :
  (forall es s s',
     handleAll write INVALID_RANGE FETCH_INTERNAL_ERROR locationLess es s
     = Some s' ->
     peerMaxSubscribeID_ s <= peerMaxSubscribeID_ s') /\
  (forall m s s',
     onServerSetup write kVersionDraftCurrent MAX_SUBSCRIBE_ID m s = Some s' ->
     peerMaxSubscribeID_ s' =
       if ServerSetup.selectedVersion m =? kVersionDraftCurrent
       then getMaxSubscribeIdIfPresent MAX_SUBSCRIBE_ID (ServerSetup.params m)
       else peerMaxSubscribeID_ s) /\
  (forall m answer s s',
     onClientSetup write kVersionDraftCurrent MAX_SUBSCRIBE_ID m answer s
     = Some s' ->
     peerMaxSubscribeID_ s' =
       if existsb (fun v => v =? kVersionDraftCurrent)
            (ClientSetup.supportedVersions m)
       then getMaxSubscribeIdIfPresent MAX_SUBSCRIBE_ID (ClientSetup.params m)
       else peerMaxSubscribeID_ s) /\
  (forall m s s' written,
     setup write MAX_SUBSCRIBE_ID m s = Some (s', written) ->
     peerMaxSubscribeID_ s' = peerMaxSubscribeID_ s).
Proof.
  split; [| split; [| split]].
  - intros es s s' H. apply handleAll_updates in H.
    apply (updates_preserve true
             (fun x => peerMaxSubscribeID_ s <= peerMaxSubscribeID_ x))
      with (s := s); [| exact H | lia].
    intros s1 s2 Hu Hle. pose proof (peerMax_update _ _ _ Hu). lia.
  - intros m s s' H. unfold onServerSetup in H.
    destruct (dir_ s); [| discriminate].
    destruct (ServerSetup.selectedVersion m =? kVersionDraftCurrent);
      cbn [negb] in H; inversion H; subst; [reflexivity |].
    cbn [peerMaxSubscribeID_ set_setupPromise].
    destruct (close_keeps SessionCloseErrorCode.PROTOCOL_VIOLATION s)
      as (_ & _ & E & _). exact E.
  - intros m answer s s' H. unfold onClientSetup in H.
    destruct (dir_ s); [discriminate |].
    destruct (existsb _ (ClientSetup.supportedVersions m));
      cbn [negb] in H.
    + destruct answer as [serverSetup |].
      * match type of H with context [writeFrame write ?f ?x] =>
          destruct (writeFrame_cases write f x) as [(_ & E) | (_ & E)];
          rewrite E in H end;
          cbn [negb] in H; inversion H; subst; reflexivity.
      * inversion H; subst.
        match goal with |- context [close write ?e ?x] =>
          destruct (close_keeps e x) as (_ & _ & E & _) end.
        rewrite E. reflexivity.
    + inversion H; subst.
      destruct (close_keeps SessionCloseErrorCode.PROTOCOL_VIOLATION s)
        as (_ & _ & E & _). exact E.
  - intros m s s' written H. unfold setup in H.
    destruct (dir_ s); [| discriminate].
    match type of H with context [writeFrame write ?f ?x] =>
      destruct (writeFrame_cases write f x) as [(_ & E) | (_ & E)];
      rewrite E in H end;
      cbn [negb] in H; inversion H; subst; reflexivity.
Qed.

(** *** Draining *)

Lemma drainsOut_close error s : drainsOut s -> drainsOut (close write error s).
Proof.
  intros (Hd & H). destruct (wt_ s) eqn:Hw.
  - destruct (close_fields error s Hw) as (H1 & _ & _ & _ & _ & H2 & _).
    split; [congruence |]. intros E. congruence.
  - rewrite close_closed by exact Hw. split; [exact Hd |]. intros E.
    congruence.
Qed.

Lemma drainsOut_check s :
  draining_ s = true -> drainsOut (checkForCloseOnDrain write s).
Proof.
  intros Hd. unfold checkForCloseOnDrain. rewrite Hd. cbn [andb].
  destruct (bool_decide (fetches_ s = ∅)) eqn:E1; cbn [andb].
  - destruct (bool_decide (subTracks_ s = ∅)) eqn:E2.
    + destruct (wt_ s) eqn:Hw.
      * destruct (close_fields SessionCloseErrorCode.NO_ERROR s Hw)
          as (H1 & _ & _ & _ & _ & H2 & _).
        split; [congruence |]. intros E. congruence.
      * rewrite close_closed by exact Hw. split; [exact Hd |]. congruence.
    + apply bool_decide_eq_false in E2. split; auto.
  - apply bool_decide_eq_false in E1. split; auto.
Qed.

Lemma drainsOut_update a s s' :
  update write a s s' -> drainsOut s -> drainsOut s'.
Proof.
  intros Hu H. pose proof H as (Hd & Hw). destruct Hu; try exact H.
  - apply drainsOut_close, H.
  - apply drainsOut_check. reflexivity.
  - split; [exact Hd |]. intros _. left. apply insert_non_empty.
  - apply drainsOut_check. exact Hd.
  - split; [exact Hd |]. intros _. right. apply insert_non_empty.
  - apply drainsOut_check. exact Hd.
  - match goal with |- context [writeFrame write ?f ?x] =>
      destruct (writeFrame_cases write f x) as [(_ & ->) | (_ & ->)] end;
      exact H.
  - split; [exact Hd |]. intros _. left. apply insert_non_empty.
  - split; [exact Hd |]. intros _. right. apply insert_non_empty.
Qed.

(** X15.  A draining session does not stay open without work.  After
    [drain()], whatever events follow, a session that still has its
    transport has a subscription or a fetch outstanding: when the last of
    them goes, the session is closed. *)
Theorem draining_session_closes_when_idle :
  forall es s s',
    handleAll write INVALID_RANGE FETCH_INTERNAL_ERROR locationLess es
      (drain write s) = Some s' ->
    draining_ s' = true /\
    (wt_ s' = true -> subTracks_ s' <> ∅ \/ fetches_ s' <> ∅).
Proof.
  intros es s s' H. apply handleAll_updates in H.
  apply (updates_preserve true drainsOut (drainsOut_update true) _ _ H).
  apply drainsOut_check. reflexivity.
Qed.

(** *** Allocation of SubscribeIDs *)

Lemma within_refl s : within s s.
Proof. repeat split; auto. Qed.

Lemma within_trans s1 s2 s3 : within s1 s2 -> within s2 s3 -> within s1 s3.
Proof.
  intros (H1 & H2 & H3) (G1 & G2 & G3). repeat split; try congruence. auto.
Qed.

Lemma within_close error s : within s (close write error s).
Proof.
  destruct (wt_ s) eqn:Hw.
  - destruct (close_fields error s Hw)
      as (_ & _ & _ & Hs & Hf & _ & Hn & _ & Ha & Hr).
    repeat split; try assumption.
    unfold receiving. rewrite Hs, Hf, Ha. intros k [H | [H | H]].
    + left. exact H.
    + rewrite lookup_empty in H. destruct H; discriminate.
    + rewrite lookup_empty in H. destruct H; discriminate.
  - rewrite close_closed by exact Hw. apply within_refl.
Qed.

Lemma within_check s : within s (checkForCloseOnDrain write s).
Proof.
  destruct (checkForCloseOnDrain_cases s) as [-> | (_ & _ & _ & ->)];
    [apply within_refl | apply within_close].
Qed.

Lemma is_Some_insert_present {A} (m : gmap Z A) k k' x y :
  m !! k = Some x -> is_Some (<[k := y]> m !! k') -> is_Some (m !! k').
Proof.
  intros Hk H. destruct (decide (k = k')) as [<- | Hne].
  - rewrite Hk. eauto.
  - rewrite lookup_insert_ne in H by exact Hne. exact H.
Qed.

Lemma is_Some_delete {A} (m : gmap Z A) k k' :
  is_Some (delete k m !! k') -> is_Some (m !! k').
Proof.
  intros [x H]. apply lookup_delete_Some in H. destruct H as (_ & H). eauto.
Qed.

Lemma within_update s s' : update write false s s' -> within s s'.
Proof.
  intros Hu. inversion Hu; subst; try discriminate;
    try (solve [repeat split; auto]).
  - repeat split; auto. rewrite requests_app, H. apply app_nil_r.
  - apply within_close.
  - unfold drain. eapply within_trans; [| apply within_check].
    repeat split; auto.
  - repeat split; auto. unfold receiving. cbn.
    intros k' [Hk | [Hk | Hk]]; auto.
    right; left. eapply is_Some_insert_present; eauto.
  - eapply within_trans; [| apply within_check].
    repeat split; auto. unfold receiving. cbn.
    intros k' [Hk | [Hk | Hk]]; auto.
    + left. eapply is_Some_delete, Hk.
    + right; left. eapply is_Some_delete, Hk.
  - repeat split; auto. unfold receiving. cbn.
    intros k' [Hk | [Hk | Hk]]; auto.
    right; right. eapply is_Some_insert_present; eauto.
  - eapply within_trans; [| apply within_check].
    repeat split; auto. unfold receiving. cbn.
    intros k' [Hk | [Hk | Hk]]; auto.
    right; right. eapply is_Some_delete, Hk.
Qed.

Lemma within_updates s s' : updates write false s s' -> within s s'.
Proof.
  intros H. induction H as [| s1 s2 s3 _ IH Hu]; [apply within_refl |].
  eapply within_trans; [exact IH | apply within_update, Hu].
Qed.

Lemma fresh_within s s' : within s s' -> fresh s -> fresh s'.
Proof.
  intros (Hn & Hr & Hk) (H0 & H1 & H2 & H3). unfold fresh.
  rewrite Hn, Hr. repeat split; auto.
Qed.

Lemma fresh_not_receiving s :
  fresh s -> ~ receiving s (nextSubscribeID_ s).
Proof. intros (_ & H & _) Hr. apply H in Hr. lia. Qed.

Lemma not_is_Some {A} (o : option A) : ~ is_Some o -> o = None.
Proof. destruct o; [intros H; destruct H; eauto | reflexivity]. Qed.

(** The state after the allocation and the write of the request. *)
Lemma fresh_allocated f s :
  fresh s -> nextSubscribeID_ s < 2 ^ 64 - 1 ->
  requestID f = Some (nextSubscribeID_ s) ->
  let s2 :=
    fst (writeFrame write f
           (set_nextSubscribeID (uint64 (nextSubscribeID_ s + 1)) s)) in
  nextSubscribeID_ s2 = nextSubscribeID_ s + 1 /\
  (forall k, receiving s2 k -> receiving s k) /\
  Forall (fun i => i < nextSubscribeID_ s + 1) (requests s2) /\
  StronglySorted Z.lt (requests s2).
Proof.
  intros (H0 & H1 & H2 & H3) Hlt Hf.
  assert (uint64 (nextSubscribeID_ s + 1) = nextSubscribeID_ s + 1) as Hu
    by (apply uint64_small; lia).
  assert (Forall (fun i => i < nextSubscribeID_ s + 1) (requests s)) as H2'.
  { eapply List.Forall_impl; [| exact H2]. cbv beta. intros; lia. }
  destruct (writeFrame_cases write f
              (set_nextSubscribeID (uint64 (nextSubscribeID_ s + 1)) s))
    as [(_ & ->) | (_ & ->)]; cbv zeta; cbn [fst].
  - rewrite requests_app, Hf. cbn [nextSubscribeID_ set_controlWriteBuf
      set_nextSubscribeID]. rewrite Hu.
    split; [reflexivity |]. split; [auto |]. split.
    + apply Forall_app. split; [exact H2' |]. repeat constructor. lia.
    + apply WriterFacts.StronglySorted_snoc; assumption.
  - cbn [nextSubscribeID_ set_nextSubscribeID]. rewrite Hu.
    split; [reflexivity |]. split; [auto |]. split; assumption.
Qed.

Lemma subscribe_fresh m cb s :
  fresh s -> nextSubscribeID_ s < 2 ^ 64 - 1 ->
  exists s' r,
    subscribe write m cb s = Some (s', r) /\ fresh s' /\
    nextSubscribeID_ s' = nextSubscribeID_ s + 1.
Proof.
  intros Hfresh Hlt. pose proof Hfresh as (H0 & _).
  pose proof (fresh_not_receiving s Hfresh) as Hnew.
  unfold subscribe. cbv zeta.
  match goal with |- context [writeFrame write ?f ?x] =>
    destruct (fresh_allocated f s Hfresh Hlt eq_refl) as (Hn & Hk & Hr & Hs);
    destruct (writeFrame write f x) as [s2 wres] end.
  cbv zeta in Hn, Hk, Hr, Hs. cbn [fst] in Hn, Hk, Hr, Hs.
  destruct wres; cbn [negb].
  - assert (subIdToTrackAlias_ (signal s2) !! nextSubscribeID_ s = None) as E1.
    { apply not_is_Some. intros Hi. apply Hnew, Hk. left. exact Hi. }
    assert (subTracks_ (signal s2) !! nextSubscribeID_ s = None) as E2.
    { apply not_is_Some. intros Hi. apply Hnew, Hk. right; left. exact Hi. }
    rewrite E1, E2. do 2 eexists. split; [reflexivity |].
    split; [| exact Hn]. unfold fresh.
    change (nextSubscribeID_ (set_subTracks _ _)) with (nextSubscribeID_ s2).
    change (requests (set_subTracks _ _)) with (requests s2).
    rewrite Hn. repeat split; try assumption; [lia |].
    intros k [Hi | [Hi | Hi]]; cbn in Hi.
    + destruct (decide (nextSubscribeID_ s = k)) as [<- | Hne]; [lia |].
      rewrite lookup_insert_ne in Hi by exact Hne.
      destruct Hfresh as (_ & Hb & _).
      assert (k < nextSubscribeID_ s) by (apply Hb, Hk; left; exact Hi). lia.
    + destruct (decide (nextSubscribeID_ s = k)) as [<- | Hne]; [lia |].
      rewrite lookup_insert_ne in Hi by exact Hne.
      destruct Hfresh as (_ & Hb & _).
      assert (k < nextSubscribeID_ s)
        by (apply Hb, Hk; right; left; exact Hi). lia.
    + destruct Hfresh as (_ & Hb & _).
      assert (k < nextSubscribeID_ s)
        by (apply Hb, Hk; right; right; exact Hi). lia.
  - do 2 eexists. split; [reflexivity |]. split; [| exact Hn].
    unfold fresh. rewrite Hn. repeat split; try assumption; [lia |].
    intros k Hi. destruct Hfresh as (_ & Hb & _).
    assert (k < nextSubscribeID_ s) by (apply Hb, Hk, Hi). lia.
Qed.

Lemma fetch_fresh m cb s :
  fresh s -> nextSubscribeID_ s < 2 ^ 64 - 1 ->
  exists s' r,
    fetch write m cb s = Some (s', r) /\ fresh s' /\
    nextSubscribeID_ s' = nextSubscribeID_ s + 1.
Proof.
  intros Hfresh Hlt. pose proof Hfresh as (H0 & _).
  pose proof (fresh_not_receiving s Hfresh) as Hnew.
  unfold fetch. cbv zeta.
  match goal with |- context [writeFrame write ?f ?x] =>
    destruct (fresh_allocated f s Hfresh Hlt eq_refl) as (Hn & Hk & Hr & Hs);
    destruct (writeFrame write f x) as [s2 wres] end.
  cbv zeta in Hn, Hk, Hr, Hs. cbn [fst] in Hn, Hk, Hr, Hs.
  destruct wres; cbn [negb].
  - assert (fetches_ (signal s2) !! nextSubscribeID_ s = None) as E1.
    { apply not_is_Some. intros Hi. apply Hnew, Hk. right; right. exact Hi. }
    rewrite E1. do 2 eexists. split; [reflexivity |].
    split; [| exact Hn]. unfold fresh.
    change (nextSubscribeID_ (set_fetches _ _)) with (nextSubscribeID_ s2).
    change (requests (set_fetches _ _)) with (requests s2).
    rewrite Hn. repeat split; try assumption; [lia |].
    intros k [Hi | [Hi | Hi]]; cbn in Hi.
    + destruct Hfresh as (_ & Hb & _).
      assert (k < nextSubscribeID_ s) by (apply Hb, Hk; left; exact Hi). lia.
    + destruct Hfresh as (_ & Hb & _).
      assert (k < nextSubscribeID_ s)
        by (apply Hb, Hk; right; left; exact Hi). lia.
    + destruct (decide (nextSubscribeID_ s = k)) as [<- | Hne]; [lia |].
      rewrite lookup_insert_ne in Hi by exact Hne.
      destruct Hfresh as (_ & Hb & _).
      assert (k < nextSubscribeID_ s)
        by (apply Hb, Hk; right; right; exact Hi). lia.
  - do 2 eexists. split; [reflexivity |]. split; [| exact Hn].
    unfold fresh. rewrite Hn. repeat split; try assumption; [lia |].
    intros k Hi. destruct Hfresh as (_ & Hb & _).
    assert (k < nextSubscribeID_ s) by (apply Hb, Hk, Hi). lia.
Qed.

Lemma handle_fresh e s :
  fresh s -> nextSubscribeID_ s < 2 ^ 64 - 1 ->
  exists s',
    handle write INVALID_RANGE FETCH_INTERNAL_ERROR locationLess e s = Some s' /\
    fresh s' /\
    nextSubscribeID_ s <= nextSubscribeID_ s' <= nextSubscribeID_ s + 1.
Proof.
  intros Hfresh Hlt.
  destruct (allocates e) eqn:Ea.
  - destruct e; try discriminate; cbn [handle].
    + destruct (subscribe_fresh m callback s Hfresh Hlt)
        as (s' & r & -> & Hf & Hn).
      exists s'. split; [reflexivity | split; [exact Hf | lia]].
    + destruct (fetch_fresh m fetchCallback s Hfresh Hlt)
        as (s' & r & -> & Hf & Hn).
      exists s'. split; [reflexivity | split; [exact Hf | lia]].
  - assert (exists s',
      handle write INVALID_RANGE FETCH_INTERNAL_ERROR locationLess e s
      = Some s') as (s' & E).
    { destruct e; try discriminate; cbn [handle]; eauto. }
    exists s'. split; [exact E |].
    apply handle_updates in E. rewrite Ea in E.
    apply within_updates in E. split; [exact (fresh_within _ _ E Hfresh) |].
    destruct E as (-> & _). lia.
Qed.

Lemma handleAll_fresh es : forall s,
  fresh s -> nextSubscribeID_ s + Z.of_nat (List.length es) < 2 ^ 64 ->
  exists s',
    handleAll write INVALID_RANGE FETCH_INTERNAL_ERROR locationLess es s
    = Some s' /\ fresh s'.
Proof.
  induction es as [| e es IH]; intros s Hfresh Hlen; cbn [handleAll].
  - eauto.
  - cbn [List.length] in Hlen.
    destruct (handle_fresh e s Hfresh) as (s1 & -> & Hf1 & Hn1); [lia |].
    apply IH; [exact Hf1 | lia].
Qed.

(** X16.  The XCHECKs of [subscribe] and [fetch] never fail.  On a session
    whose receive states all sit below [nextSubscribeID_], any sequence of
    events that does not exhaust the 64-bit SubscribeIDs is handled to the
    end: each allocated ID is a new key of [subIdToTrackAlias_],
    [subTracks_] and [fetches_]. *)
Theorem allocated_subscribe_ids_are_new :
  forall es s,
    fresh s ->
    nextSubscribeID_ s + Z.of_nat (List.length es) < 2 ^ 64 ->
    exists s',
      handleAll write INVALID_RANGE FETCH_INTERNAL_ERROR locationLess es s
      = Some s' /\
      forall k, receiving s' k -> k < nextSubscribeID_ s'.
Proof.
  intros es s Hfresh Hlen.
  destruct (handleAll_fresh es s Hfresh Hlen) as (s' & E & (_ & Hk & _)).
  eauto.
Qed.

(** X17.  The SUBSCRIBE and FETCH requests in the control buffer carry
    strictly increasing SubscribeIDs, all below [nextSubscribeID_], after
    any sequence of events that does not exhaust the 64-bit IDs. *)
Theorem request_ids_increase_on_the_wire :
  forall es s s',
    fresh s ->
    nextSubscribeID_ s + Z.of_nat (List.length es) < 2 ^ 64 ->
    handleAll write INVALID_RANGE FETCH_INTERNAL_ERROR locationLess es s
    = Some s' ->
    StronglySorted Z.lt (requests s') /\
    Forall (fun i => i < nextSubscribeID_ s') (requests s').
Proof.
  intros es s s' Hfresh Hlen H.
  destruct (handleAll_fresh es s Hfresh Hlen) as (s1 & E & (_ & _ & Hr & Hs)).
  rewrite H in E. inversion E; subst. auto.
Qed.

(** *** Retirements *)

(** X18.  FETCH_CANCEL does not retire a SubscribeID exactly once per fetch.
    For a publisher without an open stream (a subscription, or a fetch not
    yet answered with [fetchOk]) it retires one ID and leaves the
    publisher in [pubTracks_]; for a fetch publisher with an open stream
    the reset completes the fetch, which removes the publisher and retires
    the ID, and [onFetchCancel] then retires once more. *)
Theorem onFetchCancel_retirements :
  forall m s p,
    pubTracks_ s !! FetchCancel.subscribeID m = Some p ->
    publisherID p = FetchCancel.subscribeID m ->
    (openStream p = false ->
     counters (onFetchCancel write m s) = retireCounters (counters s) /\
     pubTracks_ (onFetchCancel write m s) = pubTracks_ s) /\
    (openStream p = true ->
     counters (onFetchCancel write m s) =
       retireCounters (retireCounters (counters s)) /\
     pubTracks_ (onFetchCancel write m s) =
       delete (FetchCancel.subscribeID m) (pubTracks_ s)).
Proof.
  intros m s p Hp Hid. unfold onFetchCancel. rewrite Hp.
  split; intros Ho.
  - assert (resetPublisher write ResetStreamErrorCode.CANCELLED p s = s) as ->.
    { destruct p as [tp | fp]; [reflexivity |].
      cbn [openStream] in Ho. unfold resetPublisher. rewrite Ho. reflexivity. }
    destruct (retireSubscribeId_frame write true s) as (_ & Hc & Hpub). auto.
  - destruct p as [tp | fp]; [discriminate |].
    cbn [openStream publisherID] in Ho, Hid.
    unfold resetPublisher. rewrite Ho, Hid. unfold fetchComplete. rewrite Hp.
    match goal with |- context [retireSubscribeId write true
                                  (retireSubscribeId write true ?x)] =>
      destruct (retireSubscribeId_frame write true x) as (_ & Hc1 & Hp1);
      destruct (retireSubscribeId_frame write true
                  (retireSubscribeId write true x)) as (_ & Hc2 & Hp2) end.
    rewrite Hc2, Hc1, Hp2, Hp1. split; reflexivity.
Qed.

(** X19.  A reply the codec fails to frame still removes the publisher, but
    whether its SubscribeID is retired depends on the reply:
    [subscribeError] retires it, [subscribeDone] does not, so that the
    credit for this ID is never given back to the peer. *)
Theorem unframed_reply_and_retirement :
  forall s p,
    (forall e,
       pubTracks_ s !! SubscribeError.subscribeID e = Some p ->
       write (controlWriteBuf_ s) (SubscribeErrorFrame e) = false ->
       counters (subscribeError write e s) = retireCounters (counters s) /\
       pubTracks_ (subscribeError write e s) =
         delete (SubscribeError.subscribeID e) (pubTracks_ s)) /\
    (forall d,
       pubTracks_ s !! SubscribeDone.subscribeID d = Some p ->
       write (controlWriteBuf_ s) (SubscribeDoneFrame d) = false ->
       subscribeDone write d s =
       set_pubTracks (delete (SubscribeDone.subscribeID d) (pubTracks_ s)) s).
Proof.
  intros s p. split.
  - intros e Hp Hw. split; [eapply subscribeError_retires; eauto |].
    unfold subscribeError, writeFrame. rewrite Hp. cbv zeta.
    cbn [controlWriteBuf_ set_pubTracks]. rewrite Hw. cbn [negb].
    match goal with |- context [retireSubscribeId write false ?x] =>
      destruct (retireSubscribeId_frame write false x) as (_ & _ & Hpub) end.
    rewrite Hpub. reflexivity.
  - intros d Hp Hw. unfold subscribeDone, writeFrame. rewrite Hp. cbv zeta.
    cbn [controlWriteBuf_ set_pubTracks]. rewrite Hw. reflexivity.
Qed.

End WithCodec.

(** FETCH_CANCEL for the open fetch 0 retires twice. *)
Lemma onFetchCancel_retirements_witness :
  counters (onFetchCancel alwaysWrites (FetchCancel.mk 0)
              (established 8 (<[0 := openFetch]> ∅))) =
    retireCounters
      (retireCounters (counters (established 8 (<[0 := openFetch]> ∅)))) /\
  pubTracks_ (onFetchCancel alwaysWrites (FetchCancel.mk 0)
                (established 8 (<[0 := openFetch]> ∅))) =
    delete 0 (pubTracks_ (established 8 (<[0 := openFetch]> ∅))).
Proof.
  apply (onFetchCancel_retirements alwaysWrites (FetchCancel.mk 0)
           (established 8 (<[0 := openFetch]> ∅)) openFetch).
  - vm_compute. reflexivity.
  - reflexivity.
  - reflexivity.
Defined.

(** With a codec that frames nothing, SUBSCRIBE_DONE for subscription 0
    leaves the counters alone. *)
Lemma unframed_reply_and_retirement_witness :
  counters (subscribeError neverWrites (SubscribeError.mk 0 500 "" None)
              (established 8 (<[0 := trackPublisher 0]> ∅))) =
    retireCounters (counters (established 8 (<[0 := trackPublisher 0]> ∅))) /\
  counters (subscribeDone neverWrites (SubscribeDone.mk 0 0 "" None)
              (established 8 (<[0 := trackPublisher 0]> ∅))) =
    counters (established 8 (<[0 := trackPublisher 0]> ∅)).
Proof.
  destruct (unframed_reply_and_retirement neverWrites
              (established 8 (<[0 := trackPublisher 0]> ∅)) (trackPublisher 0))
    as (He & Hd).
  split.
  - apply (He (SubscribeError.mk 0 500 "" None)).
    + vm_compute. reflexivity.
    + reflexivity.
  - rewrite (Hd (SubscribeDone.mk 0 0 "" None)).
    + reflexivity.
    + vm_compute. reflexivity.
    + reflexivity.
Defined.

(** *** Setup *)

Section WithSetup.
Variable write : list ControlFrame -> ControlFrame -> bool.
Variable kVersionDraftCurrent : Z.
Variable MAX_SUBSCRIBE_ID : Z.

(** X20.  When a setup message carries several MAX_SUBSCRIBE_ID parameters,
    the first one counts; parameters with other keys before it are
    skipped. *)
Theorem first_max_subscribe_id_parameter_counts :
  forall before param rest,
    Forall (fun q => SetupParameter.key q <> MAX_SUBSCRIBE_ID) before ->
    SetupParameter.key param = MAX_SUBSCRIBE_ID ->
    getMaxSubscribeIdIfPresent MAX_SUBSCRIBE_ID (before ++ param :: rest) =
    SetupParameter.asUint64 param.
Proof.
  intros before param rest Hb Hp.
  induction Hb as [| q before Hq _ IH]; cbn [app getMaxSubscribeIdIfPresent].
  - rewrite Hp, Z.eqb_refl. reflexivity.
  - apply Z.eqb_neq in Hq. rewrite Hq. exact IH.
Qed.

(** X21.  After the setup exchange both ends agree on the two limits.  When
    the client's CLIENT_SETUP and the server's SERVER_SETUP are framed and
    the versions match, each side's [peerMaxSubscribeID_] is the other
    side's [maxSubscribeID_], and each side's window
    [maxConcurrentSubscribes_] is its own [maxSubscribeID_]. *)
Theorem setup_exchange_agrees :
  forall clientSetup serverSetup client server,
    dir_ client = CLIENT -> dir_ server = SERVER ->
    write (controlWriteBuf_ client) (ClientSetupFrame clientSetup) = true ->
    existsb (fun v => v =? kVersionDraftCurrent)
      (ClientSetup.supportedVersions clientSetup) = true ->
    write (controlWriteBuf_ server) (ServerSetupFrame serverSetup) = true ->
    ServerSetup.selectedVersion serverSetup = kVersionDraftCurrent ->
    exists client1 client2 server1,
      setup write MAX_SUBSCRIBE_ID clientSetup client = Some (client1, true) /\
      onClientSetup write kVersionDraftCurrent MAX_SUBSCRIBE_ID clientSetup
        (Some serverSetup) server = Some server1 /\
      onServerSetup write kVersionDraftCurrent MAX_SUBSCRIBE_ID serverSetup
        client1 = Some client2 /\
      peerMaxSubscribeID_ client2 = maxSubscribeID_ server1 /\
      peerMaxSubscribeID_ server1 = maxSubscribeID_ client2 /\
      maxConcurrentSubscribes_ client2 = maxSubscribeID_ client2 /\
      maxConcurrentSubscribes_ server1 = maxSubscribeID_ server1 /\
      setupPromise_ client2 = HasValue /\
      setupPromise_ server1 = HasValue /\
      setupComplete_ server1 = true.
Proof.
  intros cs ss c v Hc Hv Hwc Hver Hws Hsel.
  unfold setup, onClientSetup, onServerSetup, writeFrame.
  rewrite Hc, Hv, Hver. cbn [negb].
  cbn [controlWriteBuf_ set_setupPromise set_peerMaxSubscribeID].
  rewrite Hwc, Hws. cbn [negb]. do 3 eexists.
  split; [reflexivity |]. split; [reflexivity |].
  cbn [dir_ signal set_controlWriteEvent set_maxSubscribeID
       set_maxConcurrentSubscribes set_controlWriteBuf].
  change (dir_ (set_setupPromise Pending c)) with (dir_ c).
  rewrite Hc, Hsel, Z.eqb_refl. cbn [negb].
  split; [reflexivity |]. repeat split.
Qed.

End WithSetup.

(** MAX_SUBSCRIBE_ID (key 2) given twice, after a parameter with key 1. *)
Lemma first_max_subscribe_id_parameter_counts_witness :
  getMaxSubscribeIdIfPresent 2
    ([SetupParameter.mk 1 "" 9] ++
     SetupParameter.mk 2 "" 10 :: [SetupParameter.mk 2 "" 20]) = 10.
Proof.
  apply (first_max_subscribe_id_parameter_counts 2 [SetupParameter.mk 1 "" 9]
           (SetupParameter.mk 2 "" 10) [SetupParameter.mk 2 "" 20]).
  - repeat constructor. cbn. lia.
  - reflexivity.
Defined.

(** A client that advertises 10 and a server that advertises 20. *)
Lemma setup_exchange_agrees_witness :
  exists client1 client2 server1,
    setup alwaysWrites exampleKey
      (ClientSetup.mk [exampleVersion] [SetupParameter.mk exampleKey "" 10])
      newClient = Some (client1, true) /\
    onClientSetup alwaysWrites exampleVersion exampleKey
      (ClientSetup.mk [exampleVersion] [SetupParameter.mk exampleKey "" 10])
      (Some (ServerSetup.mk exampleVersion [SetupParameter.mk exampleKey "" 20]))
      newServer = Some server1 /\
    onServerSetup alwaysWrites exampleVersion exampleKey
      (ServerSetup.mk exampleVersion [SetupParameter.mk exampleKey "" 20])
      client1 = Some client2 /\
    peerMaxSubscribeID_ client2 = maxSubscribeID_ server1 /\
    peerMaxSubscribeID_ server1 = maxSubscribeID_ client2 /\
    maxConcurrentSubscribes_ client2 = maxSubscribeID_ client2 /\
    maxConcurrentSubscribes_ server1 = maxSubscribeID_ server1 /\
    setupPromise_ client2 = HasValue /\
    setupPromise_ server1 = HasValue /\
    setupComplete_ server1 = true.
Proof.
  apply (setup_exchange_agrees alwaysWrites exampleVersion exampleKey
           (ClientSetup.mk [exampleVersion] [SetupParameter.mk exampleKey "" 10])
           (ServerSetup.mk exampleVersion [SetupParameter.mk exampleKey "" 20])
           newClient newServer); reflexivity.
Defined.

(** A SUBSCRIBE over the limit closes the session, and a second one finds
    it closed.  A new client whose [start] gets no control stream has
    called [closeSession()] and is as it was; [close(INTERNAL_ERROR)] then
    calls [closeSession] again. *)
Lemma closeSession_calls_of_close_and_start_witness :
  (start false newClient = Some (newClient, true) /\
   wt_ (close alwaysWrites SessionCloseErrorCode.INTERNAL_ERROR newClient)
   = false /\
   closeSessionCalls_
     (close alwaysWrites SessionCloseErrorCode.INTERNAL_ERROR newClient) =
   closeSessionCalls_ newClient ++ [SessionCloseErrorCode.INTERNAL_ERROR]) /\
  ((wt_ (after [OnSubscribe (subscribeRequest 5);
                OnSubscribe (subscribeRequest 6)] (established 2 ∅)) = true /\
    closeSessionCalls_
      (after [OnSubscribe (subscribeRequest 5);
              OnSubscribe (subscribeRequest 6)] (established 2 ∅)) = []) \/
   (wt_ (after [OnSubscribe (subscribeRequest 5);
                OnSubscribe (subscribeRequest 6)] (established 2 ∅)) = false /\
    cancellationRequested_
      (after [OnSubscribe (subscribeRequest 5);
              OnSubscribe (subscribeRequest 6)] (established 2 ∅)) = true /\
    exists code,
      closeSessionCalls_
        (after [OnSubscribe (subscribeRequest 5);
                OnSubscribe (subscribeRequest 6)] (established 2 ∅)) = [code])).
Proof.
  destruct (closeSession_calls_of_close_and_start alwaysWrites
              exampleInvalidRange exampleInternalError exampleLess
              exampleVersion exampleKey)
    as (Hevents & Hstart & _).
  split.
  - apply (Hstart newClient SessionCloseErrorCode.INTERNAL_ERROR);
      reflexivity.
  - apply (Hevents
             [OnSubscribe (subscribeRequest 5);
              OnSubscribe (subscribeRequest 6)] (established 2 ∅)).
    + reflexivity.
    + reflexivity.
    + vm_compute. reflexivity.
Defined.

(** MAX_SUBSCRIBE_ID 5, then 3: the second closes the session.  On the
    client that learnt the limit 5 from MAX_SUBSCRIBE_ID, a SERVER_SETUP
    without the parameter puts the limit back to 0. *)
Lemma peer_limit_is_raised_or_set_by_setup_witness :
  peerMaxSubscribeID_ (established 2 ∅) <=
  peerMaxSubscribeID_
    (after [OnMaxSubscribeId (MaxSubscribeId.mk 5);
            OnMaxSubscribeId (MaxSubscribeId.mk 3)] (established 2 ∅)) /\
  peerMaxSubscribeID_ (after [OnMaxSubscribeId (MaxSubscribeId.mk 5)] newClient)
  = 5 /\
  exists s',
    onServerSetup alwaysWrites exampleVersion exampleKey
      (ServerSetup.mk exampleVersion [])
      (after [OnMaxSubscribeId (MaxSubscribeId.mk 5)] newClient) = Some s' /\
    peerMaxSubscribeID_ s' = 0.
Proof.
  destruct (peer_limit_is_raised_or_set_by_setup alwaysWrites
              exampleInvalidRange exampleInternalError exampleLess
              exampleVersion exampleKey)
    as (Hevents & Hserver & _).
  split; [| split; [vm_compute; reflexivity |]].
  - apply (Hevents [OnMaxSubscribeId (MaxSubscribeId.mk 5);
                    OnMaxSubscribeId (MaxSubscribeId.mk 3)]).
    vm_compute. reflexivity.
  - eexists. split; [vm_compute; reflexivity |].
    rewrite (Hserver (ServerSetup.mk exampleVersion [])
               (after [OnMaxSubscribeId (MaxSubscribeId.mk 5)] newClient)
               _ ltac:(vm_compute; reflexivity)).
    reflexivity.
Defined.

(** A FETCH_ERROR for an unknown fetch after [drain()]: the session stays
    open, for its subscription. *)
Lemma draining_session_closes_when_idle_witness :
  subTracks_ (after [OnFetchError (FetchError.mk 9 404 "")]
                (drain alwaysWrites subscribed)) <> ∅ \/
  fetches_ (after [OnFetchError (FetchError.mk 9 404 "")]
              (drain alwaysWrites subscribed)) <> ∅.
Proof.
  apply (draining_session_closes_when_idle alwaysWrites exampleInvalidRange
           exampleInternalError exampleLess
           [OnFetchError (FetchError.mk 9 404 "")] subscribed).
  - vm_compute. reflexivity.
  - vm_compute. reflexivity.
Defined.

Lemma fresh_established n : fresh (established n ∅).
Proof.
  unfold fresh, established, requests, receiving.
  cbn [nextSubscribeID_ subIdToTrackAlias_ subTracks_ fetches_
       controlWriteBuf_ omap list_omap].
  split; [lia |]. split; [| split; constructor].
  intros k [H | [H | H]]; rewrite lookup_empty in H; destruct H; discriminate.
Defined.

(** A subscribe, a fetch and a subscribe on a new session. *)
Lemma allocated_subscribe_ids_are_new_witness :
  exists s',
    handleAll alwaysWrites exampleInvalidRange exampleInternalError exampleLess
      [CallSubscribe (subscribeRequest 0) true;
       CallFetch (fetchRequest 0 (0, 0) (1, 0)) true;
       CallSubscribe (subscribeRequest 0) true] (established 5 ∅) = Some s' /\
    forall k, receiving s' k -> k < nextSubscribeID_ s'.
Proof.
  apply (allocated_subscribe_ids_are_new alwaysWrites exampleInvalidRange
           exampleInternalError exampleLess).
  - apply fresh_established.
  - vm_compute. reflexivity.
Defined.

Lemma request_ids_increase_on_the_wire_witness :
  StronglySorted Z.lt
    (requests (after [CallSubscribe (subscribeRequest 0) true;
                      CallFetch (fetchRequest 0 (0, 0) (1, 0)) true]
                 (established 5 ∅))) /\
  Forall (fun i => i < nextSubscribeID_
                         (after [CallSubscribe (subscribeRequest 0) true;
                                 CallFetch (fetchRequest 0 (0, 0) (1, 0)) true]
                            (established 5 ∅)))
    (requests (after [CallSubscribe (subscribeRequest 0) true;
                      CallFetch (fetchRequest 0 (0, 0) (1, 0)) true]
                 (established 5 ∅))).
Proof.
  apply (request_ids_increase_on_the_wire alwaysWrites exampleInvalidRange
           exampleInternalError exampleLess
           [CallSubscribe (subscribeRequest 0) true;
            CallFetch (fetchRequest 0 (0, 0) (1, 0)) true] (established 5 ∅)).
  - apply fresh_established.
  - vm_compute. reflexivity.
  - vm_compute. reflexivity.
Defined.

End SessionTraceFacts.

(** ** Facts about [getContainingDirectory] *)

Module FlvTestUtilsFacts.
Import FlvTestUtils.

Lemma rfind_absent input c : ~ In c input -> rfind input c = None.
Proof.
  induction input as [| x rest IH]; intros H; [reflexivity |].
  cbn [rfind]. rewrite IH by (intros Hin; apply H; right; exact Hin).
  destruct (Ascii.eqb x c) eqn:E; [| reflexivity].
  apply Ascii.eqb_eq in E. exfalso. apply H. left. exact E.
Qed.

Lemma rfind_last dir c name :
  ~ In c name -> rfind (dir ++ c :: name) c = Some (List.length dir).
Proof.
  intros H. induction dir as [| x dir IH]; cbn [app rfind List.length].
  - rewrite (rfind_absent name c H), Ascii.eqb_refl. reflexivity.
  - rewrite IH. reflexivity.
Qed.

Lemma rfind_none_absent input c : rfind input c = None -> ~ In c input.
Proof.
  induction input as [| x rest IH]; intros H Hin; [destruct Hin |].
  cbn [rfind] in H. destruct (rfind rest c) eqn:E; [discriminate |].
  destruct (Ascii.eqb x c) eqn:Ex; [discriminate |].
  destruct Hin as [-> | Hin]; [rewrite Ascii.eqb_refl in Ex; discriminate |].
  exact (IH eq_refl Hin).
Qed.

Lemma rfind_split input c : forall pos,
  rfind input c = Some pos ->
  exists dir name,
    input = dir ++ c :: name /\ List.length dir = pos /\ ~ In c name.
Proof.
  induction input as [| x rest IH]; intros pos H; [discriminate |].
  cbn [rfind] in H. destruct (rfind rest c) as [p |] eqn:E.
  - inversion H; subst. destruct (IH p eq_refl) as (dir & name & -> & Hl & Hn).
    exists (x :: dir), name. cbn [List.length]. rewrite Hl. auto.
  - destruct (Ascii.eqb x c) eqn:Ex; [| discriminate].
    inversion H; subst. apply Ascii.eqb_eq in Ex. subst x.
    exists [], rest. repeat split. exact (rfind_none_absent rest c E).
Qed.

(** X22.  [getContainingDirectory] cuts a path after its last slash.  The
    directory part of [dir ++ "/" ++ name], where [name] has no slash, is
    [dir ++ "/"], and the directory part of a path without a slash is
    empty. *)
Theorem getContainingDirectory_cuts_after_last_slash :
  (forall dir name,
     ~ In "/"%char name ->
     getContainingDirectory (dir ++ "/"%char :: name) = dir ++ ["/"%char]) /\
  (forall name,
     ~ In "/"%char name -> getContainingDirectory name = []).
Proof.
  split.
  - intros dir name H. unfold getContainingDirectory.
    rewrite (rfind_last dir _ name H).
    replace (List.length dir + 1)%nat with (List.length (dir ++ ["/"%char]))
      by (rewrite length_app; reflexivity).
    change (dir ++ "/"%char :: name) with (dir ++ ["/"%char] ++ name).
    rewrite app_assoc. apply take_app_length.
  - intros name H. unfold getContainingDirectory.
    rewrite (rfind_absent name _ H). reflexivity.
Qed.

(** X23.  [getContainingDirectory] is idempotent, and its result is a prefix
    of the input that is empty or ends with a slash, the rest of the input
    holding no slash. *)
Theorem getContainingDirectory_idempotent :
  forall input,
    getContainingDirectory (getContainingDirectory input) =
    getContainingDirectory input /\
    exists name,
      input = getContainingDirectory input ++ name /\
      ~ In "/"%char name /\
      (getContainingDirectory input = [] \/
       exists dir, getContainingDirectory input = dir ++ ["/"%char]).
Proof.
  intros input.
  assert (Hcut : forall dir name, ~ In "/"%char name ->
            getContainingDirectory (dir ++ "/"%char :: name)
            = dir ++ ["/"%char]).
  { intros dir name H. unfold getContainingDirectory.
    rewrite (rfind_last dir _ name H).
    replace (List.length dir + 1)%nat with (List.length (dir ++ ["/"%char]))
      by (rewrite length_app; reflexivity).
    change (dir ++ "/"%char :: name) with (dir ++ ["/"%char] ++ name).
    rewrite app_assoc. apply take_app_length. }
  destruct (rfind input "/"%char) as [pos |] eqn:E.
  - destruct (rfind_split _ _ _ E) as (dir & name & -> & _ & Hn).
    rewrite (Hcut dir name Hn). split.
    + exact (Hcut dir [] (fun H => H)).
    + exists name. rewrite <- app_assoc. repeat split; eauto.
  - pose proof (rfind_none_absent _ _ E) as Hn.
    assert (Hnone : getContainingDirectory input = []).
    { unfold getContainingDirectory. rewrite E. reflexivity. }
    rewrite Hnone. split; [reflexivity |].
    exists input. repeat split; auto.
Qed.

(** The directory of [a/b/c] is [a/b/]; that of [c] is empty. *)
Lemma getContainingDirectory_cuts_after_last_slash_witness :
  getContainingDirectory (["a"; "/"; "b"] ++ "/" :: ["c"])%char =
    (["a"; "/"; "b"] ++ ["/"])%char /\
  getContainingDirectory ["c"%char] = [].
Proof.
  destruct getContainingDirectory_cuts_after_last_slash as (Hcut & Hnone).
  split.
  - apply (Hcut ["a"; "/"; "b"]%char ["c"%char]).
    intros [H | []]. discriminate H.
  - apply (Hnone ["c"%char]). intros [H | []]. discriminate H.
Defined.

End FlvTestUtilsFacts.

(** ** Facts about the reader of an object stream *)

Module ObjectStreamCallbackFacts.
Import ObjectStreamCallback.

Lemma consumerCalls_call c r :
  consumerCalls (call c r) =
  consumerCalls r ++ (if isConsumerCall c then [c] else []).
Proof.
  unfold consumerCalls, call. cbn [calls_]. rewrite List.filter_app.
  cbn [List.filter]. destruct (isConsumerCall c); reflexivity.
Qed.

Lemma isCancelled_call c r : isCancelled (call c r) = isCancelled r.
Proof. reflexivity. Qed.

Lemma isCancelled_noteError {A} (res : Expected A MoQPublishError.t) r :
  isCancelled (noteError res r) = isCancelled r.
Proof. destruct res; reflexivity. Qed.

Lemma consumerCalls_noteError {A} (res : Expected A MoQPublishError.t) r :
  consumerCalls (noteError res r) = consumerCalls r.
Proof. destruct res; reflexivity. Qed.

Lemma consumerCalls_resetFetchCallback r :
  consumerCalls (resetFetchCallback r) = consumerCalls r.
Proof.
  unfold resetFetchCallback. cbv zeta.
  destruct (_ && _); [| reflexivity].
  rewrite consumerCalls_call. cbn [isConsumerCall]. apply app_nil_r.
Qed.

(** After [endOfSubgroup] the reader is cancelled. *)
Lemma isCancelled_endOfSubgroup deliver r :
  isCancelled (endOfSubgroup deliver r) = true.
Proof.
  destruct r as [ss tc sc fs fc pf err cs].
  unfold endOfSubgroup, isCancelled, resetFetchCallback.
  destruct deliver, ss, tc, sc, fs, fc, pf; reflexivity.
Qed.

Lemma consumerCalls_endOfSubgroup deliver r :
  consumerCalls (endOfSubgroup deliver r) =
  consumerCalls r ++
  (if deliver && negb (isCancelled r)
   then [Consume (if fetchState_ r then Writer.EndOfFetch
                  else Writer.EndOfSubgroup)]
   else []).
Proof.
  unfold endOfSubgroup. cbv zeta.
  destruct (deliver && negb (isCancelled r)).
  - destruct (fetchState_ r) eqn:Ef.
    + cbn [fetchState_ call]. rewrite Ef.
      rewrite consumerCalls_resetFetchCallback, consumerCalls_call.
      reflexivity.
    + cbn [fetchState_ call]. rewrite Ef.
      change (consumerCalls (set_subgroupCallback false ?x))
        with (consumerCalls x).
      rewrite consumerCalls_call. reflexivity.
  - rewrite app_nil_r. destruct (fetchState_ r).
    + apply consumerCalls_resetFetchCallback.
    + reflexivity.
Qed.

(** A cancelled reader handles every event, stays cancelled and calls no
    consumer. *)
Lemma step_cancelled e r :
  isCancelled r = true ->
  exists r',
    step e r = Some r' /\ isCancelled r' = true /\
    consumerCalls r' = consumerCalls r.
Proof.
  intros Hc. destruct e; cbn [step].
  - unfold onObjectBegin. rewrite Hc. eauto.
  - unfold onObjectPayload. rewrite Hc. eauto.
  - unfold onObjectStatus. rewrite Hc. eauto.
  - unfold onEndOfStream. rewrite Hc. eauto.
  - eexists. split; [reflexivity |]. split; [exact Hc |].
    unfold onConnectionError. rewrite consumerCalls_call. apply app_nil_r.
  - eexists. split; [reflexivity |]. unfold reset.
    destruct (negb (subscribeState_ r) && negb (fetchState_ r));
      cbn [fst]; [auto |].
    rewrite Hc. cbn [negb]. split; [apply isCancelled_endOfSubgroup |].
    rewrite consumerCalls_endOfSubgroup. apply app_nil_r.
  - eexists. split; [reflexivity |]. split; [| reflexivity].
    destruct r as [ss tc sc fs fc pf err cs]. unfold isCancelled in *.
    cbn in *. destruct fs; [exact Hc |]. destruct ss; [| reflexivity].
    apply orb_true_r.
  - eexists. split; [reflexivity |].
    split; [| apply consumerCalls_resetFetchCallback].
    destruct r as [ss tc sc fs fc pf err cs].
    unfold isCancelled, resetFetchCallback in *. cbn in *.
    destruct fs, pf; cbn; auto.
  - eexists. split; [reflexivity |]. split; [exact Hc | reflexivity].
Qed.


Ltac calls_of :=
  rewrite ?consumerCalls_noteError, ?consumerCalls_endOfSubgroup,
    ?consumerCalls_call;
  cbn [andb isConsumerCall]; rewrite ?app_nil_r.

Lemma no_end_more l c :
  forallb (fun c => negb (isEnd c)) l = true -> isEnd c = false ->
  forallb (fun c => negb (isEnd c)) (l ++ [c]) = true.
Proof.
  intros Hl Hc. rewrite forallb_app, Hl. cbn [forallb]. rewrite Hc.
  reflexivity.
Qed.

Lemma live_has_state r :
  isCancelled r = false ->
  negb (subscribeState_ r) && negb (fetchState_ r) = false.
Proof.
  unfold isCancelled. destruct (fetchState_ r), (subscribeState_ r);
    try reflexivity. discriminate.
Qed.

(** What a reader that is not cancelled does with one event: it calls its
    consumer without ending the stream, or it ends the stream with its
    last call and is cancelled. *)
Lemma step_live e r r' :
  isCancelled r = false ->
  forallb (fun c => negb (isEnd c)) (consumerCalls r) = true ->
  step e r = Some r' -> endsOnce r'.
Proof.
  intros Hc Hn H. destruct e; cbn [step] in H.
  - inversion H; subst; clear H. left. unfold onObjectBegin. rewrite Hc.
    destruct objectComplete, streamComplete, (fetchState_ r); calls_of;
      apply no_end_more; auto.
  - unfold onObjectPayload in H. rewrite Hc in H. left.
    destruct res as [st | err].
    + destruct (Bool.eqb _ _); inversion H; subst. calls_of.
      apply no_end_more; auto.
    + inversion H; subst.
      change (consumerCalls (set_error err ?x)) with (consumerCalls x).
      calls_of. apply no_end_more; auto.
  - inversion H; subst; clear H. unfold onObjectStatus. rewrite Hc.
    destruct status.
    + left. exact Hn.
    + left. destruct (fetchState_ r); calls_of; apply no_end_more; auto.
    + left. destruct (fetchState_ r); calls_of; apply no_end_more; auto.
    + left. destruct (fetchState_ r); calls_of; apply no_end_more; auto.
    + left. destruct (fetchState_ r); calls_of; apply no_end_more; auto.
    + right. split; [apply isCancelled_endOfSubgroup |].
      exists (consumerCalls r). eexists. split; [| split; [| exact Hn]].
      * rewrite consumerCalls_endOfSubgroup, Hc. reflexivity.
      * destruct (fetchState_ r); reflexivity.
  - inversion H; subst; clear H. unfold onEndOfStream. rewrite Hc.
    cbn [negb]. right. split; [apply isCancelled_endOfSubgroup |].
    exists (consumerCalls r). eexists. split; [| split; [| exact Hn]].
    + rewrite consumerCalls_endOfSubgroup, Hc. reflexivity.
    + destruct (fetchState_ r); reflexivity.
  - inversion H; subst; clear H. left. unfold onConnectionError. calls_of.
    exact Hn.
  - inversion H; subst; clear H. unfold reset.
    rewrite (live_has_state r Hc), Hc. cbn [negb fst].
    right. split; [apply isCancelled_endOfSubgroup |].
    exists (consumerCalls r), (Consume (Writer.Reset error)).
    split; [| split; [reflexivity | exact Hn]].
    calls_of. reflexivity.
  - inversion H; subst; clear H. left. exact Hn.
  - inversion H; subst; clear H. left.
    rewrite consumerCalls_resetFetchCallback. exact Hn.
  - inversion H; subst; clear H. left. exact Hn.
Qed.

Lemma run_endsOnce es : forall r r',
  endsOnce r -> run es r = Some r' -> endsOnce r'.
Proof.
  induction es as [| e es IH]; intros r r' Hr H; cbn [run] in H.
  - inversion H; subst. exact Hr.
  - destruct (isCancelled r) eqn:Hc.
    + destruct (step_cancelled e r Hc) as (r1 & E & Hc1 & E1).
      rewrite E in H. apply (IH r1 r'); [| exact H].
      unfold endsOnce. rewrite E1, Hc1.
      destruct Hr as [Hn | (_ & Hx)]; [left; exact Hn | right; auto].
    + destruct (step e r) as [r1 |] eqn:E; [| discriminate].
      apply (IH r1 r'); [| exact H].
      destruct Hr as [Hn | (Hx & _)]; [| congruence].
      exact (step_live e r r1 Hc Hn E).
Qed.

(** X25.  The reader tells a consumer at most once that its stream is over,
    and that is the last thing it tells it.  From a reader that has
    delivered no end, any events leave a trace of consumer calls with no
    [endOfSubgroup], [endOfFetch] or [reset] in it, or with exactly one,
    in the last place, and then the reader is cancelled. *)
Theorem stream_end_is_delivered_once :
  forall es r r',
    forallb (fun c => negb (isEnd c)) (consumerCalls r) = true ->
    run es r = Some r' ->
    forallb (fun c => negb (isEnd c)) (consumerCalls r') = true \/
    (isCancelled r' = true /\
     exists before c,
       consumerCalls r' = before ++ [c] /\ isEnd c = true /\
       forallb (fun c => negb (isEnd c)) before = true).
Proof.
  intros es r r' Hn H. apply (run_endsOnce es r r'); [left; exact Hn | exact H].
Qed.


(** An object, the end of the stream and a late object. *)
Lemma stream_end_is_delivered_once_witness :
  forallb (fun c => negb (isEnd c))
    (consumerCalls
       (onObjectBegin 7 0 4 3 WriterProps.abc true false (Value tt)
          (onEndOfStream
             (onObjectBegin 7 0 3 3 WriterProps.abc true false (Value tt)
                subgroupReader)))) = true \/
  (isCancelled
     (onObjectBegin 7 0 4 3 WriterProps.abc true false (Value tt)
        (onEndOfStream
           (onObjectBegin 7 0 3 3 WriterProps.abc true false (Value tt)
              subgroupReader))) = true /\
   exists before c,
     consumerCalls
       (onObjectBegin 7 0 4 3 WriterProps.abc true false (Value tt)
          (onEndOfStream
             (onObjectBegin 7 0 3 3 WriterProps.abc true false (Value tt)
                subgroupReader))) = before ++ [c] /\
     isEnd c = true /\
     forallb (fun c => negb (isEnd c)) before = true).
Proof.
  apply (stream_end_is_delivered_once
           [OnObjectBegin 7 0 3 3 WriterProps.abc true false (Value tt);
            OnEndOfStream;
            OnObjectBegin 7 0 4 3 WriterProps.abc true false (Value tt)]
           subgroupReader).
  - reflexivity.
  - reflexivity.
Defined.

End ObjectStreamCallbackFacts.

